(** * Youtube-summarizer: a shallow embedding of the transcript pipeline

    The development follows the layout of the repository:
    - [utils/chunk_transcript.py]   ([chunk_transcript]),
    - [utils/format_transcript.py]  ([seconds_to_timestamp], [format_transcript]),
    - [utils/extract_video_id.py]   ([extract_video_id] and its patterns),
    - [index.py]                    (cache, fetcher and [main]).

    A Python [str] is a sequence of Unicode code points; it is modelled as a
    list of code points.  Python integers are unbounded and are modelled by
    [Z].  The start times of captions are finite floats, which denote
    rationals, and are modelled by [Q]; the clock and the times kept in the
    cache are IEEE 754 doubles with their rounding, modelled by [float]. *)

From Stdlib Require Import ZArith QArith Lia Lqa List Bool String Ascii DecimalString.
From stdpp Require Import gmap list.

Local Open Scope Z_scope.

(** ** Strings *)

Definition char := N.
Definition str := list char.

(** ASCII literals of the source are written as Rocq strings and converted. *)
Definition str_of (s : string) : str :=
  List.map N_of_ascii (list_ascii_of_string s).

Definition nl : char := 10%N.

Definition len (s : str) : Z := Z.of_nat (length s).

(** [s.split(sep)] for a one-character separator: never returns the empty
    list, and [""] splits to [[""]]. *)
Fixpoint str_split (sep : char) (s : str) : list str :=
  match s with
  | [] => [[]]
  | c :: s' =>
      if N.eqb c sep then [] :: str_split sep s'
      else match str_split sep s' with
           | l :: ls => (c :: l) :: ls
           | [] => [[c]]
           end
  end.

(** [sep.join(parts)] for a one-character separator. *)
Fixpoint str_join (sep : char) (parts : list str) : str :=
  match parts with
  | [] => []
  | [p] => p
  | p :: ps => p ++ sep :: str_join sep ps
  end.

Definition is_nil {A} (l : list A) : bool :=
  match l with [] => true | _ => false end.

(** ** utils/chunk_transcript.py *)

Module Chunker.

(** The three loop variables of [chunk_transcript]. *)
Record state := mkState {
  chunks : list str;
  current_chunk : list str;
  current_length : Z
}.

(** One iteration of [for line in lines]. *)
Definition step (max_chars : Z) (st : state) (line : str) : state :=
  let line_length := len line + 1 in
  let st :=
    if (max_chars <? current_length st + line_length)
       && negb (is_nil (current_chunk st))
    then mkState (chunks st ++ [str_join nl (current_chunk st)]) [] 0
    else st in
  mkState (chunks st) (current_chunk st ++ [line])
          (current_length st + line_length).

Definition chunk_transcript (transcript_text : str) (max_chars : Z) : list str :=
  if is_nil transcript_text then []
  else if len transcript_text <=? max_chars then [transcript_text]
  else
    let lines := str_split nl transcript_text in
    let st := fold_left (step max_chars) lines (mkState [] [] 0) in
    if negb (is_nil (current_chunk st))
    then chunks st ++ [str_join nl (current_chunk st)]
    else chunks st.

(** The default [max_chars=4000]. *)
Definition chunk_transcript_default (transcript_text : str) : list str :=
  chunk_transcript transcript_text 4000.

End Chunker.

(** ** Specification vocabulary for the chunker *)

(** The character count kept in [current_length]: every line counts for its
    length plus one. *)
Definition lines_length (g : list str) : Z :=
  fold_right (fun l acc => len l + 1 + acc) 0 g.

(** A group of lines is well sized when it is a single line or its joined
    text fits in [max_chars]. *)
Definition group_ok (max_chars : Z) (g : list str) : Prop :=
  g <> [] /\ ((2 <= length g)%nat -> len (str_join nl g) <= max_chars).

(** Loop invariant of [chunk_transcript] after the lines [seen]. *)
Definition chunk_inv (max_chars : Z) (seen : list str) (st : Chunker.state) : Prop :=
  exists groups,
    Chunker.chunks st = List.map (str_join nl) groups /\
    Forall (group_ok max_chars) groups /\
    concat groups ++ Chunker.current_chunk st = seen /\
    Chunker.current_length st = lines_length (Chunker.current_chunk st) /\
    ((2 <= length (Chunker.current_chunk st))%nat ->
     Chunker.current_length st <= max_chars).


(** ** Whitespace and [str.strip()] *)

(** The code points Python treats as whitespace ([str.isspace], and what
    [str.strip()] removes): U+0009..U+000D, U+001C..U+0020, U+0085, U+00A0,
    U+1680, U+2000..U+200A, U+2028, U+2029, U+202F, U+205F, U+3000. *)
Definition is_space (c : char) : bool :=
  (((9 <=? c) && (c <=? 13)) || ((28 <=? c) && (c <=? 32))
   || (c =? 133) || (c =? 160) || (c =? 5760)
   || ((8192 <=? c) && (c <=? 8202))
   || (c =? 8232) || (c =? 8233) || (c =? 8239) || (c =? 8287)
   || (c =? 12288))%N.

Fixpoint lstrip (s : str) : str :=
  match s with
  | c :: s' => if is_space c then lstrip s' else s
  | [] => []
  end.

Definition rstrip (s : str) : str := rev (lstrip (rev s)).

Definition strip (s : str) : str := rstrip (lstrip s).

(** ** utils/format_transcript.py *)

Module Formatter.

(** A caption segment as delivered by the provider ([to_raw_data()]). *)
Record segment := mkSegment {
  text : str;
  start : Q;
  duration : Q
}.

(** [int(x)] on a finite float: truncation towards zero. *)
Definition py_int (x : Q) : Z := Z.quot (Qnum x) (Z.pos (Qden x)).

(** [str(n)] for a non-negative integer. *)
Definition decimal (n : Z) : str :=
  str_of (NilZero.string_of_uint (N.to_uint (Z.to_N n))).

(** The format specification [0{width}d]: sign first, then zeros up to the
    minimum width, then the decimal digits. *)
Definition format_0d (width : nat) (n : Z) : str :=
  let sign := if n <? 0 then str_of "-" else [] in
  let digits := decimal (Z.abs n) in
  sign ++ repeat 48%N (width - length sign - length digits) ++ digits.

Definition seconds_to_timestamp (seconds : Q) : str :=
  let total := py_int seconds in
  let hrs := total / 3600 in
  let mins := (total mod 3600) / 60 in
  let secs := total mod 60 in
  if 0 <? hrs
  then format_0d 2 hrs ++ str_of ":" ++ format_0d 2 mins
         ++ str_of ":" ++ format_0d 2 secs
  else format_0d 2 mins ++ str_of ":" ++ format_0d 2 secs.

(** The body of [for segment in transcript_segments], on the list [lines]. *)
Definition add_segment (lines : list str) (seg : segment) : list str :=
  let timestamp := seconds_to_timestamp (start seg) in
  let text := strip (text seg) in
  if negb (is_nil text)
  then lines ++ [str_of "[" ++ timestamp ++ str_of "] " ++ text]
  else lines.

Definition format_transcript (transcript_segments : list segment) : str :=
  if is_nil transcript_segments then []
  else
    let lines := fold_left add_segment transcript_segments [] in
    str_join nl lines.

End Formatter.

(** ** Specification vocabulary for the formatter *)

(** The digit character of [d], for [0 <= d <= 9]. *)
Definition digit (d : Z) : char := Z.to_N (48 + d).

(** A number below one hundred written with exactly two digits. *)
Definition two_digits (n : Z) : str := [digit (n / 10); digit (n mod 10)].

(** A segment is rendered when its trimmed text is not empty. *)
Definition rendered (seg : Formatter.segment) : bool :=
  negb (is_nil (strip (Formatter.text seg))).

(** The line of a rendered segment: ["[timestamp] text"]. *)
Definition render_line (seg : Formatter.segment) : str :=
  str_of "[" ++ Formatter.seconds_to_timestamp (Formatter.start seg)
    ++ str_of "] " ++ strip (Formatter.text seg).

(** ** Exceptions

    The exceptions that the program raises, catches or lets through.  They
    are all subclasses of [Exception].  [IpBlocked] is a subclass of
    [RequestBlocked] in the provider library.  [RecursionError] is a
    subclass of [RuntimeError]: the handler of [main] for [RuntimeError]
    catches it too.  [JSONDecodeError], [UnicodeDecodeError] and
    [UnicodeEncodeError] are subclasses of [ValueError], which is caught
    around [extract_video_id] only, where none of them can arise.  No other
    handler of the program names a superclass of another exception here. *)

Inductive exn :=
| ValueError (msg : str)
| RuntimeError (msg : str)
| RecursionError (msg : str)
| OSError
| JSONDecodeError
| UnicodeDecodeError
| UnicodeEncodeError
| AttributeError
| TypeError
| OverflowError
| NoTranscriptFound
| TranscriptsDisabled
| VideoUnavailable
| InvalidVideoId
| RequestBlocked
| IpBlocked
| OtherError (name : str).

(** The outcome of a call: a value, or a raised exception. *)
Inductive result (A : Type) :=
| Ok (a : A)
| Raise (e : exn).
Arguments Ok {A} a.
Arguments Raise {A} e.

(** ** The fragment of Python's [re] used by the program

    A backtracking matcher in continuation-passing style: alternatives are
    tried in Python's order (greedy first), and the first complete match
    wins.  Only the constructs of the program's patterns are covered;
    repetition is over single-character atoms. *)

Module Regex.

Inductive atom :=
| Lit (c : char)                       (* an ordinary or escaped character *)
| Dot                                  (* [.]: anything but a newline *)
| Class (ranges : list (char * char)). (* [[...]]: ranges; [c] alone is [c-c] *)

Definition atom_matches (a : atom) (c : char) : bool :=
  match a with
  | Lit d => N.eqb c d
  | Dot => negb (N.eqb c nl)
  | Class ranges => existsb (fun r => N.leb (fst r) c && N.leb c (snd r)) ranges
  end.

Inductive regex :=
| Empty
| Atom (a : atom)
| Seq (r1 r2 : regex)
| Opt (r : regex)                (* [(?:r)?], greedy *)
| Star (a : atom)                (* [a*], greedy *)
| Repeat (n : nat) (a : atom)    (* [a{n}] *)
| Group (r : regex)              (* [(r)], capturing group 1 *)
| Bol                            (* [^] *)
| Eol.                           (* [$] *)

(** A position in the subject: the offset, the text from there on, and the
    text captured by group 1 so far. *)
Record mstate := mkM {
  pos : nat;
  rest : str;
  group1 : option str
}.

Definition advance (s : mstate) (t : str) : mstate :=
  mkM (S (pos s)) t (group1 s).

Fixpoint match_star (a : atom) (k : mstate -> option mstate)
    (p : nat) (g : option str) (inp : str) : option mstate :=
  match inp with
  | c :: t =>
      if atom_matches a c
      then match match_star a k (S p) g t with
           | Some m => Some m
           | None => k (mkM p inp g)
           end
      else k (mkM p inp g)
  | [] => k (mkM p inp g)
  end.

Fixpoint match_repeat (a : atom) (k : mstate -> option mstate)
    (n : nat) (s : mstate) : option mstate :=
  match n with
  | O => k s
  | S n' =>
      match rest s with
      | c :: t => if atom_matches a c then match_repeat a k n' (advance s t) else None
      | [] => None
      end
  end.

Fixpoint rmatch (r : regex) (s : mstate) (k : mstate -> option mstate)
    : option mstate :=
  match r with
  | Empty => k s
  | Atom a =>
      match rest s with
      | c :: t => if atom_matches a c then k (advance s t) else None
      | [] => None
      end
  | Seq r1 r2 => rmatch r1 s (fun s' => rmatch r2 s' k)
  | Opt r1 =>
      match rmatch r1 s k with
      | Some m => Some m
      | None => k s
      end
  | Star a => match_star a k (pos s) (group1 s) (rest s)
  | Repeat n a => match_repeat a k n s
  | Group r1 =>
      rmatch r1 s (fun s' =>
        k (mkM (pos s') (rest s') (Some (take (pos s' - pos s) (rest s)))))
  | Bol => if Nat.eqb (pos s) 0 then k s else None
  | Eol =>
      (* end of the string, or just before a newline that ends the string *)
      match rest s with
      | [] => k s
      | [c] => if N.eqb c nl then k s else None
      | _ => None
      end
  end.

(** [re.match(pattern, text)]: a match starting at offset 0. *)
Definition re_match (r : regex) (text : str) : option mstate :=
  rmatch r (mkM 0 text None) Some.

(** [re.search(pattern, text)]: the match at the leftmost offset that has
    one, offsets [0 .. len(text)] being tried in order. *)
Fixpoint search_from (r : regex) (p : nat) (inp : str) : option mstate :=
  match rmatch r (mkM p inp None) Some with
  | Some m => Some m
  | None =>
      match inp with
      | [] => None
      | _ :: t => search_from r (S p) t
      end
  end.

Definition re_search (r : regex) (text : str) : option mstate :=
  search_from r 0 text.

(** A string of ordinary characters, and a sequence of sub-patterns. *)
Definition lit_chars (l : str) : regex :=
  fold_right (fun c r => Seq (Atom (Lit c)) r) Empty l.

Definition lit (s : string) : regex := lit_chars (str_of s).

Definition seqs (rs : list regex) : regex := fold_right Seq Empty rs.

End Regex.

(** ** utils/extract_video_id.py *)

Module Extractor.
Import Regex.

(** [[a-zA-Z0-9_-]] *)
Definition ID_CLASS : atom :=
  Class [(97, 122); (65, 90); (48, 57); (95, 95); (45, 45)]%N.

(** [([a-zA-Z0-9_-]{11})] *)
Definition ID_GROUP : regex := Group (Repeat 11 ID_CLASS).

(** [(?:https?://)?] and [(?:www\.)?] *)
Definition SCHEME : regex :=
  Opt (seqs [lit "http"; Opt (Atom (Lit 115%N)); lit "://"]).
Definition WWW : regex := Opt (lit "www.").

Definition YOUTUBE_PATTERNS : list regex :=
  [ (* (?:https?://)?(?:www\.)?youtube\.com/watch\?.*v=([a-zA-Z0-9_-]{11}) *)
    seqs [SCHEME; WWW; lit "youtube.com/watch?"; Star Dot; lit "v="; ID_GROUP];
    (* (?:https?://)?youtu\.be/([a-zA-Z0-9_-]{11}) *)
    seqs [SCHEME; lit "youtu.be/"; ID_GROUP];
    (* (?:https?://)?(?:www\.)?youtube\.com/shorts/([a-zA-Z0-9_-]{11}) *)
    seqs [SCHEME; WWW; lit "youtube.com/shorts/"; ID_GROUP];
    (* (?:https?://)?(?:www\.)?youtube\.com/embed/([a-zA-Z0-9_-]{11}) *)
    seqs [SCHEME; WWW; lit "youtube.com/embed/"; ID_GROUP];
    (* (?:https?://)?(?:www\.)?youtube\.com/live/([a-zA-Z0-9_-]{11}) *)
    seqs [SCHEME; WWW; lit "youtube.com/live/"; ID_GROUP] ].

(** [^[a-zA-Z0-9_-]{11}$] *)
Definition BARE_ID_PATTERN : regex := seqs [Bol; Repeat 11 ID_CLASS; Eol].

(** [match.group(1)].  Group 1 takes part in every match of the patterns
    above, so the [None] of an unmatched group does not arise. *)
Definition group (m : mstate) : str :=
  match group1 m with Some g => g | None => [] end.

Definition invalid_input_message (text : str) : str :=
  str_of "Could not extract a YouTube video ID from: " ++ text ++ [nl]
  ++ str_of "Supported formats:" ++ [nl]
  ++ str_of "  - https://www.youtube.com/watch?v=VIDEO_ID" ++ [nl]
  ++ str_of "  - https://youtu.be/VIDEO_ID" ++ [nl]
  ++ str_of "  - https://youtube.com/shorts/VIDEO_ID" ++ [nl]
  ++ str_of "  - A plain 11-character video ID".

(** [for pattern in YOUTUBE_PATTERNS: ...], then the final [raise]. *)
Fixpoint try_patterns (patterns : list regex) (text : str) : result str :=
  match patterns with
  | pattern :: patterns' =>
      match re_search pattern text with
      | Some m => Ok (group m)
      | None => try_patterns patterns' text
      end
  | [] => Raise (ValueError (invalid_input_message text))
  end.

(** [extract_video_id], with the list of URL patterns as a parameter. *)
Definition extract_with (patterns : list regex) (url_or_id : str) : result str :=
  let text := strip url_or_id in
  match re_match BARE_ID_PATTERN text with
  | Some _ => Ok text
  | None => try_patterns patterns text
  end.

Definition extract_video_id (url_or_id : str) : result str :=
  extract_with YOUTUBE_PATTERNS url_or_id.

End Extractor.

(** ** Specification vocabulary for the matcher and the extractor *)

(** [s'] is reached from [s] by consuming a prefix of the remaining text. *)
Definition extends (s s' : Regex.mstate) : Prop :=
  exists consumed,
    Regex.rest s = consumed ++ Regex.rest s' /\
    Regex.pos s' = (Regex.pos s + length consumed)%nat.

(** The ID alphabet, and well-formed video IDs. *)
Definition id_char (c : char) : bool := Regex.atom_matches Extractor.ID_CLASS c.

Definition is_video_id (v : str) : bool :=
  Nat.eqb (length v) 11 && forallb id_char v.

(** The URL shapes named by the module's documentation, by the pattern that
    is meant to recognise them. *)
Inductive shape := Watch | Short | Shorts | Embed | Live.

(** The text that precedes the ID in a URL of the shape. *)
Definition shape_literal (sh : shape) : str :=
  match sh with
  | Watch => str_of "youtube.com/watch?v="
  | Short => str_of "youtu.be/"
  | Shorts => str_of "youtube.com/shorts/"
  | Embed => str_of "youtube.com/embed/"
  | Live => str_of "youtube.com/live/"
  end.

(** The optional scheme and [www.] in front of it. *)
Definition shape_prefixes (sh : shape) : list str :=
  match sh with
  | Short => [str_of ""; str_of "http://"; str_of "https://"]
  | _ => [str_of ""; str_of "http://"; str_of "https://";
          str_of "www."; str_of "http://www."; str_of "https://www."]
  end.

Definition slash : char := 47%N.

(** The text starts with [v=] and eleven ID characters. *)
Definition starts_with_v_id (s : str) : bool :=
  match s with
  | c1 :: r1 =>
      N.eqb c1 118
      && match r1 with
         | c2 :: r => N.eqb c2 61 && is_video_id (take 11 r)
         | [] => false
         end
  | [] => false
  end.

(** Somewhere in the text, [v=] is followed by eleven ID characters. *)
Fixpoint has_v_id (s : str) : bool :=
  starts_with_v_id s || match s with [] => false | _ :: t => has_v_id t end.

(** Two texts agree as far as both go. *)
Fixpoint compat (x y : str) : bool :=
  match x, y with
  | c :: x', d :: y' => N.eqb c d && compat x' y'
  | _, _ => true
  end.

(** Some offset inside [p] at which an occurrence of [l] could start. *)
Definition may_occur (l p : str) : bool :=
  existsb (fun i => compat (drop i p) l) (seq 0 (length p)).

(** Position of the shape's pattern in [YOUTUBE_PATTERNS], the pattern
    itself, and the literal text inside it. *)
Definition shape_index (sh : shape) : nat :=
  match sh with Watch => 0 | Short => 1 | Shorts => 2 | Embed => 3 | Live => 4 end.

Definition shape_pattern (sh : shape) : Regex.regex :=
  nth (shape_index sh) Extractor.YOUTUBE_PATTERNS Regex.Empty.

Definition pattern_literal (sh : shape) : str :=
  match sh with
  | Watch => str_of "youtube.com/watch?"
  | Short => str_of "youtu.be/"
  | Shorts => str_of "youtube.com/shorts/"
  | Embed => str_of "youtube.com/embed/"
  | Live => str_of "youtube.com/live/"
  end.

(** ** Python's [float], and its arithmetic with [int]

    A [float] is an IEEE 754 double: not a number, an infinity, or a finite
    value [m * 2^e].  The finite doubles are the values with [|m| < 2^53]
    and [-1074 <= e <= 971]; the operations below are defined on every pair
    [m], [e] and return doubles.  The sign of zero is not kept: nothing in
    the program looks at it. *)

Inductive float :=
| NaN
| Inf (negative : bool)
| Finite (m e : Z).

(** The number of binary digits of a non-zero integer. *)
Definition bits (m : Z) : Z := Z.log2 (Z.abs m) + 1.

(** [m / 2^k] for [0 < k], rounded to the nearest integer, a tie to the
    even one. *)
Definition round_half_even (m k : Z) : Z :=
  let q := m / 2 ^ k in
  let r := m mod 2 ^ k in
  let half := 2 ^ (k - 1) in
  if r <? half then q
  else if half <? r then q + 1
  else if Z.even q then q else q + 1.

(** The double nearest to [m * 2^e], a tie going to the even mantissa
    (the rounding of every operation of the interpreter): a mantissa of at
    most 53 binary digits, a last place not below [2^-1074], and infinity
    from [2^1024] on. *)
Definition float_round (m e : Z) : float :=
  if m =? 0 then Finite 0 0
  else
    let e' := Z.max (bits m + e - 53) (-1074) in
    let n := if e' <=? e then m * 2 ^ (e - e') else round_half_even m (e' - e) in
    if 1024 <? bits n + e' then Inf (m <? 0) else Finite n e'.

(** [float(z)] for an [int]: the nearest double, and an [OverflowError]
    ([None]) where that is no finite one. *)
Definition float_of_int (z : Z) : option float :=
  match float_round z 0 with
  | Finite n e => Some (Finite n e)
  | _ => None
  end.

(** [x - y] on floats. *)
Definition float_minus (x y : float) : float :=
  match x, y with
  | NaN, _ | _, NaN => NaN
  | Inf a, Inf b => if Bool.eqb a b then NaN else Inf a
  | Inf a, Finite _ _ => Inf a
  | Finite _ _, Inf b => Inf (negb b)
  | Finite m1 e1, Finite m2 e2 =>
      let e := Z.min e1 e2 in
      float_round (m1 * 2 ^ (e1 - e) - m2 * 2 ^ (e2 - e)) e
  end.

(** [x > n] for a float and an [int]: the interpreter compares the two
    values exactly, and nothing is greater or less than a NaN. *)
Definition float_gt_int (x : float) (n : Z) : bool :=
  match x with
  | NaN => false
  | Inf negative => negb negative
  | Finite m e => if 0 <=? e then n <? m * 2 ^ e else n * 2 ^ (- e) <? m
  end.

(** [x == 0] *)
Definition float_is_zero (x : float) : bool :=
  match x with
  | Finite m _ => m =? 0
  | _ => false
  end.

(** ** index.py *)

Module Index.

Definition segment := Formatter.segment.

(** *** The world the program runs in

    The cache directory, the clock and the captions provider are external
    to the program; their state and behaviour are gathered in a [world]
    that the program's operations read and update. *)

(** A value held by a field of a cache entry, as [json.load] yields it:
    [None], a boolean, an [int] (an integer literal, of any size), a
    [float] (a literal with a fraction or an exponent, and [NaN],
    [Infinity] and [-Infinity], which [json.load] accepts), a string, or a
    list of segment dictionaries (what [to_raw_data()] returns and
    [json.dump] writes). *)
Inductive value :=
| VNone
| VBool (b : bool)
| VInt (z : Z)
| VFloat (x : float)
| VStr (s : str)
| VSegments (l : list segment).

(** What reading a cache file leads to: [open]/[read] fail; the bytes are
    not UTF-8; the text is not JSON; the text is nested so deeply that
    [json.load] gives up with a [RecursionError], or holds an integer
    literal of more digits than the interpreter converts, a [ValueError]
    (either with the interpreter's message); or [json.load] returns, either
    a [dict] of fields or some other value. *)
Inductive file :=
| Unreadable
| Undecodable
| Malformed
| TooDeep (message : str)
| TooManyDigits (message : str)
| Object (fields : gmap (list N) value)
| NotAnObject.

(** [CACHE_DIR]: present; absent and creatable; or absent where it cannot
    be created (read-only location, or a plain file of that name). *)
Inductive dir_state := DirPresent | DirAbsent | DirBlocked.

(** What happens when a cache file is opened for writing and dumped to:
    all is written; [open] fails; or the write fails part way, leaving a
    truncated file. *)
Inductive write_outcome := WriteOk | WriteOpenFails | WriteBreaks.

(** What happens when a cache file is removed: it goes, or [os.remove]
    fails (a read-only directory) and it stays. *)
Inductive remove_outcome := RemoveOk | RemoveFails.

(** A transcript of the provider's listing, with what its [fetch()] and
    [to_raw_data()] will produce. *)
Record transcript := mkTranscript {
  language_code : str;
  transcript_fetch : result (list segment)
}.

(** The captions provider: [api.fetch(video_id, languages)] followed by
    [to_raw_data()], and [api.list(video_id)]. *)
Record provider := mkProvider {
  fetch_result : str -> list str -> result (list segment);
  list_result : str -> result (list transcript)
}.

(** The calls made to the provider. *)
Inductive call :=
| CallFetch (video_id : str) (languages : list str)
| CallList (video_id : str)
| CallTranscriptFetch (language : str).

Record world := mkWorld {
  files : gmap (list N) file;   (* the files of CACHE_DIR, by name *)
  cache_dir : dir_state;
  writes : write_outcome;
  removes : remove_outcome;
  clock : float;                (* time.time() *)
  youtube : provider;
  calls : list call             (* provider calls made so far *)
}.

Definition set_files (fs : gmap (list N) file) (w : world) : world :=
  mkWorld fs (cache_dir w) (writes w) (removes w) (clock w) (youtube w) (calls w).

Definition set_cache_dir (d : dir_state) (w : world) : world :=
  mkWorld (files w) d (writes w) (removes w) (clock w) (youtube w) (calls w).

Definition log_call (c : call) (w : world) : world :=
  mkWorld (files w) (cache_dir w) (writes w) (removes w) (clock w) (youtube w)
    (calls w ++ [c]).

(** *** Computations: world passing, with exceptions *)

Definition M (A : Type) : Type := world -> result A * world.

Definition ret {A} (a : A) : M A := fun w => (Ok a, w).

Definition raise {A} (e : exn) : M A := fun w => (Raise e, w).

Definition bind {A B} (m : M A) (f : A -> M B) : M B :=
  fun w =>
    match m w with
    | (Ok a, w') => f a w'
    | (Raise e, w') => (Raise e, w')
    end.

(** The outcome of an expression that touches nothing. *)
Definition lift {A} (r : result A) : M A := fun w => (r, w).

(** [try: body except ...]: the handler tells which exceptions it catches
    ([Some]) and which pass through ([None]). *)
Definition try_except {A} (body : M A) (handler : exn -> option (M A)) : M A :=
  fun w =>
    match body w with
    | (Ok a, w') => (Ok a, w')
    | (Raise e, w') =>
        match handler e with
        | Some h => h w'
        | None => (Raise e, w')
        end
    end.

Notation "x <- m ;; k" := (bind m (fun x => k))
  (at level 100, m at next level, right associativity).
Notation "m ;;; k" := (bind m (fun _ => k))
  (at level 100, right associativity).

(** *** Operating system and provider primitives *)

(** [time.time()].  The clock does not advance during one run. *)
Definition time_time : M float := fun w => (Ok (clock w), w).

(** [os.path.exists(path)], for a path inside [CACHE_DIR]. *)
Definition os_path_exists (path : str) : M bool :=
  fun w => (Ok (bool_decide (is_Some (files w !! path))), w).

(** [with open(path, "r", encoding="utf-8") as f: json.load(f)] *)
Definition open_json_load (path : str) : M file :=
  fun w =>
    match files w !! path with
    | None => (Raise OSError, w)
    | Some Unreadable => (Raise OSError, w)
    | Some Undecodable => (Raise UnicodeDecodeError, w)
    | Some Malformed => (Raise JSONDecodeError, w)
    | Some (TooDeep message) => (Raise (RecursionError message), w)
    | Some (TooManyDigits message) => (Raise (ValueError message), w)
    | Some doc => (Ok doc, w)
    end.

(** [os.remove(path)]: a file that is there is removed, unless the
    removal fails; either failure is an [OSError]. *)
Definition os_remove (path : str) : M unit :=
  fun w =>
    match files w !! path, removes w with
    | Some _, RemoveOk => (Ok tt, set_files (delete path (files w)) w)
    | _, _ => (Raise OSError, w)
    end.

(** [os.makedirs(CACHE_DIR, exist_ok=True)] *)
Definition os_makedirs : M unit :=
  fun w =>
    match cache_dir w with
    | DirPresent => (Ok tt, w)
    | DirAbsent => (Ok tt, set_cache_dir DirPresent w)
    | DirBlocked => (Raise OSError, w)
    end.

(** [with open(path, "w", encoding="utf-8") as f: json.dump(fields, f)] *)
Definition open_json_dump (path : str) (fields : gmap (list N) value) : M unit :=
  fun w =>
    match cache_dir w, writes w with
    | DirPresent, WriteOk => (Ok tt, set_files (<[path := Object fields]> (files w)) w)
    | DirPresent, WriteBreaks => (Raise OSError, set_files (<[path := Malformed]> (files w)) w)
    | _, _ => (Raise OSError, w)
    end.

Definition api_fetch (video_id : str) (languages : list str) : M (list segment) :=
  fun w => (fetch_result (youtube w) video_id languages,
            log_call (CallFetch video_id languages) w).

Definition api_list (video_id : str) : M (list transcript) :=
  fun w => (list_result (youtube w) video_id, log_call (CallList video_id) w).

Definition fetch_of (t : transcript) : M (list segment) :=
  fun w => (transcript_fetch t, log_call (CallTranscriptFetch (language_code t)) w).

(** *** Cache *)

Definition CACHE_TTL_SECONDS : Z := 7 * 24 * 3600.

(** The name of the entry of [video_id] inside [CACHE_DIR]. *)
Definition cache_file_of (video_id : str) : str := video_id ++ str_of ".json".

(** [cached.get(key, default)]: only a [dict] has [get]. *)
Definition dict_get (cached : file) (key : str) (default : value) : M value :=
  match cached with
  | Object fields =>
      ret (match fields !! key with Some v => v | None => default end)
  | _ => raise AttributeError
  end.

(** [now - v] for a float [now]: the difference of two floats, rounded;
    an [int] (and a boolean, which is one) is converted to a float first,
    with an [OverflowError] when it is too large for one; a [TypeError] for
    any other value. *)
Definition float_sub (now : float) (v : value) : result float :=
  let minus_int z :=
    match float_of_int z with
    | Some y => Ok (float_minus now y)
    | None => Raise OverflowError
    end in
  match v with
  | VFloat y => Ok (float_minus now y)
  | VInt z => minus_int z
  | VBool b => minus_int (if b then 1 else 0)
  | _ => Raise TypeError
  end.

(** [a > b] for a float and an [int] *)
Definition gt (a : float) (b : Z) : bool := float_gt_int a b.

Definition get_cached_transcript (video_id : str) : M value :=
  let cache_file := cache_file_of video_id in
  there <- os_path_exists cache_file ;;
  if negb there then ret VNone
  else
    try_except
      (cached <- open_json_load cache_file ;;
       cached_at <- dict_get cached (str_of "cached_at") (VInt 0) ;;
       now <- time_time ;;
       age <- lift (float_sub now cached_at) ;;
       if gt age CACHE_TTL_SECONDS
       then os_remove cache_file ;;; ret VNone
       else dict_get cached (str_of "segments") VNone)
      (fun e =>
         match e with
         | JSONDecodeError | OSError => Some (ret VNone)
         | _ => None
         end).

Definition save_to_cache (video_id : str) (segments : list segment) : M unit :=
  os_makedirs ;;;
  let cache_file := cache_file_of video_id in
  try_except
    (now <- time_time ;;
     open_json_dump cache_file
       (<[str_of "video_id" := VStr video_id]>
          (<[str_of "cached_at" := VFloat now]>
             (<[str_of "segments" := VSegments segments]> ∅))))
    (fun e =>
       match e with
       | OSError => Some (ret tt)
       | _ => None
       end).

(** *** Fetcher *)

Definition disabled_message (video_id : str) : str :=
  str_of "Transcripts are disabled for video '" ++ video_id
  ++ str_of "'. The video owner has turned off captions.".

Definition unavailable_message (video_id : str) : str :=
  str_of "Video '" ++ video_id
  ++ str_of "' is unavailable. It may be private, deleted, or region-restricted.".

Definition invalid_id_message (video_id : str) : str :=
  str_of "'" ++ video_id ++ str_of "' is not a valid YouTube video ID.".

Definition blocked_message : str :=
  str_of "YouTube is blocking requests right now. This is usually temporary "
  ++ [8212%N] ++ str_of " please try again in a few minutes.".

Definition no_captions_message (video_id : str) : str :=
  str_of "Could not fetch any transcript for video '" ++ video_id
  ++ str_of "'. The video may not have captions/subtitles available.".

Definition fetch_transcript (video_id : str) : M (list segment) :=
  (* Attempt 1: fetch English transcript directly *)
  first <-
    try_except
      (result <- api_fetch video_id [str_of "en"] ;; ret (Some result))
      (fun e =>
         match e with
         | NoTranscriptFound => Some (ret None)
         | TranscriptsDisabled =>
             Some (raise (RuntimeError (disabled_message video_id)))
         | VideoUnavailable =>
             Some (raise (RuntimeError (unavailable_message video_id)))
         | InvalidVideoId =>
             Some (raise (RuntimeError (invalid_id_message video_id)))
         | RequestBlocked | IpBlocked =>
             Some (raise (RuntimeError blocked_message))
         | _ => None
         end) ;;
  match first with
  | Some result => ret result
  | None =>
      (* Attempt 2: list all transcripts and pick the first available *)
      second <-
        try_except
          (transcript_list <- api_list video_id ;;
           match transcript_list with
           | transcript :: _ => result <- fetch_of transcript ;; ret (Some result)
           | [] => ret None
           end)
          (fun _ => Some (ret None)) ;;
      match second with
      | Some result => ret result
      | None => raise (RuntimeError (no_captions_message video_id))
      end
  end.

(** *** Entry point *)

(** What is printed on standard output. *)
Inductive output :=
| Plain (chunk : str)
| Bundle (video_id : str) (total_chunks : nat) (note : str) (chunks : list str).

(** What is reported on standard error before [sys.exit(1)]. *)
Inductive report :=
| NoArgument                (* "ERROR: No video ID or URL provided." and the usage *)
| Reported (message : str)  (* "ERROR: {e}" *)
| Unexpected (e : exn)      (* "ERROR: An unexpected error occurred: {e}" *)
| EmptyTranscript.          (* "ERROR: Transcript was fetched but appears to be empty." *)

Inductive outcome :=
| Success (out : output)    (* printed; exit status 0 *)
| Failure (r : report)      (* reported; exit status 1 *)
| Traceback (e : exn).      (* an exception nobody catches: exit status 1 *)

(** [sys.stdout] and [sys.stderr] are rewrapped as UTF-8 text streams with
    the default, strict error handling: [print] of a text that holds a
    surrogate code point (U+D800 to U+DFFF) raises a [UnicodeEncodeError]
    and writes nothing of that text. *)
Definition encodable (s : str) : bool :=
  forallb (fun c => (c <? 55296)%N || (57343 <? c)%N) s.

(** [str(e)] where the program or the world supplies it.  The texts of
    the other exceptions are those of the interpreter and of the
    libraries. *)
Definition exn_text (e : exn) : option str :=
  match e with
  | ValueError msg | RuntimeError msg | RecursionError msg => Some msg
  | _ => None
  end.

Definition printable (r : report) : bool :=
  match r with
  | Reported message => encodable message
  | Unexpected e =>
      match exn_text e with
      | Some msg => encodable msg
      | None => true
      end
  | NoArgument | EmptyTranscript => true
  end.

(** [print(..., file=sys.stderr)] and [sys.exit(1)]; when the text cannot
    be encoded, the [UnicodeEncodeError] of [print] is raised inside the
    handler and nobody catches it. *)
Definition fail (r : report) : outcome :=
  if printable r then Failure r else Traceback UnicodeEncodeError.

(** [except RuntimeError as e]: the exceptions it catches, with [str(e)]. *)
Definition runtime_error (e : exn) : option str :=
  match e with
  | RuntimeError msg | RecursionError msg => Some msg
  | _ => None
  end.

Definition chunk_note : str :=
  str_of "This transcript was split into chunks because the video is long. Process all chunks.".

(** [format_transcript] on what the cache returned.  A value that is false
    in a condition gives the empty string; a number or [True] cannot be
    iterated and the characters of a string cannot be indexed by ["start"]. *)
Definition format_value (v : value) : result str :=
  match v with
  | VSegments l => Ok (Formatter.format_transcript l)
  | VNone => Ok []
  | VBool false => Ok []
  | VBool true => Raise TypeError
  | VInt z => if z =? 0 then Ok [] else Raise TypeError
  | VFloat x => if float_is_zero x then Ok [] else Raise TypeError
  | VStr [] => Ok []
  | VStr _ => Raise TypeError
  end.

(** The first [try] of [main] after the ID is known: cache, then fetcher. *)
Definition load_transcript (video_id : str) : M value :=
  cached <- get_cached_transcript video_id ;;
  match cached with
  | VNone =>
      transcript_segments <- fetch_transcript video_id ;;
      save_to_cache video_id transcript_segments ;;;
      ret (VSegments transcript_segments)
  | _ => ret cached
  end.

(** Format, chunk and print.  A single chunk is printed as it is, and
    [print] fails on one that cannot be encoded; several chunks are printed
    through [json.dumps], which escapes every non-ASCII character. *)
Definition emit (video_id : str) (transcript_segments : value) : outcome :=
  match format_value transcript_segments with
  | Raise e => Traceback e
  | Ok formatted =>
      if is_nil formatted then Failure EmptyTranscript
      else
        let chunks := Chunker.chunk_transcript_default formatted in
        match chunks with
        | [chunk] =>
            if encodable chunk then Success (Plain chunk)
            else Traceback UnicodeEncodeError
        | _ => Success (Bundle video_id (length chunks) chunk_note chunks)
        end
  end.

Definition main (argv : list str) (w : world) : outcome * world :=
  match argv with
  | _ :: raw_input :: _ =>
      match Extractor.extract_video_id raw_input with
      | Raise (ValueError message) => (fail (Reported message), w)
      | Raise e => (Traceback e, w)
      | Ok video_id =>
          match load_transcript video_id w with
          | (Raise e, w') =>
              match runtime_error e with
              | Some message => (fail (Reported message), w')
              | None => (fail (Unexpected e), w')
              end
          | (Ok transcript_segments, w') => (emit video_id transcript_segments, w')
          end
      end
  | _ => (Failure NoArgument, w)
  end.

End Index.

(** ** Specification vocabulary for the cache and the fetcher *)

(** The finite floats, and the rational number that one stands for. *)
Definition finite (x : float) : Prop :=
  match x with
  | Finite _ _ => True
  | _ => False
  end.

Definition real (x : float) : Q :=
  match x with
  | Finite m e => if 0 <=? e then inject_Z (m * 2 ^ e) else m # Z.to_pos (2 ^ (- e))
  | _ => 0
  end.

(** The finite doubles: a mantissa of at most 53 binary digits and a last
    place between [2^-1074] and [2^971]. *)
Definition double (x : float) : Prop :=
  match x with
  | Finite m e => Z.abs m < 2 ^ 53 /\ -1074 <= e <= 971
  | _ => False
  end.

(** [m * 2^e <= n] and [n <= m * 2^e], in integers. *)
Definition dyadic_le (m e n : Z) : Prop :=
  if 0 <=? e then m * 2 ^ e <= n else m <= n * 2 ^ (- e).

Definition dyadic_ge (m e n : Z) : Prop :=
  if 0 <=? e then n <= m * 2 ^ e else n * 2 ^ (- e) <= m.

(** The value that the age of an entry is computed from: the field
    ["cached_at"], the [int] 0 when it is missing. *)
Definition cached_at_of (fields : gmap (list N) Index.value) : Index.value :=
  default (Index.VInt 0) (fields !! str_of "cached_at").

(** The expiry test [time.time() - cached_at > CACHE_TTL_SECONDS] of an
    entry at time [now]: its truth value, or the exception that the
    subtraction raises. *)
Definition expired (now : float) (fields : gmap (list N) Index.value) : result bool :=
  match Index.float_sub now (cached_at_of fields) with
  | Ok age => Ok (Index.gt age Index.CACHE_TTL_SECONDS)
  | Raise e => Raise e
  end.

(** The world once the entry of a video has been deleted. *)
Definition without_entry (video_id : str) (w : Index.world) : Index.world :=
  Index.set_files (delete (Index.cache_file_of video_id) (Index.files w)) w.


(** The language list of the first attempt. *)
Definition en : list str := [str_of "en"].

(** A small world for the examples: the provider serves one English
    segment for every video. *)
Definition example_id : str := str_of "dQw4w9WgXcQ".

Definition example_segments : list Index.segment :=
  [Formatter.mkSegment (str_of "hi") (65 # 1) (2 # 1)].

Definition example_provider : Index.provider :=
  Index.mkProvider (fun _ _ => Ok example_segments) (fun _ => Ok []).

Definition example_world (fs : gmap (list N) Index.file) (d : Index.dir_state)
    (wr : Index.write_outcome) : Index.world :=
  Index.mkWorld fs d wr Index.RemoveOk (Finite 2000000000 0) example_provider [].

Definition example_argv : list str := [str_of "index.py"; example_id].



(** An entry with segments but no ["cached_at"], and a world holding it. *)
Definition entry_without_cached_at : gmap (list N) Index.value :=
  {[ str_of "segments" := Index.VSegments example_segments ]}.

Definition world_without_cached_at : Index.world :=
  example_world
    {[ Index.cache_file_of example_id := Index.Object entry_without_cached_at ]}
    Index.DirPresent Index.WriteOk.



(** The example world where the cache directory cannot be created. *)
Definition blocked_world : Index.world :=
  example_world ∅ Index.DirBlocked Index.WriteOk.

(** A world whose provider is blocking requests, and one where English is
    missing but French and German are listed. *)
Definition blocking_world : Index.world :=
  Index.mkWorld ∅ Index.DirPresent Index.WriteOk Index.RemoveOk (Finite 2000000000 0)
    (Index.mkProvider (fun _ _ => Raise RequestBlocked) (fun _ => Ok [])) [].

Definition french : Index.transcript :=
  Index.mkTranscript (str_of "fr") (Ok example_segments).

Definition german : Index.transcript :=
  Index.mkTranscript (str_of "de") (Raise VideoUnavailable).

Definition french_world : Index.world :=
  Index.mkWorld ∅ Index.DirPresent Index.WriteOk Index.RemoveOk (Finite 2000000000 0)
    (Index.mkProvider (fun _ _ => Raise NoTranscriptFound)
       (fun _ => Ok [french; german])) [].

(** A watch URL of a YouTube mix: the [v] parameter, then [list],
    [start_radio] and [rv]. *)
Definition mix_url : str :=
  str_of "https://www.youtube.com/watch?v=" ++ example_id
  ++ str_of "&list=RDoHg5SJYRHA0&start_radio=1&rv=oHg5SJYRHA0".




(** ** Further specification vocabulary *)

(** The chunker is greedy: a group was closed only because the first line of
    the next group no longer fitted. *)
Fixpoint greedy (max_chars : Z) (groups : list (list str)) : Prop :=
  match groups with
  | g :: rest =>
      match rest with
      | (l :: _) :: _ => max_chars < lines_length g + (len l + 1)
      | _ => True
      end /\ greedy max_chars rest
  | [] => True
  end.

(** Loop invariant of [chunk_transcript] for greediness: the closed groups
    followed by the open one. *)
Definition open_groups (groups : list (list str)) (cur : list str)
    : list (list str) :=
  if is_nil cur then groups else groups ++ [cur].

Definition greedy_inv (max_chars : Z) (seen : list str) (st : Chunker.state) : Prop :=
  exists groups,
    Chunker.chunks st = List.map (str_join nl) groups /\
    Forall (fun g => g <> []) groups /\
    concat groups ++ Chunker.current_chunk st = seen /\
    Chunker.current_length st = lines_length (Chunker.current_chunk st) /\
    (Chunker.current_chunk st = [] -> groups = []) /\
    greedy max_chars (open_groups groups (Chunker.current_chunk st)).

(** Reading a timestamp back: the value of a digit, of two digits, and of
    [MM:SS] or [HH:MM:SS] in seconds. *)
Definition digit_value (c : char) : Z := Z.of_N c - 48.

Definition timestamp_seconds (ts : str) : option Z :=
  match ts with
  | [m1; m2; c; s1; s2] =>
      if N.eqb c 58
      then Some (60 * (10 * digit_value m1 + digit_value m2)
                 + (10 * digit_value s1 + digit_value s2))
      else None
  | [h1; h2; c; m1; m2; c'; s1; s2] =>
      if N.eqb c 58 && N.eqb c' 58
      then Some (3600 * (10 * digit_value h1 + digit_value h2)
                 + 60 * (10 * digit_value m1 + digit_value m2)
                 + (10 * digit_value s1 + digit_value s2))
      else None
  | _ => None
  end.

(** The same world at another time. *)
Definition set_clock (t : float) (w : Index.world) : Index.world :=
  Index.mkWorld (Index.files w) (Index.cache_dir w) (Index.writes w) (Index.removes w) t
    (Index.youtube w) (Index.calls w).

(** The text carried by what is printed: the chunk itself, or the chunks
    of the bundle joined by newlines. *)
Definition output_text (out : Index.output) : str :=
  match out with
  | Index.Plain chunk => chunk
  | Index.Bundle _ _ _ chunks => str_join nl chunks
  end.

(** The entry that [save_to_cache] writes at time [now]. *)
Definition entry_of (video_id : str) (now : float) (segments : list Index.segment)
    : gmap (list N) Index.value :=
  <[str_of "video_id" := Index.VStr video_id]>
    (<[str_of "cached_at" := Index.VFloat now]>
       (<[str_of "segments" := Index.VSegments segments]> ∅)).

(** The exceptions that the first attempt of [fetch_transcript] names. *)
Definition named_by_fetch (e : exn) : bool :=
  match e with
  | NoTranscriptFound | TranscriptsDisabled | VideoUnavailable
  | InvalidVideoId | RequestBlocked | IpBlocked => true
  | _ => false
  end.

(** Two worlds that differ in the files of the cache at most. *)
Definition same_but_files (w w' : Index.world) : Prop :=
  Index.cache_dir w' = Index.cache_dir w /\
  Index.writes w' = Index.writes w /\
  Index.removes w' = Index.removes w /\
  Index.clock w' = Index.clock w /\
  Index.youtube w' = Index.youtube w /\
  Index.calls w' = Index.calls w.

(** The world once [os.makedirs] has succeeded. *)
Definition after_makedirs (w : Index.world) : Index.world :=
  match Index.cache_dir w with
  | Index.DirAbsent => Index.set_cache_dir Index.DirPresent w
  | _ => w
  end.

(** What the handlers of the first attempt of [fetch_transcript] make of an
    exception other than [NoTranscriptFound]. *)
Definition first_attempt_error (video_id : str) (e : exn) : exn :=
  match e with
  | TranscriptsDisabled => RuntimeError (Index.disabled_message video_id)
  | VideoUnavailable => RuntimeError (Index.unavailable_message video_id)
  | InvalidVideoId => RuntimeError (Index.invalid_id_message video_id)
  | RequestBlocked | IpBlocked => RuntimeError Index.blocked_message
  | _ => e
  end.

(** The report that [main] prints for an exception of its first [try]. *)
Definition report_of (e : exn) : Index.report :=
  match Index.runtime_error e with
  | Some message => Index.Reported message
  | None => Index.Unexpected e
  end.

(** The messages of [fetch_transcript]'s own errors for a video. *)
Definition fetch_messages (video_id : str) : list str :=
  [Index.disabled_message video_id; Index.unavailable_message video_id;
   Index.invalid_id_message video_id; Index.blocked_message;
   Index.no_captions_message video_id].
(** * Properties *)

(** ** Splitting and joining *)

Lemma str_split_nonempty sep s : str_split sep s <> [].
Proof.
  destruct s as [|c s]; simpl; [discriminate|].
  destruct (N.eqb c sep); [discriminate|].
  destruct (str_split sep s); discriminate.
Qed.

Lemma str_join_cons sep p ps :
  ps <> [] -> str_join sep (p :: ps) = p ++ sep :: str_join sep ps.
Proof. destruct ps; [congruence | reflexivity]. Qed.

Lemma str_join_split sep s : str_join sep (str_split sep s) = s.
Proof.
  induction s as [|c s IH]; simpl; [reflexivity|].
  destruct (N.eqb_spec c sep) as [->|Hne].
  - rewrite str_join_cons by apply str_split_nonempty.
    simpl. now rewrite IH.
  - destruct (str_split sep s) as [|l ls] eqn:E.
    + now apply str_split_nonempty in E.
    + destruct ls as [|l' ls]; simpl in *; now rewrite <- IH.
Qed.

Lemma str_split_no_sep sep s : Forall (fun l => ~ In sep l) (str_split sep s).
Proof.
  induction s as [|c s IH]; simpl.
  - constructor; [intros []|constructor].
  - destruct (N.eqb_spec c sep) as [->|Hne].
    + constructor; [intros []|exact IH].
    + destruct (str_split sep s) as [|l ls] eqn:E; [now apply str_split_nonempty in E|].
      inversion IH; subst. constructor; [|assumption].
      intros [H|H]; [congruence|contradiction].
Qed.

Lemma str_split_app_sep sep l s :
  ~ In sep l -> str_split sep (l ++ sep :: s) = l :: str_split sep s.
Proof.
  induction l as [|c l IH]; simpl; intros Hn.
  - now rewrite N.eqb_refl.
  - destruct (N.eqb_spec c sep) as [->|Hne]; [tauto|].
    rewrite IH by tauto. reflexivity.
Qed.

Lemma str_split_single sep l : ~ In sep l -> str_split sep l = [l].
Proof.
  induction l as [|c l IH]; simpl; intros Hn; [reflexivity|].
  destruct (N.eqb_spec c sep) as [->|Hne]; [tauto|].
  rewrite IH by tauto. reflexivity.
Qed.

Lemma str_split_join sep (g : list str) :
  g <> [] -> Forall (fun l => ~ In sep l) g ->
  str_split sep (str_join sep g) = g.
Proof.
  induction g as [|l g IH]; [congruence|]. intros _ Hall.
  inversion Hall; subst.
  destruct g as [|l' g].
  - simpl. now apply str_split_single.
  - rewrite str_join_cons by discriminate.
    rewrite str_split_app_sep by assumption.
    f_equal. apply IH; [discriminate|assumption].
Qed.

Lemma str_join_app sep (g1 g2 : list str) :
  g1 <> [] -> g2 <> [] ->
  str_join sep (g1 ++ g2) = str_join sep g1 ++ sep :: str_join sep g2.
Proof.
  induction g1 as [|l g1 IH]; [congruence|]. intros _ H2.
  destruct g1 as [|l' g1].
  - simpl app at 1. rewrite str_join_cons by assumption. reflexivity.
  - change ((l :: l' :: g1) ++ g2) with (l :: ((l' :: g1) ++ g2)).
    rewrite str_join_cons by discriminate.
    rewrite IH by (discriminate || assumption).
    rewrite (str_join_cons sep l (l' :: g1)) by discriminate.
    now rewrite <- app_assoc.
Qed.

(** Joining the joined groups is joining their concatenation, as long as no
    group is empty. *)
Lemma str_join_concat sep (groups : list (list str)) :
  Forall (fun g => g <> []) groups ->
  str_join sep (List.map (str_join sep) groups) = str_join sep (concat groups).
Proof.
  induction groups as [|g gs IH]; intros Hall; [reflexivity|].
  inversion Hall; subst.
  destruct gs as [|g' gs].
  - simpl. now rewrite app_nil_r.
  - change (List.map (str_join sep) (g :: g' :: gs))
      with (str_join sep g :: List.map (str_join sep) (g' :: gs)).
    rewrite str_join_cons by discriminate.
    rewrite IH by assumption.
    change (concat (g :: g' :: gs)) with (g ++ concat (g' :: gs)).
    rewrite str_join_app; [reflexivity|assumption|].
    inversion H2; subst. simpl. destruct g'; [congruence|discriminate].
Qed.

(** ** The chunker *)

Lemma lines_length_app g1 g2 :
  lines_length (g1 ++ g2) = lines_length g1 + lines_length g2.
Proof. induction g1 as [|l g1 IH]; simpl; lia. Qed.

Lemma len_app (a b : str) : len (a ++ b) = len a + len b.
Proof. unfold len. rewrite length_app. lia. Qed.

Lemma len_str_join g : g <> [] -> len (str_join nl g) = lines_length g - 1.
Proof.
  induction g as [|l g IH]; [congruence|]. intros _.
  destruct g as [|l' g].
  - simpl. lia.
  - rewrite str_join_cons by discriminate.
    rewrite len_app. change (len (nl :: str_join nl (l' :: g)))
      with (Z.of_nat (S (length (str_join nl (l' :: g))))).
    rewrite Nat2Z.inj_succ. fold (len (str_join nl (l' :: g))).
    rewrite IH by discriminate. simpl. lia.
Qed.

Lemma chunk_inv_step max_chars seen st line :
  chunk_inv max_chars seen st ->
  chunk_inv max_chars (seen ++ [line]) (Chunker.step max_chars st line).
Proof.
  destruct st as [cs cur cl].
  intros (groups & Hc & Hok & Hseen & Hlen & Hfit). simpl in *.
  unfold Chunker.step, chunk_inv. simpl.
  destruct (Z.ltb_spec max_chars (cl + (len line + 1))) as [Hover|Hfits];
    destruct cur as [|l0 cur]; simpl.
  - exists groups. repeat split; try assumption.
    + rewrite <- Hseen. now rewrite app_nil_r.
    + simpl in Hlen. lia.
    + lia.
  - exists (groups ++ [l0 :: cur]). repeat split.
    + rewrite Hc, List.map_app. reflexivity.
    + apply Forall_app. split; [assumption|].
      constructor; [|constructor]. split; [discriminate|].
      intros H2. rewrite len_str_join by discriminate.
      specialize (Hfit H2). lia.
    + rewrite concat_app. simpl. rewrite app_nil_r.
      rewrite <- Hseen. now rewrite <- app_assoc.
    + lia.
    + lia.
  - exists groups. repeat split; try assumption.
    + rewrite <- Hseen. now rewrite app_nil_r.
    + simpl in Hlen. lia.
    + lia.
  - exists groups. repeat split; try assumption.
    + rewrite <- Hseen. now rewrite <- app_assoc.
    + rewrite Hlen. change (l0 :: cur ++ [line]) with ((l0 :: cur) ++ [line]).
      rewrite lines_length_app. simpl. lia.
    + intros _. lia.
Qed.

Lemma chunk_inv_fold max_chars lines : forall seen st,
  chunk_inv max_chars seen st ->
  chunk_inv max_chars (seen ++ lines) (fold_left (Chunker.step max_chars) lines st).
Proof.
  induction lines as [|line lines IH]; intros seen st Hinv; simpl.
  - now rewrite app_nil_r.
  - replace (seen ++ line :: lines) with ((seen ++ [line]) ++ lines)
      by now rewrite <- app_assoc.
    apply IH. now apply chunk_inv_step.
Qed.

(** The chunks are the joins of consecutive, non-empty, well-sized groups of
    the lines of the text. *)
Lemma chunk_transcript_groups text max_chars :
  text <> [] ->
  exists groups,
    Chunker.chunk_transcript text max_chars = List.map (str_join nl) groups /\
    Forall (group_ok max_chars) groups /\
    concat groups = str_split nl text.
Proof.
  intros Hne. unfold Chunker.chunk_transcript.
  replace (is_nil text) with false by (destruct text; [congruence|reflexivity]).
  destruct (Z.leb_spec (len text) max_chars) as [Hfit|Hbig].
  - exists [str_split nl text]. repeat split.
    + simpl. now rewrite str_join_split.
    + constructor; [|constructor]. split; [apply str_split_nonempty|].
      intros _. now rewrite str_join_split.
    + simpl. now rewrite app_nil_r.
  - pose proof (chunk_inv_fold max_chars (str_split nl text) []
                  (Chunker.mkState [] [] 0)) as Hinv.
    destruct Hinv as (groups & Hc & Hok & Hseen & Hlen & Hfit).
    { exists []. simpl. repeat split; try constructor. lia. }
    simpl in Hseen. cbv zeta.
    destruct (Chunker.current_chunk _) as [|l0 cur] eqn:Ecur; simpl.
    + exists groups. rewrite app_nil_r in Hseen. now repeat split.
    + exists (groups ++ [l0 :: cur]). repeat split.
      * rewrite Hc, List.map_app. reflexivity.
      * apply Forall_app. split; [assumption|].
        constructor; [|constructor]. split; [discriminate|].
        intros H2. rewrite len_str_join by discriminate.
        specialize (Hfit H2). lia.
      * rewrite concat_app. simpl. now rewrite app_nil_r.
Qed.

Lemma map_split_join (groups : list (list str)) :
  Forall (fun g => g <> []) groups ->
  Forall (fun l => ~ In nl l) (concat groups) ->
  List.map (str_split nl) (List.map (str_join nl) groups) = groups.
Proof.
  induction groups as [|g gs IH]; intros Hne Hnl; [reflexivity|].
  inversion Hne; subst. simpl in Hnl. apply Forall_app in Hnl as [Hg Hgs].
  simpl. rewrite str_split_join by assumption. f_equal. now apply IH.
Qed.

Lemma group_ok_nonempty max_chars groups :
  Forall (group_ok max_chars) groups -> Forall (fun g => g <> []) groups.
Proof. apply List.Forall_impl. now intros g [H _]. Qed.

(** C1: for a non-empty text (and any [max_chars], in particular
    [max_chars >= 1]) the chunks of [chunk_transcript] are the joins of
    consecutive non-empty slices [groups] of [text.split("\n")]: the slices
    concatenate to the line sequence, the lines of each chunk are its slice,
    and joining the chunks with a newline gives back the text. *)
Theorem chunk_transcript_slices (text : str) (max_chars : Z) :
  text <> [] ->
  exists groups : list (list str),
    concat groups = str_split nl text /\
    Forall (fun g => g <> []) groups /\
    Chunker.chunk_transcript text max_chars = List.map (str_join nl) groups /\
    List.map (str_split nl) (Chunker.chunk_transcript text max_chars) = groups /\
    concat (List.map (str_split nl) (Chunker.chunk_transcript text max_chars))
      = str_split nl text /\
    str_join nl (Chunker.chunk_transcript text max_chars) = text.
Proof.
  intros Hne.
  destruct (chunk_transcript_groups text max_chars Hne) as (groups & Hc & Hok & Hcat).
  pose proof (group_ok_nonempty _ _ Hok) as Hnonempty.
  assert (Hsplit : List.map (str_split nl) (Chunker.chunk_transcript text max_chars)
                   = groups).
  { rewrite Hc. apply map_split_join; [assumption|].
    rewrite Hcat. apply str_split_no_sep. }
  exists groups. repeat split; try assumption.
  - now rewrite Hsplit.
  - rewrite Hc, str_join_concat, Hcat by assumption. apply str_join_split.
Qed.

(** The spec's example: [chunk("a\nbb\nccc\ndddddddddd", 10)]. *)
Example chunk_transcript_example :
  Chunker.chunk_transcript (str_of "a" ++ nl :: str_of "bb" ++ nl :: str_of "ccc"
                              ++ nl :: str_of "dddddddddd") 10
  = [str_of "a" ++ nl :: str_of "bb" ++ nl :: str_of "ccc"; str_of "dddddddddd"].
Proof. reflexivity. Qed.

Lemma chunk_transcript_slices_witness :
  exists groups : list (list str),
    concat groups = str_split nl (str_of "ab") /\
    Forall (fun g => g <> []) groups /\
    Chunker.chunk_transcript (str_of "ab") 1 = List.map (str_join nl) groups /\
    List.map (str_split nl) (Chunker.chunk_transcript (str_of "ab") 1) = groups /\
    concat (List.map (str_split nl) (Chunker.chunk_transcript (str_of "ab") 1))
      = str_split nl (str_of "ab") /\
    str_join nl (Chunker.chunk_transcript (str_of "ab") 1) = str_of "ab".
Proof. apply (chunk_transcript_slices (str_of "ab") 1). discriminate. Defined.

Lemma len_line_le_join (g : list str) (l : str) :
  In l g -> len l <= len (str_join nl g).
Proof.
  intros Hin. rewrite len_str_join by (intros ->; contradiction).
  induction g as [|l' g IH]; [contradiction|].
  assert (Hpos : 0 <= lines_length g).
  { clear. induction g as [|x g IH]; simpl; unfold len in *; lia. }
  destruct Hin as [->|Hin]; simpl.
  - lia.
  - specialize (IH Hin). unfold len in *. lia.
Qed.

Lemma in_str_join_nl (g : list str) :
  Forall (fun l => ~ In nl l) g -> In nl (str_join nl g) -> (2 <= length g)%nat.
Proof.
  intros Hall Hin. destruct g as [|l [|l' g]]; simpl in *.
  - contradiction.
  - inversion Hall; subst. contradiction.
  - lia.
Qed.

(** C6: with [max_chars >= 1], a chunk longer than [max_chars] holds no
    newline (it is one whole line), a chunk of two or more lines is at most
    [max_chars] long, and every line of the text longer than [max_chars]
    is, unsplit, a chunk of its own. *)
Theorem chunk_transcript_oversize (text : str) (max_chars : Z) :
  1 <= max_chars ->
  Forall (fun c =>
            (max_chars < len c -> ~ In nl c /\ str_split nl c = [c]) /\
            ((2 <= length (str_split nl c))%nat -> len c <= max_chars))
         (Chunker.chunk_transcript text max_chars) /\
  (forall line, In line (str_split nl text) -> max_chars < len line ->
                In line (Chunker.chunk_transcript text max_chars)).
Proof.
  intros Hmax. destruct text as [|c0 text0].
  { split; [constructor|]. simpl. intros line [<-|[]]. unfold len. simpl. lia. }
  set (text := c0 :: text0).
  destruct (chunk_transcript_groups text max_chars) as (groups & Hc & Hok & Hcat);
    [discriminate|].
  assert (Hnl : Forall (fun l => ~ In nl l) (concat groups)).
  { rewrite Hcat. apply str_split_no_sep. }
  rewrite Hc. split.
  - clear Hc Hcat. induction groups as [|g gs IH]; [constructor|].
    inversion Hok as [|? ? [Hg Hfit] Hoks]; subst.
    simpl in Hnl. apply Forall_app in Hnl as [Hnlg Hnlgs].
    simpl. constructor; [|now apply IH].
    rewrite str_split_join by assumption. split.
    + intros Hbig.
      assert (Hno : ~ In nl (str_join nl g)).
      { intros Hin. apply in_str_join_nl in Hin; [|assumption].
        specialize (Hfit Hin). lia. }
      split; [assumption|].
      destruct g as [|l [|l' g]]; simpl in *; try congruence.
      exfalso. apply Hno. apply in_or_app. right. now left.
    + exact Hfit.
  - intros line Hin Hbig. rewrite <- Hcat in Hin.
    apply in_concat in Hin as (g & Hg & Hline).
    apply List.in_map_iff. exists g. split; [|assumption].
    rewrite List.Forall_forall in Hok. destruct (Hok g Hg) as [Hne Hfit].
    pose proof (len_line_le_join g line Hline) as Hle.
    destruct g as [|l [|l' g]]; simpl in *.
    + contradiction.
    + destruct Hline as [->|[]]. reflexivity.
    + assert (H2 : (2 <= S (S (length g)))%nat) by lia.
      specialize (Hfit H2). lia.
Qed.

Lemma chunk_transcript_oversize_witness :
  Forall (fun c =>
            (2 < len c -> ~ In nl c /\ str_split nl c = [c]) /\
            ((2 <= length (str_split nl c))%nat -> len c <= 2))
         (Chunker.chunk_transcript (str_of "abc" ++ nl :: str_of "d") 2) /\
  (forall line, In line (str_split nl (str_of "abc" ++ nl :: str_of "d")) ->
                2 < len line ->
                In line (Chunker.chunk_transcript (str_of "abc" ++ nl :: str_of "d") 2)).
Proof. apply (chunk_transcript_oversize (str_of "abc" ++ nl :: str_of "d") 2). lia. Defined.

(** ** The formatter *)

Example seconds_to_timestamp_65 :
  Formatter.seconds_to_timestamp (65 # 1) = str_of "01:05".
Proof. reflexivity. Qed.

Example seconds_to_timestamp_100h :
  Formatter.seconds_to_timestamp (360000 # 1) = str_of "100:00:00".
Proof. reflexivity. Qed.

Lemma fold_add_segment segs : forall lines,
  fold_left Formatter.add_segment segs lines
  = lines ++ List.map render_line (List.filter rendered segs).
Proof.
  induction segs as [|seg segs IH]; intros lines; simpl.
  - now rewrite app_nil_r.
  - rewrite IH. unfold Formatter.add_segment, rendered at 2.
    destruct (is_nil (strip (Formatter.text seg))); simpl.
    + reflexivity.
    + now rewrite <- app_assoc.
Qed.

Lemma format_transcript_map segs :
  Formatter.format_transcript segs
  = str_join nl (List.map render_line (List.filter rendered segs)).
Proof.
  unfold Formatter.format_transcript. destruct segs as [|seg segs]; [reflexivity|].
  cbv [is_nil]. now rewrite fold_add_segment.
Qed.

(** A property checked on [0 .. n-1] by computation holds on that range. *)
Lemma Z_range_forallb (f : Z -> bool) (n : nat) :
  forallb f (List.map Z.of_nat (seq 0 n)) = true ->
  forall z, 0 <= z < Z.of_nat n -> f z = true.
Proof.
  intros Hall z Hz. rewrite forallb_forall in Hall. apply Hall.
  apply List.in_map_iff. exists (Z.to_nat z). split; [lia|].
  apply in_seq. lia.
Qed.

Lemma format_0d_two_digits n :
  0 <= n < 100 -> Formatter.format_0d 2 n = two_digits n.
Proof.
  intros Hn.
  pose proof (Z_range_forallb
                (fun z => bool_decide (Formatter.format_0d 2 z = two_digits z)) 100) as H.
  specialize (H ltac:(vm_compute; reflexivity) n Hn).
  now apply bool_decide_eq_true in H.
Qed.

Lemma lstrip_nil_iff s : lstrip s = [] <-> forallb is_space s = true.
Proof.
  induction s as [|c s IH]; simpl; [tauto|].
  destruct (is_space c); simpl; [exact IH|]. split; discriminate.
Qed.

Lemma strip_nil_iff s : strip s = [] <-> forallb is_space s = true.
Proof.
  unfold strip, rstrip. split.
  - intros H. apply (f_equal (@rev char)) in H. rewrite rev_involutive in H.
    simpl in H. apply lstrip_nil_iff in H.
    rewrite forallb_forall in H.
    destruct (lstrip s) as [|c s'] eqn:E; [now apply lstrip_nil_iff|].
    exfalso. assert (Hc : is_space c = true).
    { apply H. apply in_rev. rewrite rev_involutive. now left. }
    clear H. induction s as [|d s IH]; simpl in E; [discriminate|].
    destruct (is_space d) eqn:Ed; [auto|]. congruence.
  - intros H. apply lstrip_nil_iff in H. now rewrite H.
Qed.

Lemma py_int_trunc (x : Q) :
  (0 <= x)%Q ->
  (inject_Z (Formatter.py_int x) <= x)%Q /\
  (x < inject_Z (Formatter.py_int x) + 1)%Q.
Proof.
  destruct x as [n d]. unfold Qle, Qlt, Formatter.py_int. simpl.
  intros Hn. rewrite Z.mul_1_r in Hn.
  rewrite Z.quot_div_nonneg by lia.
  pose proof (Z.mul_div_le n (Z.pos d) ltac:(lia)).
  pose proof (Z.mul_succ_div_gt n (Z.pos d) ltac:(lia)).
  split; nia.
Qed.

Lemma timestamp_fields (total : Z) :
  0 <= total mod 3600 / 60 < 100 /\ 0 <= total mod 60 < 100.
Proof.
  pose proof (Z.mod_pos_bound total 3600 ltac:(lia)).
  pose proof (Z.mod_pos_bound total 60 ltac:(lia)).
  split; [|lia]. split; [apply Z.div_pos; lia|].
  apply Z.div_lt_upper_bound; lia.
Qed.

Lemma seconds_to_timestamp_minutes (seconds : Q) :
  Formatter.py_int seconds < 3600 ->
  Formatter.seconds_to_timestamp seconds
  = two_digits (Formatter.py_int seconds mod 3600 / 60) ++ str_of ":"
      ++ two_digits (Formatter.py_int seconds mod 60).
Proof.
  intros Hlt. unfold Formatter.seconds_to_timestamp.
  destruct (timestamp_fields (Formatter.py_int seconds)) as [Hm Hs].
  assert (Hh : Formatter.py_int seconds / 3600 <= 0).
  { assert (Formatter.py_int seconds / 3600 < 1); [|lia].
    apply Z.div_lt_upper_bound; lia. }
  destruct (Z.ltb_spec 0 (Formatter.py_int seconds / 3600)); [lia|].
  now rewrite !format_0d_two_digits by assumption.
Qed.

Lemma seconds_to_timestamp_hours (seconds : Q) :
  3600 <= Formatter.py_int seconds ->
  Formatter.seconds_to_timestamp seconds
  = Formatter.format_0d 2 (Formatter.py_int seconds / 3600) ++ str_of ":"
      ++ two_digits (Formatter.py_int seconds mod 3600 / 60) ++ str_of ":"
      ++ two_digits (Formatter.py_int seconds mod 60).
Proof.
  intros Hge. unfold Formatter.seconds_to_timestamp.
  destruct (timestamp_fields (Formatter.py_int seconds)) as [Hm Hs].
  assert (Hh : 1 <= Formatter.py_int seconds / 3600).
  { apply Z.div_le_lower_bound; lia. }
  destruct (Z.ltb_spec 0 (Formatter.py_int seconds / 3600)); [|lia].
  now rewrite !(format_0d_two_digits (_ mod _)), !(format_0d_two_digits (_ / 60))
    by assumption.
Qed.

(** C8: [format_transcript] yields the lines ["[timestamp] text"] of the
    segments whose trimmed text is not empty, in input order, joined by
    single newlines.  With [total = int(start)] (truncation), the timestamp
    is the two-digit minutes and seconds when [total < 3600], and hours,
    minutes and seconds otherwise (two digits each below one hundred
    hours).  A segment is dropped exactly when its text is whitespace only;
    an empty or all-blank input gives the empty string; and the two examples
    of the spec evaluate as stated. *)
Theorem format_transcript_lines (segs : list Formatter.segment) :
  Formatter.format_transcript segs
    = str_join nl (List.map render_line (List.filter rendered segs)) /\
  (forall seconds : Q,
     let total := Formatter.py_int seconds in
     (total < 3600 ->
      Formatter.seconds_to_timestamp seconds
      = two_digits (total mod 3600 / 60) ++ str_of ":" ++ two_digits (total mod 60)) /\
     (3600 <= total ->
      Formatter.seconds_to_timestamp seconds
      = Formatter.format_0d 2 (total / 3600) ++ str_of ":"
          ++ two_digits (total mod 3600 / 60) ++ str_of ":"
          ++ two_digits (total mod 60)) /\
     (3600 <= total < 360000 ->
      Formatter.format_0d 2 (total / 3600) = two_digits (total / 3600)) /\
     ((0 <= seconds)%Q ->
      (inject_Z total <= seconds)%Q /\ (seconds < inject_Z total + 1)%Q)) /\
  (forall seg, rendered seg = false
               <-> forallb is_space (Formatter.text seg) = true) /\
  (Forall (fun seg => forallb is_space (Formatter.text seg) = true) segs ->
   Formatter.format_transcript segs = []) /\
  Formatter.format_transcript [] = [] /\
  Formatter.format_transcript [Formatter.mkSegment (str_of "hi") (65 # 1) (2 # 1)]
    = str_of "[01:05] hi" /\
  Formatter.format_transcript [Formatter.mkSegment (str_of "hi") (3661 # 1) (1 # 1)]
    = str_of "[01:01:01] hi" /\
  Formatter.format_transcript [Formatter.mkSegment (str_of " hi ") (3599 # 1) (1 # 1);
                               Formatter.mkSegment (str_of "  ") (3600 # 1) (1 # 1);
                               Formatter.mkSegment (str_of "yo") (72019 # 10) (1 # 1)]
    = str_of "[59:59] hi" ++ nl :: str_of "[02:00:01] yo".
Proof.
  assert (Hdrop : forall seg, rendered seg = false
                              <-> forallb is_space (Formatter.text seg) = true).
  { intros seg. unfold rendered. rewrite <- strip_nil_iff.
    destruct (strip (Formatter.text seg)); simpl; split; congruence. }
  split; [apply format_transcript_map|].
  split.
  { intros seconds total. repeat split.
    - apply seconds_to_timestamp_minutes.
    - apply seconds_to_timestamp_hours.
    - intros [Hlo Hhi]. apply format_0d_two_digits. split.
      + apply Z.div_pos; lia.
      + apply Z.div_lt_upper_bound; lia.
    - now apply py_int_trunc.
    - now apply py_int_trunc. }
  split; [exact Hdrop|].
  split.
  { intros Hall. rewrite format_transcript_map.
    replace (List.filter rendered segs) with (@nil Formatter.segment); [reflexivity|].
    induction Hall as [|seg segs Hseg _ IH]; [reflexivity|].
    simpl. apply Hdrop in Hseg. now rewrite Hseg. }
  repeat split; reflexivity.
Qed.

Lemma format_transcript_lines_witness :
  Formatter.seconds_to_timestamp (599 # 10)
  = two_digits (Formatter.py_int (599 # 10) mod 3600 / 60) ++ str_of ":"
      ++ two_digits (Formatter.py_int (599 # 10) mod 60).
Proof.
  apply (proj1 (proj1 (proj2 (format_transcript_lines [])) (599 # 10))).
  vm_compute. reflexivity.
Defined.

(** ** The ID extractor *)

Example extract_watch :
  Extractor.extract_video_id (str_of "https://www.youtube.com/watch?v=dQw4w9WgXcQ&t=120")
  = Ok (str_of "dQw4w9WgXcQ").
Proof. vm_compute. reflexivity. Qed.

Example extract_short :
  Extractor.extract_video_id (str_of "  https://youtu.be/dQw4w9WgXcQ?t=5 ")
  = Ok (str_of "dQw4w9WgXcQ").
Proof. vm_compute. reflexivity. Qed.

Example extract_feature_first :
  Extractor.extract_video_id (str_of "youtube.com/watch?feature=share&v=dQw4w9WgXcQ")
  = Ok (str_of "dQw4w9WgXcQ").
Proof. vm_compute. reflexivity. Qed.

Example extract_rv :
  Extractor.extract_video_id
    (str_of "https://www.youtube.com/watch?v=dQw4w9WgXcQ&list=RDoHg5SJYRHA0&start_radio=1&rv=oHg5SJYRHA0")
  = Ok (str_of "oHg5SJYRHA0").
Proof. vm_compute. reflexivity. Qed.

Example extract_bad :
  exists m, Extractor.extract_video_id (str_of "https://example.com/") = Raise (ValueError m).
Proof. eexists. vm_compute. reflexivity. Qed.

Lemma extends_refl s : extends s s.
Proof. exists []. simpl. split; [reflexivity|lia]. Qed.

Lemma extends_trans s1 s2 s3 : extends s1 s2 -> extends s2 s3 -> extends s1 s3.
Proof.
  intros (c1 & H1 & P1) (c2 & H2 & P2). exists (c1 ++ c2).
  rewrite H1, H2, P2, P1, length_app, <- app_assoc. split; [reflexivity|lia].
Qed.

Lemma match_star_inv a k : forall inp p g m,
  Regex.match_star a k p g inp = Some m ->
  exists consumed t,
    inp = consumed ++ t /\
    forallb (Regex.atom_matches a) consumed = true /\
    k (Regex.mkM (p + length consumed) t g) = Some m.
Proof.
  induction inp as [|c inp IH]; intros p g m H; simpl in H.
  - exists [], []. simpl. rewrite Nat.add_0_r. auto.
  - destruct (Regex.atom_matches a c) eqn:Ec.
    + destruct (Regex.match_star a k (S p) g inp) as [m0|] eqn:E.
      * injection H as ->. apply IH in E as (consumed & t & -> & Hall & Hk).
        exists (c :: consumed), t. simpl. rewrite Ec, Hall.
        replace (p + S (length consumed))%nat with (S p + length consumed)%nat by lia.
        auto.
      * exists [], (c :: inp). simpl. rewrite Nat.add_0_r. auto.
    + exists [], (c :: inp). simpl. rewrite Nat.add_0_r. auto.
Qed.

Lemma match_repeat_inv a k : forall n s m,
  Regex.match_repeat a k n s = Some m ->
  exists consumed t,
    Regex.rest s = consumed ++ t /\
    length consumed = n /\
    forallb (Regex.atom_matches a) consumed = true /\
    k (Regex.mkM (Regex.pos s + n) t (Regex.group1 s)) = Some m.
Proof.
  induction n as [|n IH]; intros s m H; simpl in H.
  - exists [], (Regex.rest s). simpl. rewrite Nat.add_0_r. destruct s. auto.
  - destruct (Regex.rest s) as [|c t] eqn:Er; [discriminate|].
    destruct (Regex.atom_matches a c) eqn:Ec; [|discriminate].
    apply IH in H as (consumed & t' & Ht & Hlen & Hall & Hk). simpl in *.
    exists (c :: consumed), t'. simpl. rewrite Ht, Hlen, Ec, Hall.
    replace (Regex.pos s + S n)%nat with (S (Regex.pos s + n)) by lia.
    auto.
Qed.

(** Whatever the pattern, a successful match hands the continuation a state
    further along the same text. *)
Lemma rmatch_inv r : forall s k m,
  Regex.rmatch r s k = Some m ->
  exists s', extends s s' /\ k s' = Some m.
Proof.
  induction r as [|a|r1 IH1 r2 IH2|r1 IH1|a|n a|r1 IH1| |]; intros s k m H; simpl in H.
  - exists s. split; [apply extends_refl|assumption].
  - destruct (Regex.rest s) as [|c t] eqn:Er; [discriminate|].
    destruct (Regex.atom_matches a c); [|discriminate].
    exists (Regex.advance s t). split; [|assumption].
    exists [c]. simpl. rewrite Er. split; [reflexivity|lia].
  - apply IH1 in H as (s1 & E1 & H). apply IH2 in H as (s2 & E2 & H).
    exists s2. split; [eapply extends_trans; eassumption|assumption].
  - destruct (Regex.rmatch r1 s k) as [m0|] eqn:E.
    + injection H as ->. now apply IH1.
    + exists s. split; [apply extends_refl|assumption].
  - apply match_star_inv in H as (consumed & t & Hr & _ & Hk).
    eexists. split; [|exact Hk]. exists consumed. simpl. auto.
  - apply match_repeat_inv in H as (consumed & t & Hr & Hlen & _ & Hk).
    eexists. split; [|exact Hk]. exists consumed. simpl. rewrite Hlen. auto.
  - apply IH1 in H as (s1 & (consumed & Hr & Hp) & H).
    eexists. split; [|exact H]. exists consumed. simpl. auto.
  - destruct (Nat.eqb (Regex.pos s) 0); [|discriminate].
    exists s. split; [apply extends_refl|assumption].
  - exists s. split; [apply extends_refl|].
    destruct (Regex.rest s) as [|c [|c' t]]; try discriminate; [assumption|].
    destruct (N.eqb c nl); [assumption|discriminate].
Qed.

Lemma rmatch_lit_inv (l : str) : forall s k m,
  Regex.rmatch (Regex.lit_chars l) s k = Some m ->
  exists t,
    Regex.rest s = l ++ t /\
    k (Regex.mkM (Regex.pos s + length l) t (Regex.group1 s)) = Some m.
Proof.
  induction l as [|c l IH]; intros s k m H; simpl in H.
  - exists (Regex.rest s). simpl. rewrite Nat.add_0_r. destruct s. auto.
  - destruct (Regex.rest s) as [|c' t] eqn:Er; [discriminate|].
    simpl in H. destruct (N.eqb_spec c' c) as [->|]; [|discriminate].
    apply IH in H as (t' & Ht & Hk). simpl in *.
    exists t'. rewrite Ht. split; [reflexivity|].
    now replace (Regex.pos s + S (length l))%nat
      with (S (Regex.pos s) + length l)%nat by lia.
Qed.

Lemma rmatch_lit_app (l : str) : forall p t g k,
  Regex.rmatch (Regex.lit_chars l) (Regex.mkM p (l ++ t) g) k
  = k (Regex.mkM (p + length l) t g).
Proof.
  induction l as [|c l IH]; intros p t g k; simpl.
  - now rewrite Nat.add_0_r.
  - rewrite N.eqb_refl. unfold Regex.advance. simpl.
    fold (Regex.lit_chars l). rewrite IH. f_equal. f_equal. lia.
Qed.

Lemma match_repeat_app a k (consumed : str) : forall p t g,
  forallb (Regex.atom_matches a) consumed = true ->
  Regex.match_repeat a k (length consumed) (Regex.mkM p (consumed ++ t) g)
  = k (Regex.mkM (p + length consumed) t g).
Proof.
  induction consumed as [|c l IH]; intros p t g Hall; simpl.
  - now rewrite Nat.add_0_r.
  - simpl in Hall. apply andb_true_iff in Hall as [Hc Hall].
    rewrite Hc. unfold Regex.advance. simpl. rewrite IH by assumption.
    f_equal. f_equal. lia.
Qed.

Lemma id_group_inv s k m :
  Regex.rmatch Extractor.ID_GROUP s k = Some m ->
  exists v t,
    Regex.rest s = v ++ t /\ is_video_id v = true /\
    k (Regex.mkM (Regex.pos s + 11) t (Some v)) = Some m.
Proof.
  unfold Extractor.ID_GROUP. cbn [Regex.rmatch]. intros H.
  apply match_repeat_inv in H as (v & t & Hr & Hlen & Hall & Hk).
  simpl in Hk. exists v, t. split; [assumption|].
  unfold is_video_id. rewrite Hlen. split; [exact Hall|].
  replace (Regex.pos s + 11 - Regex.pos s)%nat with (length v) in Hk by lia.
  now rewrite Hr, take_app_length in Hk.
Qed.

Lemma id_group_app v t p g k :
  is_video_id v = true ->
  Regex.rmatch Extractor.ID_GROUP (Regex.mkM p (v ++ t) g) k
  = k (Regex.mkM (p + 11) t (Some v)).
Proof.
  unfold is_video_id. intros H. apply andb_true_iff in H as [Hlen Hall].
  apply Nat.eqb_eq in Hlen. unfold Extractor.ID_GROUP. cbn [Regex.rmatch].
  rewrite <- Hlen at 1. rewrite match_repeat_app by exact Hall.
  cbn [Regex.pos Regex.rest].
  rewrite Hlen. replace (p + 11 - p)%nat with (length v) by lia.
  now rewrite take_app_length.
Qed.

(** A pattern that ends with the ID group captures a well-formed ID. *)
Lemma seqs_id_group_inv (rs : list Regex.regex) : forall s m,
  Regex.rmatch (Regex.seqs (rs ++ [Extractor.ID_GROUP])) s Some = Some m ->
  exists v, is_video_id v = true /\ Regex.group1 m = Some v.
Proof.
  induction rs as [|r rs IH]; intros s m H;
    cbn [app Regex.seqs fold_right Regex.rmatch] in H.
  - apply id_group_inv in H as (v & t & _ & Hv & Hk). injection Hk as <-.
    now exists v.
  - apply rmatch_inv in H as (s' & _ & H). now apply IH in H.
Qed.

Lemma search_from_inv r : forall inp p m,
  Regex.search_from r p inp = Some m ->
  exists skipped inp',
    inp = skipped ++ inp' /\
    Regex.rmatch r (Regex.mkM (p + length skipped) inp' None) Some = Some m.
Proof.
  induction inp as [|c inp IH]; intros p m H; simpl in H.
  - destruct (Regex.rmatch r (Regex.mkM p [] None) Some) as [m0|] eqn:E; [|discriminate].
    injection H as ->. exists [], []. simpl. now rewrite Nat.add_0_r.
  - destruct (Regex.rmatch r (Regex.mkM p (c :: inp) None) Some) as [m0|] eqn:E.
    + injection H as ->. exists [], (c :: inp). simpl. now rewrite Nat.add_0_r.
    + apply IH in H as (skipped & inp' & -> & H).
      exists (c :: skipped), inp'. simpl.
      now replace (p + S (length skipped))%nat with (S p + length skipped)%nat by lia.
Qed.

Lemma youtube_patterns_end_with_id_group :
  Forall (fun pattern => exists rs, pattern = Regex.seqs (rs ++ [Extractor.ID_GROUP]))
         Extractor.YOUTUBE_PATTERNS.
Proof.
  unfold Extractor.YOUTUBE_PATTERNS.
  repeat constructor;
    match goal with
    | |- exists rs, Regex.seqs ?l = _ => exists (removelast l); reflexivity
    end.
Qed.

Lemma try_patterns_id patterns text r :
  Forall (fun pattern => exists rs, pattern = Regex.seqs (rs ++ [Extractor.ID_GROUP]))
         patterns ->
  Extractor.try_patterns patterns text = Ok r ->
  is_video_id r = true.
Proof.
  induction 1 as [|pattern patterns [rs ->] _ IH]; simpl; [discriminate|].
  destruct (Regex.re_search _ text) as [m|] eqn:E; [|exact IH].
  intros [= <-]. apply search_from_inv in E as (skipped & inp' & _ & E).
  apply seqs_id_group_inv in E as (v & Hv & Hg).
  unfold Extractor.group. now rewrite Hg.
Qed.

Lemma lstrip_head s c t : lstrip s = c :: t -> is_space c = false.
Proof.
  induction s as [|d s IH]; simpl; [discriminate|].
  destruct (is_space d) eqn:Ed; [exact IH|]. now intros [= <- _].
Qed.

Lemma strip_last s t c : strip s = t ++ [c] -> is_space c = false.
Proof.
  unfold strip, rstrip. intros H. apply (f_equal (@rev char)) in H.
  rewrite rev_involutive, rev_app_distr in H. simpl in H.
  now apply lstrip_head in H.
Qed.

Lemma bare_id_inv text m :
  Regex.re_match Extractor.BARE_ID_PATTERN text = Some m ->
  exists v, is_video_id v = true /\ (text = v \/ text = v ++ [nl]).
Proof.
  unfold Regex.re_match, Extractor.BARE_ID_PATTERN.
  cbn [Regex.rmatch Regex.seqs fold_right Regex.pos Nat.eqb].
  intros H. apply match_repeat_inv in H as (v & t & Hr & Hlen & Hall & Hk).
  simpl in Hr, Hk. exists v. split.
  - unfold is_video_id. rewrite Hlen. exact Hall.
  - destruct t as [|c [|c' t]]; try discriminate.
    + left. now rewrite Hr, app_nil_r.
    + destruct (N.eqb_spec c nl) as [->|]; [|discriminate]. now right.
Qed.

(** Whenever [extract_video_id] returns, it returns a well-formed ID. *)
Lemma extract_with_id patterns url_or_id r :
  Forall (fun pattern => exists rs, pattern = Regex.seqs (rs ++ [Extractor.ID_GROUP]))
         patterns ->
  Extractor.extract_with patterns url_or_id = Ok r ->
  is_video_id r = true.
Proof.
  intros Hpats. unfold Extractor.extract_with.
  destruct (Regex.re_match _ _) as [m|] eqn:E.
  - intros [= <-]. apply bare_id_inv in E as (v & Hv & [->|Hnl]); [assumption|].
    now apply strip_last in Hnl.
  - now apply try_patterns_id.
Qed.

(** *** Literals that cannot occur *)

Lemma compat_app (x : str) : forall y r b, x ++ r = y ++ b -> compat x y = true.
Proof.
  induction x as [|c x IH]; intros [|d y] r b H; simpl; try reflexivity.
  simpl in H. injection H as -> H. rewrite N.eqb_refl. simpl. eauto.
Qed.

(** An occurrence of [l] in [p ++ r] starts inside [p] when [l] holds a
    character that [r] lacks. *)
Lemma occurrence_may_occur (p r l a b : str) (c : char) :
  p ++ r = a ++ l ++ b -> In c l -> ~ In c r -> may_occur l p = true.
Proof.
  intros Heq Hl Hr. unfold may_occur. apply existsb_exists.
  apply app_eq_app in Heq as [x [[Hp Hx]|[Ha Hx]]].
  - exists (length a). split.
    + apply in_seq. rewrite Hp, length_app. destruct x as [|d x]; simpl; [|lia].
      exfalso. apply Hr. simpl in Hx. rewrite <- Hx.
      apply in_or_app. now left.
    + rewrite Hp, drop_app_length. symmetry in Hx. eapply compat_app. exact Hx.
  - exfalso. apply Hr. rewrite Hx. apply in_or_app. right.
    apply in_or_app. now left.
Qed.

Lemma seqs_lit_inv (l : str) (rs2 : list Regex.regex) (rs1 : list Regex.regex) :
  forall s k m,
  Regex.rmatch (Regex.seqs (rs1 ++ Regex.lit_chars l :: rs2)) s k = Some m ->
  exists a b, Regex.rest s = a ++ l ++ b.
Proof.
  induction rs1 as [|r rs1 IH]; intros s k m H;
    cbn [app Regex.seqs fold_right Regex.rmatch] in H.
  - apply rmatch_lit_inv in H as (t & Ht & _). exists [], t. exact Ht.
  - apply rmatch_inv in H as (s' & (consumed & Hr & _) & H).
    apply IH in H as (a & b & Hab). exists (consumed ++ a), b.
    now rewrite Hr, Hab, <- app_assoc.
Qed.

(** If a pattern with the literal [l] matches somewhere in [p ++ r], the
    literal starts inside [p], provided [l] holds a character [r] lacks. *)
Lemma search_none (rs1 rs2 : list Regex.regex) (l p r : str) (c : char) :
  In c l -> ~ In c r -> may_occur l p = false ->
  Regex.re_search (Regex.seqs (rs1 ++ Regex.lit_chars l :: rs2)) (p ++ r) = None.
Proof.
  intros Hl Hr Hno.
  destruct (Regex.re_search _ _) as [m|] eqn:E; [|reflexivity].
  apply search_from_inv in E as (skipped & inp' & Htext & E).
  apply seqs_lit_inv in E as (a & b & Hab). simpl in Hab.
  rewrite Hab, app_assoc in Htext.
  apply (occurrence_may_occur p r l _ b c) in Htext; [congruence|assumption..].
Qed.

Lemma search_from_hit r p inp m :
  Regex.rmatch r (Regex.mkM p inp None) Some = Some m ->
  Regex.search_from r p inp = Some m.
Proof. intros H. destruct inp; simpl; now rewrite H. Qed.

(** *** Matching a URL of a known shape *)

(** After the optional scheme and [www.], and the literal of the pattern,
    matching goes on with the rest of the pattern on the rest of the text. *)
Lemma head_www_k (l : string) (pre : str) r (K : Regex.mstate -> option Regex.mstate) :
  In l ["youtube.com/watch?"; "youtube.com/shorts/"; "youtube.com/embed/";
        "youtube.com/live/"]%string ->
  In pre (shape_prefixes Watch) ->
  Regex.rmatch
    (Regex.Seq Extractor.SCHEME (Regex.Seq Extractor.WWW (Regex.lit l)))
    (Regex.mkM 0 (pre ++ str_of l ++ r) None) K
  = K (Regex.mkM (length pre + length (str_of l)) r None).
Proof.
  intros Hl Hpre. simpl in Hl, Hpre.
  repeat (destruct Hl as [<-|Hl]; [|]); try contradiction;
    repeat (destruct Hpre as [<-|Hpre]; [|]); try contradiction;
    vm_compute; destruct (K _); reflexivity.
Qed.

Lemma head_www (l : string) (pre : str) tailre r k :
  In l ["youtube.com/watch?"; "youtube.com/shorts/"; "youtube.com/embed/";
        "youtube.com/live/"]%string ->
  In pre (shape_prefixes Watch) ->
  Regex.rmatch
    (Regex.Seq Extractor.SCHEME
       (Regex.Seq Extractor.WWW (Regex.Seq (Regex.lit l) tailre)))
    (Regex.mkM 0 (pre ++ str_of l ++ r) None) k
  = Regex.rmatch tailre (Regex.mkM (length pre + length (str_of l)) r None) k.
Proof.
  intros Hl Hpre.
  exact (head_www_k l pre r (fun s' => Regex.rmatch tailre s' k) Hl Hpre).
Qed.

Lemma head_short_k (pre : str) r (K : Regex.mstate -> option Regex.mstate) :
  In pre (shape_prefixes Short) ->
  Regex.rmatch
    (Regex.Seq Extractor.SCHEME (Regex.lit "youtu.be/"))
    (Regex.mkM 0 (pre ++ str_of "youtu.be/" ++ r) None) K
  = K (Regex.mkM (length pre + 9) r None).
Proof.
  intros Hpre. simpl in Hpre.
  repeat (destruct Hpre as [<-|Hpre]; [|]); try contradiction;
    vm_compute; destruct (K _); reflexivity.
Qed.

Lemma head_short (pre : str) tailre r k :
  In pre (shape_prefixes Short) ->
  Regex.rmatch
    (Regex.Seq Extractor.SCHEME (Regex.Seq (Regex.lit "youtu.be/") tailre))
    (Regex.mkM 0 (pre ++ str_of "youtu.be/" ++ r) None) k
  = Regex.rmatch tailre (Regex.mkM (length pre + 9) r None) k.
Proof.
  intros Hpre.
  exact (head_short_k pre r (fun s' => Regex.rmatch tailre s' k) Hpre).
Qed.

(** The greedy star gives up characters one by one: it ends where the
    continuation first succeeds, counted from the longest run. *)
Lemma match_star_none a k : forall inp p g,
  (forall skipped inp', inp = skipped ++ inp' ->
     k (Regex.mkM (p + length skipped) inp' g) = None) ->
  Regex.match_star a k p g inp = None.
Proof.
  induction inp as [|c inp IH]; intros p g Hk; simpl.
  - specialize (Hk [] [] eq_refl). simpl in Hk. now rewrite Nat.add_0_r in Hk.
  - assert (H0 : k (Regex.mkM p (c :: inp) g) = None).
    { specialize (Hk [] (c :: inp) eq_refl). simpl in Hk.
      now rewrite Nat.add_0_r in Hk. }
    rewrite H0. destruct (Regex.atom_matches a c); [|reflexivity].
    rewrite IH; [reflexivity|]. intros skipped inp' ->.
    specialize (Hk (c :: skipped) inp' eq_refl). simpl in Hk.
    now replace (S p + length skipped)%nat with (p + S (length skipped))%nat by lia.
Qed.

Lemma match_star_first a k c inp p g :
  (forall skipped inp', inp = skipped ++ inp' ->
     k (Regex.mkM (S p + length skipped) inp' g) = None) ->
  Regex.match_star a k p g (c :: inp) = k (Regex.mkM p (c :: inp) g).
Proof.
  intros Hk. simpl. destruct (Regex.atom_matches a c); [|reflexivity].
  now rewrite match_star_none.
Qed.

Lemma has_v_id_suffix skipped : forall inp,
  has_v_id inp = true -> has_v_id (skipped ++ inp) = true.
Proof.
  induction skipped as [|c skipped IH]; intros inp H; [exact H|].
  change (has_v_id ((c :: skipped) ++ inp))
    with (starts_with_v_id (c :: skipped ++ inp) || has_v_id (skipped ++ inp)).
  rewrite IH by assumption. apply orb_true_r.
Qed.

Lemma has_v_id_start inp : starts_with_v_id inp = true -> has_v_id inp = true.
Proof. intros H. destruct inp; simpl in *; [discriminate|]. now rewrite H. Qed.

(** What the tail [v=([a-zA-Z0-9_-]{11})] of the watch pattern accepts. *)
Lemma v_id_inv s k m :
  Regex.rmatch (Regex.seqs [Regex.lit "v="; Extractor.ID_GROUP]) s k = Some m ->
  starts_with_v_id (Regex.rest s) = true.
Proof.
  cbn [Regex.seqs fold_right Regex.rmatch]. unfold Regex.lit. intros H.
  apply rmatch_lit_inv in H as (t & Ht & H).
  apply id_group_inv in H as (v & t' & Ht' & Hv & _). simpl in Ht'.
  rewrite Ht, Ht'. simpl.
  unfold is_video_id in Hv. apply andb_true_iff in Hv as [Hlen Hall].
  apply Nat.eqb_eq in Hlen. rewrite <- Hlen, take_app_length.
  unfold is_video_id. now rewrite Hlen, Hall.
Qed.

Lemma id_char_not_space c : id_char c = true -> is_space c = false.
Proof.
  unfold id_char, is_space. simpl. intros H.
  repeat (apply orb_true_iff in H as [H|H]); try discriminate;
    apply andb_true_iff in H as [H1 H2];
    apply N.leb_le in H1; apply N.leb_le in H2;
    repeat (apply orb_false_iff; split);
    try (apply andb_false_iff; (left; apply N.leb_gt; lia) || (right; apply N.leb_gt; lia));
    apply N.eqb_neq; lia.
Qed.

Lemma id_char_not_slash c : id_char c = true -> c <> slash.
Proof. intros H ->. discriminate. Qed.

Lemma video_id_no_slash v : is_video_id v = true -> ~ In slash v.
Proof.
  unfold is_video_id. intros H Hin. apply andb_true_iff in H as [_ Hall].
  rewrite forallb_forall in Hall. apply Hall in Hin. discriminate.
Qed.

Lemma video_id_last v :
  is_video_id v = true -> exists t c, v = t ++ [c] /\ is_space c = false.
Proof.
  unfold is_video_id. intros H. apply andb_true_iff in H as [Hlen Hall].
  destruct (exists_last (l := v)) as (t & c & ->).
  { intros ->. discriminate. }
  exists t, c. split; [reflexivity|]. apply id_char_not_space.
  rewrite forallb_forall in Hall. apply Hall. apply in_or_app. right. now left.
Qed.

Lemma lstrip_length s : (length (lstrip s) <= length s)%nat.
Proof.
  induction s as [|c s IH]; simpl; [lia|]. destruct (is_space c); simpl; lia.
Qed.

(** A text without trailing whitespace is empty or ends with a character
    that is not whitespace. *)
Lemma rstrip_fixed s :
  rstrip s = s -> s = [] \/ exists t c, s = t ++ [c] /\ is_space c = false.
Proof.
  unfold rstrip. intros H. apply (f_equal (@rev char)) in H.
  rewrite rev_involutive in H.
  destruct (rev s) as [|c t] eqn:E.
  - left. apply (f_equal (@rev char)) in E. now rewrite rev_involutive in E.
  - right. exists (rev t), c. split.
    + apply (f_equal (@rev char)) in E. now rewrite rev_involutive in E.
    + simpl in H. destruct (is_space c); [|reflexivity].
      pose proof (lstrip_length t) as Hlen. rewrite H in Hlen. simpl in Hlen. lia.
Qed.

Lemma rstrip_app_last a t c :
  is_space c = false -> rstrip (a ++ t ++ [c]) = a ++ t ++ [c].
Proof.
  intros Hc. unfold rstrip. rewrite app_assoc, rev_app_distr. simpl.
  rewrite Hc. simpl. rewrite rev_involutive. now rewrite <- app_assoc.
Qed.

(** A text that starts with a character that is not whitespace and goes
    on with an ID and a tail without trailing whitespace is its own trim. *)
Lemma strip_url c0 (p v tail : str) :
  is_space c0 = false -> is_video_id v = true -> rstrip tail = tail ->
  strip (c0 :: p ++ v ++ tail) = c0 :: p ++ v ++ tail.
Proof.
  intros Hc0 Hv Htail. unfold strip. simpl. rewrite Hc0.
  destruct (rstrip_fixed tail Htail) as [->|(t & c & -> & Hc)].
  - rewrite app_nil_r. destruct (video_id_last v Hv) as (t & c & -> & Hc).
    exact (rstrip_app_last (c0 :: p) t c Hc).
  - rewrite (app_assoc v t [c]).
    exact (rstrip_app_last (c0 :: p) (v ++ t) c Hc).
Qed.

Lemma strip_fixed (p v tail : str) :
  negb (is_nil p) && negb (is_space (hd 0%N p)) = true ->
  is_video_id v = true -> rstrip tail = tail ->
  strip (p ++ v ++ tail) = p ++ v ++ tail.
Proof.
  destruct p as [|c0 p]; [discriminate|]. simpl. intros Hc0.
  apply negb_true_iff in Hc0. now apply strip_url.
Qed.

(** A text with a character outside the ID alphabet among its first eleven
    is not a bare ID. *)
Lemma bare_none (p r : str) :
  forallb id_char (take 11 p) = false ->
  Regex.re_match Extractor.BARE_ID_PATTERN (p ++ r) = None.
Proof.
  intros Hp. destruct (Regex.re_match _ _) as [m|] eqn:E; [|reflexivity].
  apply bare_id_inv in E as (v & Hv & Htext).
  unfold is_video_id in Hv. apply andb_true_iff in Hv as [Hlen Hall].
  apply Nat.eqb_eq in Hlen.
  assert (Htake : take 11 (p ++ r) = v).
  { destruct Htext as [->| ->].
    - now rewrite <- Hlen, firstn_all.
    - now rewrite <- Hlen, take_app_length. }
  rewrite take_app in Htake. rewrite <- Htake, forallb_app, Hp in Hall.
  discriminate.
Qed.

Lemma shape_search_none (sh : shape) (p r : str) :
  ~ In slash r ->
  may_occur (pattern_literal sh) p = false ->
  Regex.re_search (shape_pattern sh) (p ++ r) = None.
Proof.
  intros Hr Hp.
  destruct sh;
    [ apply (search_none [Extractor.SCHEME; Extractor.WWW]
               [Regex.Star Regex.Dot; Regex.lit "v="; Extractor.ID_GROUP]
               (pattern_literal Watch) p r slash)
    | apply (search_none [Extractor.SCHEME] [Extractor.ID_GROUP]
               (pattern_literal Short) p r slash)
    | apply (search_none [Extractor.SCHEME; Extractor.WWW] [Extractor.ID_GROUP]
               (pattern_literal Shorts) p r slash)
    | apply (search_none [Extractor.SCHEME; Extractor.WWW] [Extractor.ID_GROUP]
               (pattern_literal Embed) p r slash)
    | apply (search_none [Extractor.SCHEME; Extractor.WWW] [Extractor.ID_GROUP]
               (pattern_literal Live) p r slash) ];
    try assumption; vm_compute; tauto.
Qed.

(** First match wins: the result is the capture of the first pattern of the
    list that matches somewhere. *)
Lemma try_patterns_first (sh : shape) (text v : str) :
  (forall sh', (shape_index sh' < shape_index sh)%nat ->
               Regex.re_search (shape_pattern sh') text = None) ->
  (exists m, Regex.re_search (shape_pattern sh) text = Some m /\
             Regex.group1 m = Some v) ->
  Extractor.try_patterns Extractor.YOUTUBE_PATTERNS text = Ok v.
Proof.
  intros Hnone (m & Hm & Hg).
  pose proof (Hnone Watch) as H0. pose proof (Hnone Short) as H1.
  pose proof (Hnone Shorts) as H2. pose proof (Hnone Embed) as H3.
  unfold shape_pattern in *. unfold Extractor.YOUTUBE_PATTERNS in *.
  destruct sh; cbn [shape_index nth Extractor.try_patterns] in *;
    repeat match goal with
           | H : (?a < ?b)%nat -> _ |- _ =>
               first [ specialize (H ltac:(lia)); rewrite H | clear H ]
           end;
    rewrite Hm; unfold Extractor.group; now rewrite Hg.
Qed.

Lemma v_id_app v t p g k :
  is_video_id v = true ->
  Regex.rmatch (Regex.seqs [Regex.lit "v="; Extractor.ID_GROUP])
    (Regex.mkM p (str_of "v=" ++ v ++ t) g) k
  = k (Regex.mkM (p + 2 + 11) t (Some v)).
Proof.
  intros Hv. cbn [Regex.seqs fold_right Regex.rmatch]. unfold Regex.lit.
  rewrite rmatch_lit_app. now rewrite id_group_app.
Qed.

Lemma search_hit_watch (pre v tail : str) :
  In pre (shape_prefixes Watch) ->
  is_video_id v = true ->
  has_v_id (v ++ tail) = false ->
  exists m,
    Regex.re_search (shape_pattern Watch) (pre ++ shape_literal Watch ++ v ++ tail)
      = Some m /\ Regex.group1 m = Some v.
Proof.
  intros Hpre Hv Hlater. eexists. split.
  - apply search_from_hit.
    change (shape_pattern Watch)
      with (Regex.Seq Extractor.SCHEME
              (Regex.Seq Extractor.WWW
                 (Regex.Seq (Regex.lit "youtube.com/watch?")
                    (Regex.seqs [Regex.Star Regex.Dot; Regex.lit "v=";
                                 Extractor.ID_GROUP])))).
    change (shape_literal Watch ++ v ++ tail)
      with (str_of "youtube.com/watch?" ++ (118%N :: 61%N :: v ++ tail)).
    rewrite head_www by (simpl; auto).
    change (Regex.seqs [Regex.Star Regex.Dot; Regex.lit "v="; Extractor.ID_GROUP])
      with (Regex.Seq (Regex.Star Regex.Dot)
              (Regex.seqs [Regex.lit "v="; Extractor.ID_GROUP])).
    cbn [Regex.rmatch Regex.pos Regex.rest Regex.group1].
    rewrite match_star_first.
    + change (118%N :: 61%N :: v ++ tail) with (str_of "v=" ++ v ++ tail).
      rewrite v_id_app by assumption. reflexivity.
    + intros skipped inp' Hsplit.
      destruct (Regex.rmatch _ _ Some) as [m|] eqn:E; [|reflexivity].
      apply v_id_inv in E. simpl in E.
      apply has_v_id_start, (has_v_id_suffix skipped) in E.
      rewrite <- Hsplit in E.
      change (has_v_id (61%N :: v ++ tail)) with (false || has_v_id (v ++ tail)) in E.
      simpl in E. congruence.
  - reflexivity.
Qed.

Lemma search_hit_short (pre v tail : str) :
  In pre (shape_prefixes Short) ->
  is_video_id v = true ->
  exists m,
    Regex.re_search (shape_pattern Short) (pre ++ shape_literal Short ++ v ++ tail)
      = Some m /\ Regex.group1 m = Some v.
Proof.
  intros Hpre Hv. eexists. split.
  - apply search_from_hit.
    change (shape_pattern Short)
      with (Regex.Seq Extractor.SCHEME
              (Regex.Seq (Regex.lit "youtu.be/") (Regex.seqs [Extractor.ID_GROUP]))).
    change (shape_literal Short) with (str_of "youtu.be/").
    rewrite head_short by assumption.
    cbn [Regex.seqs fold_right Regex.rmatch].
    rewrite id_group_app by assumption. reflexivity.
  - reflexivity.
Qed.

Lemma search_hit_www (sh : shape) (pre v tail : str) :
  sh = Shorts \/ sh = Embed \/ sh = Live ->
  In pre (shape_prefixes sh) ->
  is_video_id v = true ->
  exists m,
    Regex.re_search (shape_pattern sh) (pre ++ shape_literal sh ++ v ++ tail)
      = Some m /\ Regex.group1 m = Some v.
Proof.
  intros Hsh Hpre Hv.
  destruct Hsh as [->|[->| ->]]; (eexists; split; [apply search_from_hit|]).
  - change (shape_pattern Shorts)
      with (Regex.Seq Extractor.SCHEME
              (Regex.Seq Extractor.WWW
                 (Regex.Seq (Regex.lit "youtube.com/shorts/")
                    (Regex.seqs [Extractor.ID_GROUP])))).
    change (shape_literal Shorts) with (str_of "youtube.com/shorts/").
    rewrite head_www by (simpl; auto).
    cbn [Regex.seqs fold_right Regex.rmatch].
    rewrite id_group_app by assumption. reflexivity.
  - reflexivity.
  - change (shape_pattern Embed)
      with (Regex.Seq Extractor.SCHEME
              (Regex.Seq Extractor.WWW
                 (Regex.Seq (Regex.lit "youtube.com/embed/")
                    (Regex.seqs [Extractor.ID_GROUP])))).
    change (shape_literal Embed) with (str_of "youtube.com/embed/").
    rewrite head_www by (simpl; auto).
    cbn [Regex.seqs fold_right Regex.rmatch].
    rewrite id_group_app by assumption. reflexivity.
  - reflexivity.
  - change (shape_pattern Live)
      with (Regex.Seq Extractor.SCHEME
              (Regex.Seq Extractor.WWW
                 (Regex.Seq (Regex.lit "youtube.com/live/")
                    (Regex.seqs [Extractor.ID_GROUP])))).
    change (shape_literal Live) with (str_of "youtube.com/live/").
    rewrite head_www by (simpl; auto).
    cbn [Regex.seqs fold_right Regex.rmatch].
    rewrite id_group_app by assumption. reflexivity.
  - reflexivity.
Qed.

Lemma search_hit (sh : shape) (pre v tail : str) :
  In pre (shape_prefixes sh) ->
  is_video_id v = true ->
  (sh = Watch -> has_v_id (v ++ tail) = false) ->
  exists m,
    Regex.re_search (shape_pattern sh) (pre ++ shape_literal sh ++ v ++ tail)
      = Some m /\ Regex.group1 m = Some v.
Proof.
  intros Hpre Hv Hlater. destruct sh.
  - apply search_hit_watch; auto.
  - now apply search_hit_short.
  - apply search_hit_www; auto.
  - apply search_hit_www; auto.
  - apply search_hit_www; auto.
Qed.

(** A URL of a supported shape: optional scheme and [www.], the literal of
    the shape, the ID, and a tail.  When the tail holds no slash and no
    trailing whitespace (and, for the watch shape, no later [v=] followed by
    eleven ID characters), the ID is extracted. *)
Lemma extract_video_id_url (sh : shape) (pre v tail : str) :
  In pre (shape_prefixes sh) ->
  is_video_id v = true ->
  rstrip tail = tail ->
  ~ In slash tail ->
  (sh = Watch -> has_v_id (v ++ tail) = false) ->
  Extractor.extract_video_id (pre ++ shape_literal sh ++ v ++ tail) = Ok v.
Proof.
  intros Hpre Hv Htrim Hslash Hlater.
  pose proof (search_hit sh pre v tail Hpre Hv Hlater) as Hhit.
  assert (Hr : ~ In slash (v ++ tail)).
  { intros Hin. apply in_app_or in Hin as [Hin|Hin]; [|contradiction].
    now apply video_id_no_slash in Hin. }
  unfold Extractor.extract_video_id, Extractor.extract_with.
  revert Hhit. rewrite (app_assoc pre (shape_literal sh) (v ++ tail)). intros Hhit.
  assert (Hfacts :
    negb (is_nil (pre ++ shape_literal sh))
      && negb (is_space (hd 0%N (pre ++ shape_literal sh))) = true /\
    forallb id_char (take 11 (pre ++ shape_literal sh)) = false /\
    forall sh', (shape_index sh' < shape_index sh)%nat ->
      may_occur (pattern_literal sh') (pre ++ shape_literal sh) = false).
  { destruct sh; simpl in Hpre;
      repeat (destruct Hpre as [<-|Hpre]; [|]); try contradiction;
      (split; [vm_compute; reflexivity|]);
      (split; [vm_compute; reflexivity|]);
      intros sh' Hlt; destruct sh'; simpl in Hlt; try lia; vm_compute; reflexivity. }
  destruct Hfacts as (Hhead & Hbare & Hearlier).
  rewrite strip_fixed by assumption.
  rewrite bare_none by assumption.
  apply (try_patterns_first sh); [|assumption].
  intros sh' Hlt. apply shape_search_none; [assumption|]. now apply Hearlier.
Qed.

Example extract_video_id_url_live :
  Extractor.extract_video_id (str_of "http://www.youtube.com/live/dQw4w9WgXcQ?si=abc")
  = Ok (str_of "dQw4w9WgXcQ").
Proof.
  apply (extract_video_id_url Live (str_of "http://www.") (str_of "dQw4w9WgXcQ")
           (str_of "?si=abc")); vm_compute; try tauto; try discriminate.
  intuition discriminate.
Qed.

(** *** Bare IDs *)

Lemma lstrip_app_space ws s :
  forallb is_space ws = true -> lstrip (ws ++ s) = lstrip s.
Proof.
  induction ws as [|c ws IH]; simpl; [reflexivity|]. intros H.
  apply andb_true_iff in H as [-> H]. now apply IH.
Qed.

Lemma strip_padded ws1 v ws2 :
  forallb is_space ws1 = true -> forallb is_space ws2 = true ->
  is_video_id v = true ->
  strip (ws1 ++ v ++ ws2) = v.
Proof.
  intros H1 H2 Hv. unfold strip, rstrip. rewrite lstrip_app_space by assumption.
  destruct (video_id_last v Hv) as (t & c & -> & Hc).
  assert (Hhead : lstrip ((t ++ [c]) ++ ws2) = (t ++ [c]) ++ ws2).
  { unfold is_video_id in Hv. apply andb_true_iff in Hv as [_ Hall].
    destruct t as [|d t]; simpl in *.
    - now rewrite Hc.
    - apply andb_true_iff in Hall as [Hd _]. apply id_char_not_space in Hd.
      now rewrite Hd. }
  rewrite Hhead, rev_app_distr, lstrip_app_space.
  - rewrite rev_app_distr. simpl. rewrite Hc. simpl. now rewrite rev_involutive.
  - rewrite forallb_forall in *. intros x Hx. apply H2. now apply in_rev.
Qed.

Lemma bare_id_match v :
  is_video_id v = true ->
  exists m, Regex.re_match Extractor.BARE_ID_PATTERN v = Some m.
Proof.
  unfold is_video_id. intros H. apply andb_true_iff in H as [Hlen Hall].
  apply Nat.eqb_eq in Hlen.
  unfold Regex.re_match, Extractor.BARE_ID_PATTERN.
  cbn [Regex.rmatch Regex.seqs fold_right Regex.pos Nat.eqb].
  pose proof (fun k => match_repeat_app Extractor.ID_CLASS k v 0 [] None Hall) as H.
  rewrite app_nil_r, Hlen in H. rewrite H. simpl. eauto.
Qed.

(** On a bare ID, padded with whitespace or not, the ID comes back whatever
    the list of URL patterns is: the patterns are not consulted. *)
Lemma extract_with_bare patterns ws1 v ws2 :
  forallb is_space ws1 = true -> forallb is_space ws2 = true ->
  is_video_id v = true ->
  Extractor.extract_with patterns (ws1 ++ v ++ ws2) = Ok v.
Proof.
  intros H1 H2 Hv. unfold Extractor.extract_with.
  rewrite strip_padded by assumption.
  destruct (bare_id_match v Hv) as [m ->]. reflexivity.
Qed.


(** *** The greedy wildcard of the watch pattern *)

(** The star ends at the last place, within its run, where the continuation
    succeeds. *)
Lemma match_star_last a k m (pre : str) : forall p g rest,
  forallb (Regex.atom_matches a) pre = true ->
  k (Regex.mkM (p + length pre) rest g) = Some m ->
  (forall skipped inp', rest = skipped ++ inp' -> skipped <> [] ->
     k (Regex.mkM (p + length pre + length skipped) inp' g) = None) ->
  Regex.match_star a k p g (pre ++ rest) = Some m.
Proof.
  induction pre as [|c pre IH]; intros p g rest Hall Hk Hlater.
  - simpl in *. rewrite Nat.add_0_r in Hk, Hlater.
    destruct rest as [|c t]; simpl; [exact Hk|].
    destruct (Regex.atom_matches a c); [|exact Hk].
    rewrite match_star_none, Hk; [reflexivity|].
    intros skipped inp' ->.
    specialize (Hlater (c :: skipped) inp' eq_refl ltac:(discriminate)).
    simpl in Hlater.
    now replace (S p + length skipped)%nat with (p + S (length skipped))%nat by lia.
  - simpl in Hall. apply andb_true_iff in Hall as [Hc Hall].
    simpl. rewrite Hc. rewrite (IH (S p) g rest Hall); [reflexivity| |].
    + now replace (S p + length pre)%nat with (p + length (c :: pre))%nat
        by (simpl; lia).
    + intros skipped inp' Hsplit Hne.
      specialize (Hlater skipped inp' Hsplit Hne). simpl in Hlater.
      now replace (S p + length pre + length skipped)%nat
        with (p + S (length pre) + length skipped)%nat by lia.
Qed.

Lemma dot_matches c : c <> nl -> Regex.atom_matches Regex.Dot c = true.
Proof. intros H. simpl. now destruct (N.eqb_spec c nl). Qed.

Lemma starts_with_v_id_length s :
  starts_with_v_id s = true -> (13 <= length s)%nat.
Proof.
  destruct s as [|c1 [|c2 r]]; simpl; try discriminate.
  - rewrite andb_false_r. discriminate.
  - intros H. apply andb_true_iff in H as [_ H].
    apply andb_true_iff in H as [_ H]. unfold is_video_id in H.
    apply andb_true_iff in H as [H _]. apply Nat.eqb_eq in H.
    rewrite length_take in H. lia.
Qed.

(** On a watch URL, the ID that follows the last [v=] of the line is the
    one returned, whatever ID follows [watch?v=]. *)
Lemma extract_video_id_last_v (v mid other : str) :
  is_video_id v = true -> is_video_id other = true -> ~ In nl mid ->
  Extractor.extract_video_id
    (str_of "https://www.youtube.com/watch?v=" ++ v ++ mid ++ str_of "v=" ++ other)
  = Ok other.
Proof.
  intros Hv Hother Hmid.
  unfold Extractor.extract_video_id, Extractor.extract_with.
  assert (Hstrip : strip (str_of "https://www.youtube.com/watch?v=" ++ v ++ mid
                            ++ str_of "v=" ++ other)
                   = str_of "https://www.youtube.com/watch?v=" ++ v ++ mid
                       ++ str_of "v=" ++ other).
  { apply strip_fixed; [reflexivity|assumption|].
    destruct (video_id_last other Hother) as (t & c & -> & Hc).
    rewrite (app_assoc (str_of "v=") t [c]).
    exact (rstrip_app_last mid (str_of "v=" ++ t) c Hc). }
  rewrite Hstrip, bare_none by reflexivity.
  apply (try_patterns_first Watch); [simpl; intros sh' Hlt; lia|].
  eexists. split; [apply search_from_hit|].
  - change (shape_pattern Watch)
      with (Regex.Seq Extractor.SCHEME
              (Regex.Seq Extractor.WWW
                 (Regex.Seq (Regex.lit "youtube.com/watch?")
                    (Regex.Seq (Regex.Star Regex.Dot)
                       (Regex.seqs [Regex.lit "v="; Extractor.ID_GROUP]))))).
    rewrite (app_assoc v mid).
    change (str_of "https://www.youtube.com/watch?v=" ++ (v ++ mid)
              ++ str_of "v=" ++ other)
      with (str_of "https://www." ++ str_of "youtube.com/watch?"
              ++ (str_of "v=" ++ v ++ mid) ++ str_of "v=" ++ other).
    rewrite head_www by (simpl; auto 10).
    cbn [Regex.rmatch Regex.pos Regex.rest Regex.group1].
    rewrite <- (app_nil_r other) at 1.
    apply match_star_last.
    + change (str_of "v=" ++ v ++ mid) with (118%N :: 61%N :: v ++ mid).
      simpl. rewrite forallb_app. apply andb_true_iff. split.
      * unfold is_video_id in Hv. apply andb_true_iff in Hv as [_ Hall].
        rewrite forallb_forall in *. intros c Hc. apply Hall in Hc.
        apply dot_matches. intros ->. discriminate.
      * rewrite forallb_forall. intros c Hc.
        apply dot_matches. now intros ->.
    + rewrite v_id_app by assumption. reflexivity.
    + intros skipped inp' Hsplit Hne.
      destruct (Regex.rmatch _ _ Some) as [m|] eqn:E; [|reflexivity].
      apply v_id_inv, starts_with_v_id_length in E. simpl in E.
      apply (f_equal (@length char)) in Hsplit.
      rewrite !length_app in Hsplit. simpl in Hsplit.
      unfold is_video_id in Hother. apply andb_true_iff in Hother as [Hlen _].
      apply Nat.eqb_eq in Hlen. destruct skipped; [congruence|]. simpl in Hsplit. lia.
  - reflexivity.
Qed.

(** C7: on a watch URL whose query string goes on with a parameter such as
    [rv=] (YouTube's mix links), the greedy [.*] of the first pattern runs
    to the last [v=] followed by eleven ID characters, and
    [extract_video_id] returns that later value, not the ID of the [v]
    parameter. *)
Theorem extract_video_id_later_parameter :
  is_video_id example_id = true /\
  Extractor.extract_video_id mix_url = Ok (str_of "oHg5SJYRHA0") /\
  Extractor.extract_video_id mix_url <> Ok example_id.
Proof. vm_compute. repeat split; discriminate. Qed.

Lemma lstrip_app u w :
  lstrip (u ++ w) = if is_nil (lstrip u) then lstrip w else lstrip u ++ w.
Proof.
  induction u as [|c u IH]; simpl; [reflexivity|].
  destruct (is_space c); [exact IH|reflexivity].
Qed.

Lemma rstrip_app_space x ws :
  forallb is_space ws = true -> rstrip (x ++ ws) = rstrip x.
Proof.
  intros H. unfold rstrip. rewrite rev_app_distr, lstrip_app_space; [reflexivity|].
  rewrite forallb_forall in *. intros c Hc. apply H. now apply in_rev.
Qed.

Lemma strip_pad ws1 u ws2 :
  forallb is_space ws1 = true -> forallb is_space ws2 = true ->
  strip (ws1 ++ u ++ ws2) = strip u.
Proof.
  intros H1 H2. unfold strip. rewrite lstrip_app_space by assumption.
  rewrite lstrip_app. destruct (lstrip u) as [|c t] eqn:E; cbn [is_nil].
  - apply lstrip_nil_iff in H2. now rewrite H2.
  - exact (rstrip_app_space (c :: t) ws2 H2).
Qed.

Lemma lstrip_split s :
  exists ws, s = ws ++ lstrip s /\ forallb is_space ws = true.
Proof.
  induction s as [|c s (ws & Hs & Hws)]; [now exists []|].
  simpl. destruct (is_space c) eqn:E.
  - exists (c :: ws). simpl. rewrite E, Hws. split; [now f_equal|reflexivity].
  - now exists [].
Qed.

Lemma rstrip_split s :
  exists ws, s = rstrip s ++ ws /\ forallb is_space ws = true.
Proof.
  unfold rstrip. destruct (lstrip_split (rev s)) as (ws & Hs & Hws).
  exists (rev ws). split.
  - apply (f_equal (@rev char)) in Hs.
    now rewrite rev_involutive, rev_app_distr in Hs.
  - rewrite forallb_forall in *. intros c Hc. apply Hws. now apply in_rev.
Qed.








(** ** The cache, the fetcher and the entry point *)

Example main_example :
  fst (Index.main example_argv (example_world ∅ Index.DirAbsent Index.WriteOk))
  = Index.Success (Index.Plain (str_of "[01:05] hi")).
Proof. vm_compute. reflexivity. Qed.

Example main_example_blocked :
  fst (Index.main example_argv (example_world ∅ Index.DirBlocked Index.WriteOk))
  = Index.Failure (Index.Unexpected OSError).
Proof. vm_compute. reflexivity. Qed.

Example main_example_cached :
  let w := example_world ∅ Index.DirAbsent Index.WriteOk in
  let w' := snd (Index.main example_argv w) in
  Index.calls w' = [Index.CallFetch example_id [str_of "en"]] /\
  Index.main example_argv w'
  = (Index.Success (Index.Plain (str_of "[01:05] hi")), w').
Proof. vm_compute. split; reflexivity. Qed.

(** *** Fetcher *)

(** C3: when the English fetch fails with transcripts disabled, video
    unavailable, invalid ID or a blocked request, [fetch_transcript] raises
    the [RuntimeError] of that category at once: the provider has been
    called once, for the English fetch, and the listing is not requested.
    Any failure other than [NoTranscriptFound] ends the same way without a
    listing; [NoTranscriptFound] alone goes on to list the transcripts.
    The messages of the categories are pairwise different. *)
Theorem fetch_transcript_terminal (w : Index.world) (video_id : str) (e : exn) :
  Index.fetch_result (Index.youtube w) video_id en = Raise e ->
  let after := Index.log_call (Index.CallFetch video_id en) w in
  (e = TranscriptsDisabled ->
   Index.fetch_transcript video_id w
   = (Raise (RuntimeError (Index.disabled_message video_id)), after)) /\
  (e = VideoUnavailable ->
   Index.fetch_transcript video_id w
   = (Raise (RuntimeError (Index.unavailable_message video_id)), after)) /\
  (e = InvalidVideoId ->
   Index.fetch_transcript video_id w
   = (Raise (RuntimeError (Index.invalid_id_message video_id)), after)) /\
  (e = RequestBlocked \/ e = IpBlocked ->
   Index.fetch_transcript video_id w
   = (Raise (RuntimeError Index.blocked_message), after)) /\
  (e <> NoTranscriptFound ->
   Index.calls (snd (Index.fetch_transcript video_id w))
   = Index.calls w ++ [Index.CallFetch video_id en]) /\
  (e = NoTranscriptFound ->
   exists more,
     Index.calls (snd (Index.fetch_transcript video_id w))
     = Index.calls w ++ Index.CallFetch video_id en :: Index.CallList video_id :: more) /\
  List.NoDup [Index.disabled_message video_id; Index.unavailable_message video_id;
         Index.invalid_id_message video_id; Index.blocked_message;
         Index.no_captions_message video_id].
Proof.
  intros Hfetch after.
  unfold Index.fetch_transcript, Index.bind, Index.try_except, Index.api_fetch.
  fold en. rewrite Hfetch. fold after.
  repeat split.
  - intros ->. reflexivity.
  - intros ->. reflexivity.
  - intros ->. reflexivity.
  - intros [-> | ->]; reflexivity.
  - intros Hne. destruct e; try congruence; reflexivity.
  - intros ->. unfold Index.ret, Index.api_list, Index.fetch_of, Index.raise.
    destruct (Index.list_result (Index.youtube after) video_id) as [[|t ts]|e'].
    + exists []. simpl. now rewrite <- app_assoc.
    + destruct (Index.transcript_fetch t); eexists; simpl;
        rewrite <- !app_assoc; reflexivity.
    + exists []. simpl. now rewrite <- app_assoc.
  - repeat (apply List.NoDup_cons;
              [simpl; intros H;
               repeat (destruct H as [H|H]; [vm_compute in H; discriminate|]);
               exact H|]).
    apply List.NoDup_nil.
Qed.

Lemma fetch_transcript_terminal_witness :
  Index.fetch_transcript example_id blocking_world
  = (Raise (RuntimeError Index.blocked_message),
     Index.log_call (Index.CallFetch example_id en) blocking_world).
Proof.
  apply (fetch_transcript_terminal blocking_world example_id RequestBlocked eq_refl).
  now left.
Defined.

(** C4: after [NoTranscriptFound] for English, [fetch_transcript] lists
    the transcripts of the video and returns the raw data of the first of
    the listing, whatever follows it, without fetching any other; when the
    listing fails, is empty, or that first fetch fails, it raises the
    [RuntimeError] of the "no captions" category. *)
Theorem fetch_transcript_fallback (w : Index.world) (video_id : str) :
  Index.fetch_result (Index.youtube w) video_id en = Raise NoTranscriptFound ->
  let listed :=
    Index.log_call (Index.CallList video_id)
      (Index.log_call (Index.CallFetch video_id en) w) in
  let no_captions := RuntimeError (Index.no_captions_message video_id) in
  (forall t others segments,
     Index.list_result (Index.youtube w) video_id = Ok (t :: others) ->
     Index.transcript_fetch t = Ok segments ->
     Index.fetch_transcript video_id w
     = (Ok segments,
        Index.log_call (Index.CallTranscriptFetch (Index.language_code t)) listed)) /\
  (forall t others e,
     Index.list_result (Index.youtube w) video_id = Ok (t :: others) ->
     Index.transcript_fetch t = Raise e ->
     Index.fetch_transcript video_id w
     = (Raise no_captions,
        Index.log_call (Index.CallTranscriptFetch (Index.language_code t)) listed)) /\
  (forall e,
     Index.list_result (Index.youtube w) video_id = Raise e ->
     Index.fetch_transcript video_id w = (Raise no_captions, listed)) /\
  (Index.list_result (Index.youtube w) video_id = Ok [] ->
   Index.fetch_transcript video_id w = (Raise no_captions, listed)).
Proof.
  intros Hfetch listed no_captions.
  unfold Index.fetch_transcript, Index.bind, Index.try_except, Index.api_fetch,
    Index.api_list, Index.fetch_of, Index.ret, Index.raise.
  fold en. rewrite Hfetch. simpl Index.youtube.
  repeat split.
  - intros t others segments -> ->. reflexivity.
  - intros t others e -> ->. reflexivity.
  - intros e ->. reflexivity.
  - intros ->. reflexivity.
Qed.

Lemma fetch_transcript_fallback_witness :
  Index.fetch_transcript example_id french_world
  = (Ok example_segments,
     Index.log_call (Index.CallTranscriptFetch (str_of "fr"))
       (Index.log_call (Index.CallList example_id)
          (Index.log_call (Index.CallFetch example_id en) french_world))).
Proof.
  apply (proj1 (fetch_transcript_fallback french_world example_id eq_refl)
           french [german]);
    reflexivity.
Defined.

(** *** Floats

    Rounding to the nearest double does not cross an integer that is a
    double itself. *)

Lemma round_half_even_bounds m k :
  0 < k ->
  m / 2 ^ k <= round_half_even m k <= m / 2 ^ k + 1 /\
  (m mod 2 ^ k = 0 -> round_half_even m k = m / 2 ^ k).
Proof.
  intros Hk. unfold round_half_even.
  assert (Hhalf : 0 < 2 ^ (k - 1)) by (apply Z.pow_pos_nonneg; lia).
  split.
  - destruct (_ <? _); [lia|]. destruct (_ <? _); [lia|]. destruct (Z.even _); lia.
  - intros ->. destruct (Z.ltb_spec 0 (2 ^ (k - 1))); [reflexivity|lia].
Qed.

Lemma round_half_even_le m k K :
  0 < k -> m <= K * 2 ^ k -> round_half_even m k <= K.
Proof.
  intros Hk Hm.
  destruct (round_half_even_bounds m k Hk) as [[_ Hup] Hzero].
  assert (Hp : 0 < 2 ^ k) by (apply Z.pow_pos_nonneg; lia).
  pose proof (Z.div_mod m (2 ^ k) ltac:(lia)) as Hdm.
  pose proof (Z.mod_pos_bound m (2 ^ k) Hp) as Hr.
  destruct (Z.eq_dec (m mod 2 ^ k) 0) as [Hz|Hnz].
  - rewrite (Hzero Hz). nia.
  - assert (m / 2 ^ k < K) by nia. lia.
Qed.

Lemma round_half_even_ge m k K :
  0 < k -> K * 2 ^ k <= m -> K <= round_half_even m k.
Proof.
  intros Hk Hm.
  destruct (round_half_even_bounds m k Hk) as [[Hlow _] _].
  assert (Hp : 0 < 2 ^ k) by (apply Z.pow_pos_nonneg; lia).
  pose proof (Z.div_mod m (2 ^ k) ltac:(lia)) as Hdm.
  pose proof (Z.mod_pos_bound m (2 ^ k) Hp) as Hr.
  assert (K <= m / 2 ^ k) by nia. lia.
Qed.

Lemma pow2_split a b : 0 <= a <= b -> 2 ^ b = 2 ^ a * 2 ^ (b - a).
Proof. intros H. rewrite <- Z.pow_add_r by lia. f_equal. lia. Qed.

Lemma pow2_pos a : 0 <= a -> 0 < 2 ^ a.
Proof. intros H. apply Z.pow_pos_nonneg; lia. Qed.

Lemma bits_spec n : 0 < n -> 2 ^ (bits n - 1) <= n < 2 ^ bits n.
Proof.
  intros Hn. unfold bits. rewrite Z.abs_eq by lia.
  replace (Z.log2 n + 1 - 1) with (Z.log2 n) by lia.
  replace (Z.log2 n + 1) with (Z.succ (Z.log2 n)) by lia.
  now apply Z.log2_spec.
Qed.

Lemma bits_le n b : 0 <= n < 2 ^ b -> 0 < b -> bits n <= b.
Proof.
  intros [Hn Hlt] Hb.
  destruct (Z.eq_dec n 0) as [->|Hnz]; [unfold bits; simpl; lia|].
  destruct (bits_spec n ltac:(lia)) as [Hlow _].
  assert (2 ^ (bits n - 1) < 2 ^ b) by lia.
  apply Z.pow_lt_mono_r_iff in H; lia.
Qed.

Lemma bits_nonneg n : 0 < bits n.
Proof. unfold bits. pose proof (Z.log2_nonneg (Z.abs n)). lia. Qed.

Lemma float_gt_int_nonpos n e c : n <= 0 -> 0 <= c -> float_gt_int (Finite n e) c = false.
Proof.
  intros Hn Hc. unfold float_gt_int.
  destruct (Z.leb_spec 0 e).
  - apply Z.ltb_ge. pose proof (pow2_pos e H). nia.
  - apply Z.ltb_ge. pose proof (pow2_pos (- e) ltac:(lia)). nia.
Qed.

Lemma dyadic_le_bits D e c :
  0 < D -> c < 2 ^ 53 -> dyadic_le D e c -> bits D + e <= 53.
Proof.
  intros HD Hc Hle. destruct (bits_spec D HD) as [Hlow _].
  unfold dyadic_le in Hle. destruct (Z.leb_spec 0 e).
  - assert (Hlt : 2 ^ (bits D - 1 + e) < 2 ^ 53).
    { rewrite Z.pow_add_r by (pose proof (bits_nonneg D); lia).
      pose proof (pow2_pos e H). nia. }
    apply Z.pow_lt_mono_r_iff in Hlt; lia.
  - assert (Hlt : 2 ^ (bits D - 1) < 2 ^ (53 - e)).
    { replace (53 - e) with (53 + - e) by lia.
      rewrite (Z.pow_add_r 2 53 (- e)) by lia.
      pose proof (pow2_pos (- e) ltac:(lia)). nia. }
    apply Z.pow_lt_mono_r_iff in Hlt; lia.
Qed.

Lemma bits_mul_pow2 D k : 0 < D -> 0 <= k -> bits (D * 2 ^ k) = bits D + k.
Proof.
  intros HD Hk. unfold bits.
  pose proof (pow2_pos k Hk).
  rewrite !Z.abs_eq by nia. rewrite Z.log2_mul_pow2 by lia. lia.
Qed.

(** Rounding does not cross an integer that is a double: below. *)
Lemma float_round_le D e c :
  0 <= c < 2 ^ 53 -> dyadic_le D e c -> float_gt_int (float_round D e) c = false.
Proof.
  intros [Hc0 Hc] Hle. unfold float_round.
  destruct (Z.eqb_spec D 0) as [->|HD0].
  { simpl. apply Z.ltb_ge. lia. }
  set (e' := Z.max (bits D + e - 53) (-1074)).
  set (n := if e' <=? e then D * 2 ^ (e - e') else round_half_even D (e' - e)).
  destruct (Z.ltb_spec D 0) as [Hneg|Hpos].
  - (* a negative value *)
    assert (Hn : n <= 0).
    { subst n. destruct (Z.leb_spec e' e).
      - pose proof (pow2_pos (e - e') ltac:(lia)). nia.
      - apply round_half_even_le; lia. }
    destruct (1024 <? bits n + e'); [reflexivity|].
    now apply float_gt_int_nonpos.
  - assert (HD : 0 < D) by lia.
    pose proof (dyadic_le_bits D e c HD Hc Hle) as Hbits.
    assert (He' : e' <= 0) by (subst e'; lia).
    assert (Hpe' : 0 < 2 ^ (- e')) by (apply pow2_pos; lia).
    assert (Hn : 0 <= n <= c * 2 ^ (- e')).
    { subst n. unfold dyadic_le in Hle. destruct (Z.leb_spec e' e) as [Hex|Hrd].
      - pose proof (pow2_pos (e - e') ltac:(lia)). split; [nia|].
        destruct (Z.leb_spec 0 e) as [He|He].
        + rewrite (pow2_split e (e - e')) by lia.
          replace (e - e' - e) with (- e') by lia.
          pose proof (pow2_pos e He). nia.
        + rewrite (pow2_split (e - e') (- e')) by lia.
          replace (- e' - (e - e')) with (- e) by lia. nia.
      - split; [apply round_half_even_ge; lia|].
        apply round_half_even_le; [lia|].
        destruct (Z.leb_spec 0 e) as [He|He]; [lia|].
        rewrite <- Z.mul_assoc, <- Z.pow_add_r by lia.
        now replace (- e' + (e' - e)) with (- e) by lia. }
    assert (Hov : bits n + e' <= 1024).
    { assert (bits n <= 53 - e'); [|lia].
      apply bits_le; [|lia]. split; [lia|].
      replace (53 - e') with (53 + - e') by lia.
      rewrite (Z.pow_add_r 2 53 (- e')) by lia. nia. }
    destruct (Z.ltb_spec 1024 (bits n + e')); [lia|].
    unfold float_gt_int. destruct (Z.leb_spec 0 e').
    + assert (e' = 0) by lia. apply Z.ltb_ge.
      replace (- e') with 0 in Hn by lia. replace e' with 0 by lia. simpl in *. lia.
    + apply Z.ltb_ge. lia.
Qed.

Lemma dyadic_ge_pos D e K : 0 < K -> dyadic_ge D e K -> 0 < D.
Proof.
  intros HK H. unfold dyadic_ge in H. destruct (Z.leb_spec 0 e).
  - pose proof (pow2_pos e H0). nia.
  - pose proof (pow2_pos (- e) ltac:(lia)). nia.
Qed.

(** Rounding does not cross an integer that is a double: above. *)
Lemma float_round_ge D e c :
  0 <= c < 2 ^ 53 -> dyadic_ge D e (c + 1) -> float_gt_int (float_round D e) c = true.
Proof.
  intros [Hc0 Hc] Hge. unfold float_round.
  assert (HD : 0 < D) by (apply (dyadic_ge_pos D e (c + 1)); [lia|assumption]).
  destruct (Z.eqb_spec D 0) as [->|_]; [lia|].
  set (e' := Z.max (bits D + e - 53) (-1074)).
  set (n := if e' <=? e then D * 2 ^ (e - e') else round_half_even D (e' - e)).
  destruct (Z.ltb_spec D 0) as [?|_]; [lia|].
  destruct (1024 <? bits n + e'); [reflexivity|].
  unfold float_gt_int, dyadic_ge in *.
  destruct (bits_spec D HD) as [Hlow _].
  subst n. destruct (Z.leb_spec e' e) as [Hex|Hrd].
  - (* exact *)
    pose proof (pow2_pos (e - e') ltac:(lia)) as Hp.
    destruct (Z.leb_spec 0 e') as [He'|He'].
    + apply Z.ltb_lt. destruct (Z.leb_spec 0 e) as [He|He]; [|lia].
      rewrite <- Z.mul_assoc, <- Z.pow_add_r by lia.
      replace (e - e' + e') with e by lia. lia.
    + apply Z.ltb_lt. pose proof (pow2_pos (- e') ltac:(lia)).
      destruct (Z.leb_spec 0 e) as [He|He].
      * rewrite (pow2_split e (e - e')) by lia.
        replace (e - e' - e) with (- e') by lia.
        pose proof (pow2_pos e He). nia.
      * rewrite (pow2_split (e - e') (- e')) by lia.
        replace (- e' - (e - e')) with (- e) by lia. nia.
  - (* rounded *)
    destruct (Z.leb_spec 0 e') as [He'|He'].
    + apply Z.ltb_lt.
      destruct (Z.le_gt_cases e' 0) as [Hz|Hpos'].
      * assert (e' = 0) by lia.
        assert (c + 1 <= round_half_even D (e' - e));
          [|replace (2 ^ e') with 1 by (replace e' with 0 by lia; reflexivity); lia].
        apply round_half_even_ge; [lia|].
        destruct (Z.leb_spec 0 e) as [He|He]; [lia|].
        now replace (e' - e) with (- e) by lia.
      * assert (He'eq : e' = bits D + e - 53) by (subst e'; lia).
        assert (2 ^ 52 <= round_half_even D (e' - e)).
        { apply round_half_even_ge; [lia|].
          rewrite <- Z.pow_add_r by lia.
          now replace (52 + (e' - e)) with (bits D - 1) by lia. }
        pose proof (pow2_pos e' He').
        assert (2 <= 2 ^ e').
        { change 2 with (2 ^ 1) at 1. apply Z.pow_le_mono_r; lia. }
        change (2 ^ 53) with (2 ^ 52 * 2) in Hc. nia.
    + apply Z.ltb_lt. pose proof (pow2_pos (- e') ltac:(lia)).
      assert ((c + 1) * 2 ^ (- e') <= round_half_even D (e' - e)); [|nia].
      apply round_half_even_ge; [lia|].
      destruct (Z.leb_spec 0 e) as [He|He]; [lia|].
      rewrite <- Z.mul_assoc, <- Z.pow_add_r by lia.
      now replace (- e' + (e' - e)) with (- e) by lia.
Qed.

(** An [int] from [2^1024] on is too large for a float. *)
Lemma float_of_int_overflow z : 2 ^ 1024 <= z -> float_of_int z = None.
Proof.
  intros Hz. unfold float_of_int, float_round.
  assert (Hpos : 0 < z) by (pose proof (pow2_pos 1024 ltac:(lia)); lia).
  destruct (Z.eqb_spec z 0) as [Hz0|_]; [lia|].
  destruct (bits_spec z Hpos) as [Hlow Hup].
  assert (Hbits : 1024 < bits z).
  { assert (H : 2 ^ 1024 < 2 ^ bits z) by lia.
    apply Z.pow_lt_mono_r_iff in H; [lia|lia|]. pose proof (bits_nonneg z). lia. }
  replace (Z.max (bits z + 0 - 53) (-1074)) with (bits z - 53) by lia.
  destruct (Z.leb_spec (bits z - 53) 0) as [Hle|_]; [lia|].
  set (n := round_half_even z (bits z - 53 - 0)).
  assert (Hn : 2 ^ 52 <= n).
  { apply round_half_even_ge; [lia|].
    rewrite <- Z.pow_add_r by lia.
    now replace (52 + (bits z - 53 - 0)) with (bits z - 1) by lia. }
  assert (Hbn : 53 <= bits n).
  { unfold bits. rewrite Z.abs_eq by lia.
    pose proof (Z.log2_le_mono (2 ^ 52) n Hn) as Hlog.
    rewrite Z.log2_pow2 in Hlog by lia. lia. }
  destruct (Z.ltb_spec 1024 (bits n + (bits z - 53))); [|lia].
  reflexivity.
Qed.

(** The rational value of a finite float, in integers. *)
Lemma real_le m e c : (real (Finite m e) <= inject_Z c)%Q <-> dyadic_le m e c.
Proof.
  unfold real, dyadic_le. destruct (Z.leb_spec 0 e).
  - now rewrite <- Zle_Qle.
  - unfold Qle. simpl. rewrite Z2Pos.id by (apply pow2_pos; lia). lia.
Qed.

Lemma real_ge m e c : (inject_Z c <= real (Finite m e))%Q <-> dyadic_ge m e c.
Proof.
  unfold real, dyadic_ge. destruct (Z.leb_spec 0 e).
  - now rewrite <- Zle_Qle.
  - unfold Qle. simpl. rewrite Z2Pos.id by (apply pow2_pos; lia). lia.
Qed.

Lemma real_scale m e k :
  0 <= k -> (real (Finite (m * 2 ^ k) (e - k)) == real (Finite m e))%Q.
Proof.
  intros Hk. unfold real.
  destruct (Z.leb_spec 0 (e - k)); destruct (Z.leb_spec 0 e); try lia.
  - rewrite <- Z.mul_assoc, <- Z.pow_add_r by lia.
    replace (k + (e - k)) with e by lia. reflexivity.
  - unfold Qeq. simpl. rewrite Z2Pos.id by (apply pow2_pos; lia).
    rewrite (pow2_split e k) by lia.
    replace (- (e - k)) with (k - e) by lia. lia.
  - unfold Qeq. simpl. rewrite !Z2Pos.id by (apply pow2_pos; lia).
    rewrite (pow2_split k (- (e - k))) by lia.
    replace (- (e - k) - k) with (- e) by lia. lia.
Qed.

Lemma real_minus_same a b e :
  (real (Finite a e) - real (Finite b e) == real (Finite (a - b) e))%Q.
Proof.
  unfold real. destruct (0 <=? e).
  - unfold Qeq, Qminus, Qplus, Qopp, inject_Z. simpl. lia.
  - unfold Qeq, Qminus, Qplus, Qopp. simpl. rewrite Pos2Z.inj_mul. lia.
Qed.

Lemma real_minus m1 e1 m2 e2 :
  let e := Z.min e1 e2 in
  (real (Finite m1 e1) - real (Finite m2 e2)
   == real (Finite (m1 * 2 ^ (e1 - e) - m2 * 2 ^ (e2 - e)) e))%Q.
Proof.
  intros e.
  rewrite <- real_minus_same.
  pose proof (real_scale m1 e1 (e1 - e) ltac:(lia)) as H1.
  pose proof (real_scale m2 e2 (e2 - e) ltac:(lia)) as H2.
  replace (e1 - (e1 - e)) with e in H1 by lia.
  replace (e2 - (e2 - e)) with e in H2 by lia.
  now rewrite H1, H2.
Qed.

(** The rounded difference of two finite floats is not greater than an
    integer (a double) that the exact difference does not exceed, and is
    greater than it when the exact difference is at least one more. *)
Lemma float_minus_le x y c :
  finite x -> finite y -> 0 <= c < 2 ^ 53 ->
  (real x - real y <= inject_Z c)%Q ->
  float_gt_int (float_minus x y) c = false.
Proof.
  destruct x as [| |m1 e1]; try contradiction.
  destruct y as [| |m2 e2]; try contradiction.
  intros _ _ Hc Hle. rewrite real_minus in Hle. apply real_le in Hle.
  now apply float_round_le.
Qed.

Lemma float_minus_ge x y c :
  finite x -> finite y -> 0 <= c < 2 ^ 53 ->
  (inject_Z (c + 1) <= real x - real y)%Q ->
  float_gt_int (float_minus x y) c = true.
Proof.
  destruct x as [| |m1 e1]; try contradiction.
  destruct y as [| |m2 e2]; try contradiction.
  intros _ _ Hc Hge. rewrite real_minus in Hge. apply real_ge in Hge.
  now apply float_round_ge.
Qed.


Lemma bits_mul_pow2_abs D k : D <> 0 -> 0 <= k -> bits (D * 2 ^ k) = bits D + k.
Proof.
  intros HD Hk. unfold bits.
  pose proof (pow2_pos k Hk).
  rewrite Z.abs_mul, (Z.abs_eq (2 ^ k)) by lia.
  rewrite Z.log2_mul_pow2 by lia. lia.
Qed.

Lemma float_gt_int_scale D e k c :
  0 <= k -> float_gt_int (Finite (D * 2 ^ k) (e - k)) c = float_gt_int (Finite D e) c.
Proof.
  intros Hk. unfold float_gt_int.
  pose proof (pow2_pos k Hk) as Hpk.
  destruct (Z.leb_spec 0 (e - k)) as [H1|H1]; destruct (Z.leb_spec 0 e) as [H2|H2]; try lia.
  - rewrite <- Z.mul_assoc, <- Z.pow_add_r by lia.
    now replace (k + (e - k)) with e by lia.
  - rewrite (pow2_split e k) by lia.
    replace (- (e - k)) with (k - e) by lia.
    pose proof (pow2_pos e H2). pose proof (pow2_pos (k - e) ltac:(lia)).
    destruct (Z.ltb_spec (c * 2 ^ (k - e)) (D * (2 ^ e * 2 ^ (k - e))));
      destruct (Z.ltb_spec c (D * 2 ^ e)); try reflexivity; nia.
  - replace (- (e - k)) with (k + - e) by lia.
    rewrite Z.pow_add_r by lia.
    pose proof (pow2_pos (- e) ltac:(lia)).
    destruct (Z.ltb_spec (c * (2 ^ k * 2 ^ (- e))) (D * 2 ^ k));
      destruct (Z.ltb_spec (c * 2 ^ (- e)) D); try reflexivity; nia.
Qed.

(** A value of at most 53 binary digits, at a last place that a double
    can have, is not changed by rounding. *)
Lemma float_round_small D e c :
  Z.abs D < 2 ^ 53 -> -1074 <= e -> D = 0 \/ bits D + e <= 1024 ->
  float_gt_int (float_round D e) c = float_gt_int (Finite D e) c.
Proof.
  intros HD He Hov. unfold float_round.
  destruct (Z.eqb_spec D 0) as [->|Hnz].
  - unfold float_gt_int. simpl.
    destruct (Z.leb_spec 0 e); [reflexivity|].
    pose proof (pow2_pos (- e) ltac:(lia)).
    destruct (Z.ltb_spec c 0); destruct (Z.ltb_spec (c * 2 ^ (- e)) 0);
      try reflexivity; nia.
  - destruct Hov as [?|Hov]; [contradiction|].
    assert (Hb : bits D <= 53).
    { unfold bits. fold (bits (Z.abs D)).
      replace (Z.log2 (Z.abs D) + 1) with (bits (Z.abs D))
        by (unfold bits; now rewrite Z.abs_idemp).
      apply bits_le; lia. }
    set (e' := Z.max (bits D + e - 53) (-1074)).
    assert (He' : e' <= e) by (subst e'; lia).
    destruct (Z.leb_spec e' e); [|lia].
    rewrite bits_mul_pow2_abs by lia.
    destruct (Z.ltb_spec 1024 (bits D + (e - e') + e')); [lia|].
    replace e' with (e - (e - e')) at 2 by lia.
    apply float_gt_int_scale. lia.
Qed.

Lemma real_same_le a b e :
  (real (Finite a e) <= real (Finite b e))%Q <-> a <= b.
Proof.
  unfold real. destruct (Z.leb_spec 0 e).
  - rewrite <- Zle_Qle. pose proof (pow2_pos e H). nia.
  - unfold Qle. simpl. pose proof (Pos2Z.is_pos (Z.to_pos (2 ^ (- e)))). nia.
Qed.

Lemma real_gt m e c :
  (inject_Z c < real (Finite m e))%Q <-> float_gt_int (Finite m e) c = true.
Proof.
  unfold real, float_gt_int. destruct (Z.leb_spec 0 e).
  - rewrite <- Zlt_Qlt. symmetry. apply Z.ltb_lt.
  - unfold Qlt. simpl. rewrite Z2Pos.id by (apply pow2_pos; lia).
    rewrite Z.mul_1_r. symmetry. apply Z.ltb_lt.
Qed.

(** The difference of two doubles of which the greater is at most twice
    the smaller is a double: the subtraction is exact. *)
Lemma float_minus_exact x y c :
  double x -> double y ->
  (0 <= real y)%Q -> (real y <= real x)%Q -> (real x <= 2 * real y)%Q ->
  (float_gt_int (float_minus x y) c = true <-> (inject_Z c < real x - real y)%Q).
Proof.
  destruct x as [| |m1 e1]; try contradiction.
  destruct y as [| |m2 e2]; try contradiction.
  intros [Hm1 He1] [Hm2 He2] Hy Hyx Hxy.
  rewrite real_minus. cbn [float_minus].
  set (e := Z.min e1 e2) in *.
  set (A := m1 * 2 ^ (e1 - e)). set (B := m2 * 2 ^ (e2 - e)).
  assert (HA : (real (Finite m1 e1) == real (Finite A e))%Q).
  { pose proof (real_scale m1 e1 (e1 - e) ltac:(lia)) as H.
    replace (e1 - (e1 - e)) with e in H by lia. symmetry. exact H. }
  assert (HB : (real (Finite m2 e2) == real (Finite B e))%Q).
  { pose proof (real_scale m2 e2 (e2 - e) ltac:(lia)) as H.
    replace (e2 - (e2 - e)) with e in H by lia. symmetry. exact H. }
  assert (HB0 : 0 <= B).
  { apply (real_same_le 0 B e). rewrite <- HB.
    assert (Hz : (real (Finite 0 e) == 0)%Q)
      by (unfold real; destruct (0 <=? e); reflexivity).
    now rewrite Hz. }
  assert (HBA : B <= A) by (apply (real_same_le B A e); now rewrite <- HA, <- HB).
  assert (HA2 : A <= 2 * B).
  { apply (real_same_le A (2 * B) e). rewrite <- HA.
    assert (H2 : (real (Finite (2 * B) e) == 2 * real (Finite B e))%Q).
    { unfold real. destruct (0 <=? e).
      - unfold Qeq, Qmult, inject_Z. simpl. lia.
      - unfold Qeq, Qmult. simpl. lia. }
    now rewrite H2, <- HB. }
  rewrite float_round_small.
  - symmetry. apply real_gt.
  - (* at most 53 binary digits *)
    rewrite Z.abs_eq by lia.
    destruct (Z.le_ge_cases e1 e2) as [Hle|Hge].
    + assert (A = m1).
      { subst A e. rewrite Z.min_l by lia. rewrite Z.sub_diag. lia. }
      lia.
    + assert (B = m2).
      { subst B e. rewrite Z.min_r by lia. rewrite Z.sub_diag. lia. }
      lia.
  - subst e. lia.
  - destruct (Z.eq_dec (A - B) 0) as [Hz|Hnz]; [now left|right].
    assert (Hlt : A - B < 2 ^ (53 + (e1 - e))).
    { rewrite Z.pow_add_r by lia. pose proof (pow2_pos (e1 - e) ltac:(lia)).
      subst A. nia. }
    assert (bits (A - B) <= 53 + (e1 - e)); [|lia].
    apply bits_le; lia.
Qed.

Lemma double_finite x : double x -> finite x.
Proof. destruct x; simpl; tauto. Qed.

(** For doubles, and a second one that is at least 604801, the float test
    [x - y > 604800] is the exact one. *)
Lemma float_minus_ttl x y :
  double x -> double y -> (604801 <= real y)%Q ->
  (float_gt_int (float_minus x y) 604800 = true <-> (604800 < real x - real y)%Q).
Proof.
  intros Hx Hy Hpast.
  pose proof (double_finite x Hx) as Hfx. pose proof (double_finite y Hy) as Hfy.
  split.
  - intros Hgt. destruct (Qlt_le_dec 604800 (real x - real y)) as [H|H]; [exact H|].
    rewrite (float_minus_le x y 604800 Hfx Hfy) in Hgt; [discriminate|lia|exact H].
  - intros Hold. destruct (Qlt_le_dec (2 * real y) (real x)) as [Hfar|Hnear].
    + apply (float_minus_ge x y 604800 Hfx Hfy); [lia|].
      change (inject_Z (604800 + 1)) with 604801%Q. lra.
    + apply (float_minus_exact x y 604800 Hx Hy); [lra|lra|exact Hnear|exact Hold].
Qed.

(** Values of the interpreter: [float(2**53 + 1)] is [2.0**53], the
    largest [int] that converts is just below [2**1024 - 2**970], and
    [(604800 + 2**-33) - 2**-34] is [604800.0], a tie that goes to the even
    mantissa, although the exact difference is greater than 604800. *)
Example float_of_int_rounds :
  float_of_int (2 ^ 53 + 1) = Some (Finite (2 ^ 52) 1) /\
  float_of_int (2 ^ 1024 - 2 ^ 970 - 1) = Some (Finite (2 ^ 53 - 1) 971) /\
  float_of_int (2 ^ 1024 - 2 ^ 970) = None /\
  float_of_int (10 ^ 400) = None.
Proof. vm_compute. repeat split; reflexivity. Qed.

Example float_minus_rounds :
  let now := Finite (604800 * 2 ^ 33 + 1) (-33) in
  let t := Finite 1 (-34) in
  float_minus now t = Finite (604800 * 2 ^ 33) (-33) /\
  float_gt_int (float_minus now t) 604800 = false /\
  (604800 < real now - real t)%Q.
Proof. vm_compute. repeat split; reflexivity. Qed.

Example float_minus_special :
  float_minus (Finite 1 0) NaN = NaN /\
  float_minus (Finite 1 0) (Inf false) = Inf true /\
  float_minus (Inf false) (Inf false) = NaN /\
  float_minus (Finite (2 ^ 53 - 1) 971) (Finite (- (2 ^ 53 - 1)) 971) = Inf false /\
  float_gt_int NaN 604800 = false /\
  float_gt_int (Inf false) 604800 = true.
Proof. vm_compute. repeat split; reflexivity. Qed.

(** *** Cache *)

Lemma CACHE_TTL_SECONDS_value : Index.CACHE_TTL_SECONDS = 604800.
Proof. reflexivity. Qed.

(** What [get_cached_transcript] does on an entry that is a JSON object:
    the exception of the subtraction passes; an expired entry is removed,
    if it can be, and answered with absent; of any other one the
    ["segments"] are returned. *)
Lemma get_cached_transcript_object (w : Index.world) (video_id : str) fields :
  Index.files w !! Index.cache_file_of video_id = Some (Index.Object fields) ->
  Index.get_cached_transcript video_id w
  = match expired (Index.clock w) fields with
    | Raise e => (Raise e, w)
    | Ok true =>
        match Index.removes w with
        | Index.RemoveOk => (Ok Index.VNone, without_entry video_id w)
        | Index.RemoveFails => (Ok Index.VNone, w)
        end
    | Ok false => (Ok (default Index.VNone (fields !! str_of "segments")), w)
    end.
Proof.
  intros Hfile.
  unfold Index.get_cached_transcript, Index.bind, Index.try_except,
    Index.os_path_exists, Index.open_json_load, Index.time_time, Index.lift.
  rewrite Hfile. simpl. rewrite Hfile.
  unfold expired, cached_at_of, Index.dict_get at 1. unfold Index.ret at 1.
  unfold default.
  destruct (Index.float_sub (Index.clock w) _) as [age|e] eqn:Esub.
  - destruct (Index.gt age Index.CACHE_TTL_SECONDS).
    + unfold Index.bind, Index.os_remove, without_entry. rewrite Hfile.
      now destruct (Index.removes w).
    + simpl. now destruct (fields !! str_of "segments").
  - assert (He : e = TypeError \/ e = OverflowError).
    { unfold Index.float_sub in Esub.
      destruct (match fields !! str_of "cached_at" with Some v => v | None => Index.VInt 0 end)
        as [| b | z | x | s | l]; try (injection Esub as <-; now left); try discriminate.
      - destruct (float_of_int _); [discriminate|injection Esub as <-; now right].
      - destruct (float_of_int _); [discriminate|injection Esub as <-; now right]. }
    destruct He as [-> | ->]; reflexivity.
Qed.

(** An unreadable file or invalid JSON is a cache miss, and stays. *)
Lemma get_cached_transcript_miss (w : Index.world) (video_id : str) :
  Index.files w !! Index.cache_file_of video_id = None \/
  Index.files w !! Index.cache_file_of video_id = Some Index.Unreadable \/
  Index.files w !! Index.cache_file_of video_id = Some Index.Malformed ->
  Index.get_cached_transcript video_id w = (Ok Index.VNone, w).
Proof.
  unfold Index.get_cached_transcript, Index.bind, Index.try_except,
    Index.os_path_exists, Index.open_json_load.
  intros [H|[H|H]]; rewrite H; simpl; try rewrite H; reflexivity.
Qed.

(** The expiry test in exact arithmetic, for an entry whose ["cached_at"]
    is a finite float [t] (what [save_to_cache] writes): it is false when
    [now - t <= 604800] and true when [604801 <= now - t]. *)
Lemma expired_float (now t : float) fields :
  fields !! str_of "cached_at" = Some (Index.VFloat t) ->
  finite now -> finite t ->
  ((real now - real t <= 604800)%Q -> expired now fields = Ok false) /\
  ((604801 <= real now - real t)%Q -> expired now fields = Ok true).
Proof.
  intros Hat Hnow Ht. unfold expired, cached_at_of. rewrite Hat. simpl.
  unfold Index.gt. rewrite CACHE_TTL_SECONDS_value. split; intros H.
  - now rewrite (float_minus_le now t 604800 Hnow Ht) by (try exact H; lia).
  - now rewrite (float_minus_ge now t 604800 Hnow Ht) by (try exact H; lia).
Qed.

(** For doubles, and an entry written at 604801 or later (any time from
    8 January 1970 on), the test is the exact one. *)
Lemma expired_double (now t : float) fields :
  fields !! str_of "cached_at" = Some (Index.VFloat t) ->
  double now -> double t -> (604801 <= real t)%Q ->
  (expired now fields = Ok true <-> (604800 < real now - real t)%Q).
Proof.
  intros Hat Hnow Ht Hpast. unfold expired, cached_at_of. rewrite Hat. simpl.
  unfold Index.gt. rewrite CACHE_TTL_SECONDS_value.
  rewrite <- (float_minus_ttl now t Hnow Ht Hpast).
  destruct (float_gt_int (float_minus now t) 604800); split; congruence.
Qed.








(** *** Writing the cache, and the entry point *)

(** Once the directory is there, a failure to write the file is swallowed. *)
Lemma save_to_cache_swallows_write (w : Index.world) video_id segments :
  Index.cache_dir w <> Index.DirBlocked ->
  fst (Index.save_to_cache video_id segments w) = Ok tt.
Proof.
  intros Hdir.
  unfold Index.save_to_cache, Index.bind, Index.try_except, Index.os_makedirs,
    Index.time_time, Index.open_json_dump.
  destruct (Index.cache_dir w) eqn:Edir; try congruence; simpl;
    rewrite ?Edir; destruct (Index.writes w); reflexivity.
Qed.

(** A directory that cannot be created is not: [os.makedirs] stands before
    the [try], and its [OSError] leaves [save_to_cache]. *)
Lemma save_to_cache_blocked (w : Index.world) video_id segments :
  Index.cache_dir w = Index.DirBlocked ->
  Index.save_to_cache video_id segments w = (Raise OSError, w).
Proof.
  intros Hdir.
  unfold Index.save_to_cache, Index.bind, Index.os_makedirs.
  now rewrite Hdir.
Qed.

Lemma fetch_transcript_english (w : Index.world) video_id segments :
  Index.fetch_result (Index.youtube w) video_id en = Ok segments ->
  Index.fetch_transcript video_id w
  = (Ok segments, Index.log_call (Index.CallFetch video_id en) w).
Proof.
  intros H.
  unfold Index.fetch_transcript, Index.bind, Index.try_except, Index.api_fetch.
  fold en. now rewrite H.
Qed.

(** On a cache miss with a successful fetch, the run ends as the state of
    the cache directory decides: if it is there or can be created, the
    transcript is formatted, chunked and printed, whether the cache file
    could be written or not; if it cannot be created, the run ends with the
    "unexpected error" report. *)
Lemma main_after_fetch (w : Index.world) prog raw_input video_id segments :
  Extractor.extract_video_id raw_input = Ok video_id ->
  Index.files w !! Index.cache_file_of video_id = None ->
  Index.fetch_result (Index.youtube w) video_id en = Ok segments ->
  fst (Index.main [prog; raw_input] w)
  = match Index.cache_dir w with
    | Index.DirBlocked => Index.Failure (Index.Unexpected OSError)
    | _ => Index.emit video_id (Index.VSegments segments)
    end.
Proof.
  intros Hid Hmiss Hfetch. unfold Index.main. rewrite Hid.
  unfold Index.load_transcript, Index.bind at 1.
  rewrite get_cached_transcript_miss by now left.
  unfold Index.bind at 1. rewrite (fetch_transcript_english w video_id segments Hfetch).
  unfold Index.bind, Index.ret.
  destruct (Index.cache_dir w) eqn:Edir.
  - pose proof (save_to_cache_swallows_write
                  (Index.log_call (Index.CallFetch video_id en) w) video_id segments) as H.
    simpl in H. rewrite Edir in H. specialize (H ltac:(discriminate)).
    destruct (Index.save_to_cache _ _ _) as [[[]|e] w']; simpl in H; [reflexivity|discriminate].
  - pose proof (save_to_cache_swallows_write
                  (Index.log_call (Index.CallFetch video_id en) w) video_id segments) as H.
    simpl in H. rewrite Edir in H. specialize (H ltac:(discriminate)).
    destruct (Index.save_to_cache _ _ _) as [[[]|e] w']; simpl in H; [reflexivity|discriminate].
  - rewrite save_to_cache_blocked by exact Edir. reflexivity.
Qed.

(** C2: with a cache directory that is missing and cannot be created, the
    transcript of the example video is fetched, but the [OSError] of
    [os.makedirs] leaves [save_to_cache] and the run ends with the
    "unexpected error" report instead of the transcript; with a directory
    that can be created the same run prints the transcript, whatever
    happens to the write of the file. *)
Theorem main_cache_dir_blocked :
  Index.fetch_transcript example_id blocked_world
    = (Ok example_segments,
       Index.log_call (Index.CallFetch example_id en) blocked_world) /\
  fst (Index.save_to_cache example_id example_segments blocked_world)
    = Raise OSError /\
  fst (Index.main example_argv blocked_world)
    = Index.Failure (Index.Unexpected OSError) /\
  (forall wr,
     fst (Index.main example_argv (example_world ∅ Index.DirAbsent wr))
     = Index.Success (Index.Plain (str_of "[01:05] hi"))).
Proof.
  split; [|split; [|split]].
  - vm_compute. reflexivity.
  - vm_compute. reflexivity.
  - vm_compute. reflexivity.
  - intros wr. destruct wr; vm_compute; reflexivity.
Qed.

(** A cache file that is not UTF-8 is not a cache miss: the
    [UnicodeDecodeError] is not among the caught exceptions. *)
Lemma get_cached_transcript_undecodable (w : Index.world) video_id :
  Index.files w !! Index.cache_file_of video_id = Some Index.Undecodable ->
  Index.get_cached_transcript video_id w = (Raise UnicodeDecodeError, w).
Proof.
  intros H.
  unfold Index.get_cached_transcript, Index.bind, Index.try_except,
    Index.os_path_exists, Index.open_json_load.
  rewrite H. simpl. now rewrite H.
Qed.

(** At the very time it was written, an entry is not expired. *)
Lemma expired_same (now : float) fields :
  fields !! str_of "cached_at" = Some (Index.VFloat now) ->
  expired now fields = Ok false.
Proof.
  intros Hat. unfold expired, cached_at_of. rewrite Hat.
  change (default (Index.VInt 0) (Some (Index.VFloat now))) with (Index.VFloat now).
  cbn [Index.float_sub]. destruct now as [| b | m e]; cbn [float_minus].
  - reflexivity.
  - now destruct b.
  - rewrite Z.min_id, (Z.sub_diag (m * 2 ^ (e - e))). reflexivity.
Qed.

(** Round trip: what [save_to_cache] writes, [get_cached_transcript] reads
    back, until the entry expires. *)
Lemma cache_round_trip (w : Index.world) video_id segments :
  Index.cache_dir w <> Index.DirBlocked ->
  Index.writes w = Index.WriteOk ->
  let w' := snd (Index.save_to_cache video_id segments w) in
  Index.get_cached_transcript video_id w' = (Ok (Index.VSegments segments), w').
Proof.
  intros Hdir Hwr w'.
  assert (Hfile : Index.files w' !! Index.cache_file_of video_id
                  = Some (Index.Object (entry_of video_id (Index.clock w) segments))
                  /\ Index.clock w' = Index.clock w).
  { subst w'.
    unfold Index.save_to_cache, Index.bind, Index.try_except, Index.os_makedirs,
      Index.time_time, Index.open_json_dump.
    destruct (Index.cache_dir w) eqn:Edir; try congruence; simpl;
      rewrite ?Edir, Hwr; simpl; split; try reflexivity; apply lookup_insert_eq. }
  destruct Hfile as [Hfile Hclock].
  rewrite (get_cached_transcript_object w' video_id _ Hfile), Hclock.
  rewrite expired_same; reflexivity.
Qed.

(** * Further properties *)

(** ** The chunker: size bound and greediness *)

Lemma greedy_app_line max_chars (gs : list (list str)) (c : list str) (line : str) :
  c <> [] -> greedy max_chars (gs ++ [c]) -> greedy max_chars (gs ++ [c ++ [line]]).
Proof.
  intros Hc. induction gs as [|g gs IH]; simpl.
  - intros _. split; exact I.
  - intros [Hhead Htail]. split; [|now apply IH].
    destruct gs as [|g' gs]; simpl in *.
    + destruct c as [|l c]; [congruence|exact Hhead].
    + exact Hhead.
Qed.

Lemma greedy_close max_chars (gs : list (list str)) (c : list str) (line : str) :
  max_chars < lines_length c + (len line + 1) ->
  greedy max_chars (gs ++ [c]) -> greedy max_chars ((gs ++ [c]) ++ [[line]]).
Proof.
  intros Hover. induction gs as [|g gs IH]; simpl.
  - intros _. split; [exact Hover|]. split; exact I.
  - intros [Hhead Htail]. split; [|now apply IH].
    destruct gs as [|g' gs]; simpl in *; exact Hhead.
Qed.

Lemma greedy_inv_step max_chars seen st line :
  greedy_inv max_chars seen st ->
  greedy_inv max_chars (seen ++ [line]) (Chunker.step max_chars st line).
Proof.
  destruct st as [cs cur cl].
  intros (groups & Hc & Hne & Hseen & Hlen & Hstart & Hgreedy). simpl in *.
  unfold Chunker.step, greedy_inv. simpl.
  destruct (Z.ltb_spec max_chars (cl + (len line + 1))) as [Hover|Hfits];
    destruct cur as [|l0 cur]; simpl.
  - rewrite (Hstart eq_refl) in *. exists []. simpl in *.
    split; [assumption|]. split; [constructor|]. split; [now rewrite <- Hseen|].
    split; [lia|]. split; [discriminate|]. unfold open_groups. simpl. tauto.
  - exists (groups ++ [l0 :: cur]). repeat split.
    + rewrite Hc, List.map_app. reflexivity.
    + apply Forall_app. split; [assumption|]. constructor; [discriminate|constructor].
    + rewrite concat_app. simpl. rewrite app_nil_r.
      rewrite <- Hseen. now rewrite <- app_assoc.
    + lia.
    + discriminate.
    + unfold open_groups in *. cbn [is_nil] in *.
      apply greedy_close; [rewrite <- Hlen; exact Hover|assumption].
  - rewrite (Hstart eq_refl) in *. exists []. simpl in *.
    split; [assumption|]. split; [constructor|]. split; [now rewrite <- Hseen|].
    split; [lia|]. split; [discriminate|]. unfold open_groups. simpl. tauto.
  - exists groups. repeat split; try assumption.
    + rewrite <- Hseen. now rewrite <- app_assoc.
    + rewrite Hlen. change (l0 :: cur ++ [line]) with ((l0 :: cur) ++ [line]).
      rewrite lines_length_app. simpl. lia.
    + discriminate.
    + unfold open_groups in *. cbn [is_nil app] in *.
      apply (greedy_app_line max_chars groups (l0 :: cur) line); [discriminate|assumption].
Qed.

Lemma greedy_inv_fold max_chars lines : forall seen st,
  greedy_inv max_chars seen st ->
  greedy_inv max_chars (seen ++ lines) (fold_left (Chunker.step max_chars) lines st).
Proof.
  induction lines as [|line lines IH]; intros seen st Hinv; simpl.
  - now rewrite app_nil_r.
  - replace (seen ++ line :: lines) with ((seen ++ [line]) ++ lines)
      by now rewrite <- app_assoc.
    apply IH. now apply greedy_inv_step.
Qed.

Lemma greedy_lookup max_chars (groups : list (list str)) :
  greedy max_chars groups ->
  forall (i : nat) g l g',
    groups !! i = Some g -> groups !! S i = Some (l :: g') ->
    max_chars < lines_length g + (len l + 1).
Proof.
  induction groups as [|g0 groups IH]; intros Hgreedy i g l g' Hi HSi;
    [discriminate|].
  destruct Hgreedy as [Hhead Htail]. destruct i as [|i]; simpl in *.
  - injection Hi as <-. destruct groups as [|g1 groups]; [discriminate|].
    simpl in HSi. injection HSi as ->. exact Hhead.
  - eapply IH; eassumption.
Qed.

(** The chunks are the joins of consecutive non-empty groups of lines, and no
    group could have taken the first line of the next one. *)
Lemma chunk_transcript_greedy_groups (text : str) (max_chars : Z) :
  text <> [] ->
  exists groups : list (list str),
    Chunker.chunk_transcript text max_chars = List.map (str_join nl) groups /\
    Forall (fun g => g <> []) groups /\
    concat groups = str_split nl text /\
    greedy max_chars groups.
Proof.
  intros Hne. unfold Chunker.chunk_transcript.
  replace (is_nil text) with false by (destruct text; [congruence|reflexivity]).
  destruct (Z.leb_spec (len text) max_chars) as [Hfit|Hbig].
  - exists [str_split nl text]. repeat split.
    + simpl. now rewrite str_join_split.
    + constructor; [apply str_split_nonempty|constructor].
    + simpl. now rewrite app_nil_r.
  - pose proof (greedy_inv_fold max_chars (str_split nl text) []
                  (Chunker.mkState [] [] 0)) as Hinv.
    destruct Hinv as (groups & Hc & Hnonempty & Hseen & Hlen & Hstart & Hgreedy).
    { exists []. simpl. unfold open_groups. simpl. repeat split; constructor. }
    simpl in Hseen. cbv zeta. unfold open_groups in Hgreedy.
    destruct (Chunker.current_chunk _) as [|l0 cur] eqn:Ecur; simpl in *.
    + exists groups. rewrite app_nil_r in Hseen. now repeat split.
    + exists (groups ++ [l0 :: cur]). repeat split.
      * rewrite Hc, List.map_app. reflexivity.
      * apply Forall_app. split; [assumption|]. constructor; [discriminate|constructor].
      * rewrite concat_app. simpl. now rewrite app_nil_r.
      * assumption.
Qed.

(** X1: when no line of the text is longer than [max_chars], no chunk is
    longer than [max_chars]. *)
Theorem chunk_transcript_bounded (text : str) (max_chars : Z) :
  Forall (fun line => len line <= max_chars) (str_split nl text) ->
  Forall (fun chunk => len chunk <= max_chars)
         (Chunker.chunk_transcript text max_chars).
Proof.
  intros Hlines. destruct text as [|c0 text0]; [constructor|].
  destruct (chunk_transcript_groups (c0 :: text0) max_chars) as (groups & -> & Hok & Hcat);
    [discriminate|].
  rewrite <- Hcat in Hlines. clear Hcat.
  induction groups as [|g gs IH]; [constructor|].
  inversion Hok as [|? ? [Hg Hfit] Hoks]; subst.
  simpl in Hlines. apply Forall_app in Hlines as [Hg_lines Hgs_lines].
  simpl. constructor; [|now apply IH].
  destruct g as [|l [|l' g]]; [congruence| |].
  - simpl. now inversion Hg_lines.
  - apply Hfit. simpl. lia.
Qed.

Lemma chunk_transcript_bounded_witness :
  Forall (fun chunk => len chunk <= 4)
         (Chunker.chunk_transcript (str_of "ab" ++ nl :: str_of "cd" ++ nl :: str_of "e") 4).
Proof.
  apply (chunk_transcript_bounded (str_of "ab" ++ nl :: str_of "cd" ++ nl :: str_of "e") 4).
  vm_compute. repeat constructor; discriminate.
Defined.

(** X2: the chunker is greedy.  The chunks are the joins of consecutive
    groups of the lines, and a chunk followed by another could not have
    taken the first line of that one: its length, the newline, the line and
    the newline after it exceed [max_chars]. *)
Theorem chunk_transcript_greedy (text : str) (max_chars : Z) :
  text <> [] ->
  exists groups : list (list str),
    Chunker.chunk_transcript text max_chars = List.map (str_join nl) groups /\
    concat groups = str_split nl text /\
    forall (i : nat) g l g',
      groups !! i = Some g -> groups !! S i = Some (l :: g') ->
      max_chars < len (str_join nl g) + 1 + (len l + 1).
Proof.
  intros Hne.
  destruct (chunk_transcript_greedy_groups text max_chars Hne)
    as (groups & Hc & Hnonempty & Hcat & Hgreedy).
  exists groups. split; [assumption|]. split; [assumption|].
  intros i g l g' Hi HSi.
  pose proof (greedy_lookup max_chars groups Hgreedy i g l g' Hi HSi) as H.
  rewrite len_str_join; [lia|].
  rewrite List.Forall_forall in Hnonempty. apply Hnonempty.
  apply list_elem_of_In. eapply list_elem_of_lookup_2. exact Hi.
Qed.

Lemma chunk_transcript_greedy_witness :
  exists groups : list (list str),
    Chunker.chunk_transcript (str_of "ab" ++ nl :: str_of "cd" ++ nl :: str_of "e") 4
      = List.map (str_join nl) groups /\
    concat groups = str_split nl (str_of "ab" ++ nl :: str_of "cd" ++ nl :: str_of "e") /\
    forall (i : nat) g l g',
      groups !! i = Some g -> groups !! S i = Some (l :: g') ->
      4 < len (str_join nl g) + 1 + (len l + 1).
Proof.
  apply (chunk_transcript_greedy (str_of "ab" ++ nl :: str_of "cd" ++ nl :: str_of "e") 4).
  discriminate.
Defined.

(** ** The formatter: empty output and timestamps *)

Lemma str_join_nonempty (l : str) (ls : list str) :
  l <> [] -> str_join nl (l :: ls) <> [].
Proof.
  intros Hl. destruct ls as [|l' ls]; simpl; [assumption|].
  destruct l; [congruence|discriminate].
Qed.

(** X3: [format_transcript] returns the empty string exactly when every
    segment has an empty or whitespace-only text (in particular for the
    empty list): one segment with visible text makes the result non-empty. *)
Theorem format_transcript_empty_iff (segs : list Formatter.segment) :
  Formatter.format_transcript segs = []
  <-> Forall (fun seg => forallb is_space (Formatter.text seg) = true) segs.
Proof.
  rewrite format_transcript_map. split.
  - intros Hempty. apply List.Forall_forall. intros seg Hin.
    destruct (forallb is_space (Formatter.text seg)) eqn:E; [reflexivity|].
    exfalso.
    assert (Hr : rendered seg = true).
    { unfold rendered. destruct (strip (Formatter.text seg)) eqn:Es; [|reflexivity].
      apply strip_nil_iff in Es. congruence. }
    assert (Hin' : In seg (List.filter rendered segs))
      by (apply List.filter_In; now split).
    destruct (List.filter rendered segs) as [|seg0 segs0]; [contradiction|].
    simpl in Hempty. apply str_join_nonempty in Hempty; [assumption|].
    unfold render_line. discriminate.
  - intros Hall.
    replace (List.filter rendered segs) with (@nil Formatter.segment); [reflexivity|].
    induction Hall as [|seg segs Hseg _ IH]; [reflexivity|].
    simpl. unfold rendered at 1. apply strip_nil_iff in Hseg. now rewrite Hseg.
Qed.

Lemma format_transcript_empty_iff_witness :
  Formatter.format_transcript
    [Formatter.mkSegment (str_of "  ") (0 # 1) (1 # 1);
     Formatter.mkSegment [] (5 # 1) (1 # 1)] = [].
Proof.
  apply (proj2 (format_transcript_empty_iff
                  [Formatter.mkSegment (str_of "  ") (0 # 1) (1 # 1);
                   Formatter.mkSegment [] (5 # 1) (1 # 1)])).
  repeat constructor.
Defined.

Lemma digit_value_digit d : 0 <= d <= 9 -> digit_value (digit d) = d.
Proof. intros H. unfold digit_value, digit. rewrite Z2N.id; lia. Qed.

Lemma two_digits_value n :
  0 <= n < 100 ->
  exists d1 d2, two_digits n = [d1; d2] /\ 10 * digit_value d1 + digit_value d2 = n.
Proof.
  intros Hn. exists (digit (n / 10)), (digit (n mod 10)). split; [reflexivity|].
  pose proof (Z.mod_pos_bound n 10 ltac:(lia)).
  assert (0 <= n / 10 <= 9).
  { split; [apply Z.div_pos; lia|].
    assert (n / 10 < 10) by (apply Z.div_lt_upper_bound; lia). lia. }
  rewrite !digit_value_digit by lia.
  pose proof (Z.div_mod n 10 ltac:(lia)). lia.
Qed.

(** Reading back the timestamp of a time below one hundred hours gives the
    whole seconds of that time. *)
Lemma timestamp_seconds_round_trip (seconds : Q) :
  0 <= Formatter.py_int seconds < 360000 ->
  timestamp_seconds (Formatter.seconds_to_timestamp seconds)
  = Some (Formatter.py_int seconds).
Proof.
  intros [Hlo Hhi]. set (total := Formatter.py_int seconds) in *.
  destruct (timestamp_fields total) as [Hm Hs].
  destruct (two_digits_value (total mod 3600 / 60) Hm) as (m1 & m2 & Em & Vm).
  destruct (two_digits_value (total mod 60) Hs) as (s1 & s2 & Es & Vs).
  assert (Hmins : 0 <= total mod 3600 / 60 < 60).
  { pose proof (Z.mod_pos_bound total 3600 ltac:(lia)).
    split; [apply Z.div_pos; lia|apply Z.div_lt_upper_bound; lia]. }
  assert (Hsplit : total = 3600 * (total / 3600) + 60 * (total mod 3600 / 60)
                           + total mod 60).
  { pose proof (Z.div_mod total 3600 ltac:(lia)) as H1.
    pose proof (Z.div_mod (total mod 3600) 60 ltac:(lia)) as H2.
    assert (H3 : (total mod 3600) mod 60 = total mod 60).
    { apply Z.mod_mod_divide. exists 60. reflexivity. }
    lia. }
  destruct (Z.lt_ge_cases total 3600) as [Hsmall|Hbig].
  - rewrite seconds_to_timestamp_minutes by exact Hsmall. fold total.
    rewrite Em, Es. simpl. rewrite Vm, Vs. f_equal.
    assert (total / 3600 = 0) by (apply Z.div_small; lia). lia.
  - rewrite seconds_to_timestamp_hours by exact Hbig. fold total.
    assert (Hh : 0 <= total / 3600 < 100).
    { split; [apply Z.div_pos; lia|apply Z.div_lt_upper_bound; lia]. }
    rewrite format_0d_two_digits by exact Hh.
    destruct (two_digits_value (total / 3600) Hh) as (h1 & h2 & Eh & Vh).
    rewrite Eh, Em, Es. simpl. rewrite Vh, Vm, Vs. f_equal. lia.
Qed.

(** X4: below one hundred hours the timestamp determines the whole second:
    two start times with the same timestamp have the same truncated number
    of seconds. *)
Theorem seconds_to_timestamp_injective (seconds1 seconds2 : Q) :
  0 <= Formatter.py_int seconds1 < 360000 ->
  0 <= Formatter.py_int seconds2 < 360000 ->
  Formatter.seconds_to_timestamp seconds1 = Formatter.seconds_to_timestamp seconds2 ->
  Formatter.py_int seconds1 = Formatter.py_int seconds2.
Proof.
  intros H1 H2 Heq.
  pose proof (timestamp_seconds_round_trip seconds1 H1) as R1.
  pose proof (timestamp_seconds_round_trip seconds2 H2) as R2.
  rewrite Heq, R2 in R1. now injection R1.
Qed.

Lemma seconds_to_timestamp_injective_witness :
  Formatter.py_int (131 # 2) = Formatter.py_int (65 # 1).
Proof.
  apply (seconds_to_timestamp_injective (131 # 2) (65 # 1));
    [ vm_compute; split; [discriminate|reflexivity]
    | vm_compute; split; [discriminate|reflexivity]
    | vm_compute; reflexivity ].
Defined.

(** ** The ID extractor: rejection, whitespace, idempotence *)

Lemma in_lstrip c s : In c (lstrip s) -> In c s.
Proof.
  induction s as [|d s IH]; simpl; [tauto|].
  destruct (is_space d); simpl; tauto.
Qed.

Lemma in_strip c s : In c (strip s) -> In c s.
Proof.
  unfold strip, rstrip. intros H. apply (proj2 (in_rev _ _)) in H.
  apply in_lstrip in H. apply (proj2 (in_rev _ _)) in H.
  now apply in_lstrip.
Qed.

Lemma try_patterns_none text :
  (forall sh, Regex.re_search (shape_pattern sh) text = None) ->
  Extractor.try_patterns Extractor.YOUTUBE_PATTERNS text
  = Raise (ValueError (Extractor.invalid_input_message text)).
Proof.
  intros Hnone.
  pose proof (Hnone Watch) as H0. pose proof (Hnone Short) as H1.
  pose proof (Hnone Shorts) as H2. pose proof (Hnone Embed) as H3.
  pose proof (Hnone Live) as H4.
  unfold shape_pattern, Extractor.YOUTUBE_PATTERNS in *.
  cbn [shape_index nth Extractor.try_patterns] in *.
  now rewrite H0, H1, H2, H3, H4.
Qed.

(** Inputs without a slash: accepted as a bare ID or rejected. *)
Lemma extract_video_id_no_slash (url_or_id : str) :
  ~ In slash url_or_id ->
  (is_video_id (strip url_or_id) = true ->
   Extractor.extract_video_id url_or_id = Ok (strip url_or_id)) /\
  (is_video_id (strip url_or_id) = false ->
   Extractor.extract_video_id url_or_id
   = Raise (ValueError (Extractor.invalid_input_message (strip url_or_id)))).
Proof.
  intros Hslash. unfold Extractor.extract_video_id, Extractor.extract_with. split.
  - intros Hv. destruct (bare_id_match _ Hv) as [m ->]. reflexivity.
  - intros Hv.
    destruct (Regex.re_match _ _) as [m|] eqn:E.
    + apply bare_id_inv in E as (v & Hid & [Heq|Hnl]).
      * rewrite Heq in Hv. congruence.
      * now apply strip_last in Hnl.
    + apply try_patterns_none. intros sh.
      apply (shape_search_none sh [] (strip url_or_id)).
      * intros Hin. apply Hslash. now apply in_strip.
      * reflexivity.
Qed.

(** X5: an input without a slash is accepted exactly when its trim is a
    well-formed ID, which is then returned; every other input without a
    slash is rejected with the [ValueError] that quotes the trimmed text. *)
Theorem extract_video_id_without_slash (url_or_id : str) :
  ~ In slash url_or_id ->
  (is_video_id (strip url_or_id) = true ->
   Extractor.extract_video_id url_or_id = Ok (strip url_or_id)) /\
  (is_video_id (strip url_or_id) = false ->
   Extractor.extract_video_id url_or_id
   = Raise (ValueError (Extractor.invalid_input_message (strip url_or_id)))).
Proof. apply extract_video_id_no_slash. Qed.

Lemma extract_video_id_without_slash_witness :
  Extractor.extract_video_id (str_of " not a video ")
  = Raise (ValueError (Extractor.invalid_input_message (strip (str_of " not a video ")))).
Proof.
  assert (Hslash : ~ In slash (str_of " not a video "))
    by (vm_compute; intuition discriminate).
  apply (proj2 (extract_video_id_without_slash (str_of " not a video ") Hslash)).
  vm_compute. reflexivity.
Defined.

(** X6: the extractor is idempotent: what it returns is a bare ID, on
    which it is the identity. *)
Theorem extract_video_id_idempotent (url_or_id v : str) :
  Extractor.extract_video_id url_or_id = Ok v ->
  Extractor.extract_video_id v = Ok v.
Proof.
  intros H.
  apply (extract_with_id _ _ _ youtube_patterns_end_with_id_group) in H.
  pose proof (extract_with_bare Extractor.YOUTUBE_PATTERNS [] v [] eq_refl eq_refl H)
    as Hbare.
  simpl in Hbare. now rewrite app_nil_r in Hbare.
Qed.

Lemma extract_video_id_idempotent_witness :
  Extractor.extract_video_id (str_of "dQw4w9WgXcQ") = Ok (str_of "dQw4w9WgXcQ").
Proof.
  apply (extract_video_id_idempotent (str_of "https://youtu.be/dQw4w9WgXcQ?t=5")).
  vm_compute. reflexivity.
Defined.

(** X7: whitespace around the input does not matter: the input is trimmed
    before anything is matched. *)
Theorem extract_video_id_ignores_padding (ws1 url_or_id ws2 : str) :
  forallb is_space ws1 = true -> forallb is_space ws2 = true ->
  Extractor.extract_video_id (ws1 ++ url_or_id ++ ws2)
  = Extractor.extract_video_id url_or_id.
Proof.
  intros H1 H2. unfold Extractor.extract_video_id, Extractor.extract_with.
  now rewrite strip_pad.
Qed.

Lemma extract_video_id_ignores_padding_witness :
  Extractor.extract_video_id
    (str_of "  " ++ str_of "https://youtu.be/dQw4w9WgXcQ" ++ [nl])
  = Extractor.extract_video_id (str_of "https://youtu.be/dQw4w9WgXcQ").
Proof.
  apply (extract_video_id_ignores_padding (str_of "  ")
           (str_of "https://youtu.be/dQw4w9WgXcQ") [nl]); reflexivity.
Defined.

(** X8: a URL of one of the five shapes (optional [http://] or [https://],
    optional [www.] except for [youtu.be], the path of the shape, an ID and
    a tail) yields its ID, provided the tail holds no slash and no trailing
    whitespace and, for the watch shape, no later [v=] followed by eleven ID
    characters. *)
Theorem extract_video_id_supported_url (sh : shape) (pre v tail : str) :
  In pre (shape_prefixes sh) ->
  is_video_id v = true ->
  rstrip tail = tail ->
  ~ In slash tail ->
  (sh = Watch -> has_v_id (v ++ tail) = false) ->
  Extractor.extract_video_id (pre ++ shape_literal sh ++ v ++ tail) = Ok v.
Proof. apply extract_video_id_url. Qed.

Lemma extract_video_id_supported_url_witness :
  Extractor.extract_video_id
    (str_of "https://www." ++ shape_literal Watch ++ example_id ++ str_of "&t=120")
  = Ok example_id.
Proof.
  apply (extract_video_id_supported_url Watch (str_of "https://www.") example_id
           (str_of "&t=120")).
  - simpl. auto 10.
  - vm_compute. reflexivity.
  - vm_compute. reflexivity.
  - vm_compute. intuition discriminate.
  - intros _. vm_compute. reflexivity.
Defined.

(** X9: on a well-formed ID, alone or surrounded by whitespace, the ID is
    returned whatever the list of URL patterns is: the bare-ID test comes
    first and the patterns are not consulted. *)
Theorem extract_with_bare_id (patterns : list Regex.regex) (ws1 v ws2 : str) :
  forallb is_space ws1 = true -> forallb is_space ws2 = true ->
  is_video_id v = true ->
  Extractor.extract_with patterns (ws1 ++ v ++ ws2) = Ok v.
Proof. apply extract_with_bare. Qed.

Lemma extract_with_bare_id_witness :
  Extractor.extract_with [] (str_of " " ++ example_id ++ [nl]) = Ok example_id.
Proof.
  apply (extract_with_bare_id [] (str_of " ") example_id [nl]); reflexivity.
Defined.

(** ** The cache: reading *)

Lemma get_cached_transcript_not_object (w : Index.world) video_id :
  Index.files w !! Index.cache_file_of video_id = Some Index.NotAnObject ->
  Index.get_cached_transcript video_id w = (Raise AttributeError, w).
Proof.
  intros H.
  unfold Index.get_cached_transcript, Index.bind, Index.try_except,
    Index.os_path_exists, Index.open_json_load.
  rewrite H. simpl. now rewrite H.
Qed.

Lemma get_cached_transcript_too_deep (w : Index.world) video_id message :
  Index.files w !! Index.cache_file_of video_id = Some (Index.TooDeep message) ->
  Index.get_cached_transcript video_id w = (Raise (RecursionError message), w).
Proof.
  intros H.
  unfold Index.get_cached_transcript, Index.bind, Index.try_except,
    Index.os_path_exists, Index.open_json_load.
  rewrite H. simpl. now rewrite H.
Qed.

Lemma get_cached_transcript_too_many_digits (w : Index.world) video_id message :
  Index.files w !! Index.cache_file_of video_id = Some (Index.TooManyDigits message) ->
  Index.get_cached_transcript video_id w = (Raise (ValueError message), w).
Proof.
  intros H.
  unfold Index.get_cached_transcript, Index.bind, Index.try_except,
    Index.os_path_exists, Index.open_json_load.
  rewrite H. simpl. now rewrite H.
Qed.

(** An entry whose expiry test raises: the exception leaves
    [get_cached_transcript]. *)
Lemma get_cached_transcript_not_numeric (w : Index.world) video_id fields e :
  Index.files w !! Index.cache_file_of video_id = Some (Index.Object fields) ->
  expired (Index.clock w) fields = Raise e ->
  Index.get_cached_transcript video_id w = (Raise e, w).
Proof.
  intros Hfile Hat.
  now rewrite (get_cached_transcript_object w video_id fields Hfile), Hat.
Qed.

(** The expiry test raises a [TypeError] when ["cached_at"] is not a
    number, and an [OverflowError] when it is an [int] too large for a
    float. *)
Lemma expired_raises (now : float) fields :
  (fields !! str_of "cached_at" = Some Index.VNone
   \/ (exists s, fields !! str_of "cached_at" = Some (Index.VStr s))
   \/ (exists l, fields !! str_of "cached_at" = Some (Index.VSegments l)) ->
   expired now fields = Raise TypeError) /\
  (forall z, fields !! str_of "cached_at" = Some (Index.VInt z) ->
     float_of_int z = None -> expired now fields = Raise OverflowError).
Proof.
  unfold expired, cached_at_of. split.
  - intros [H|[[s H]|[l H]]]; now rewrite H.
  - intros z H Hz. rewrite H. simpl. now rewrite Hz.
Qed.

(** Every way [get_cached_transcript] can end. *)
Lemma get_cached_transcript_cases (w : Index.world) video_id :
  let path := Index.cache_file_of video_id in
  Index.get_cached_transcript video_id w = (Ok Index.VNone, w)
  \/ (exists e, Index.get_cached_transcript video_id w = (Raise e, w))
  \/ (exists fields,
        Index.files w !! path = Some (Index.Object fields) /\
        expired (Index.clock w) fields = Ok true /\
        Index.removes w = Index.RemoveOk /\
        Index.get_cached_transcript video_id w
        = (Ok Index.VNone, without_entry video_id w))
  \/ (exists fields,
        Index.files w !! path = Some (Index.Object fields) /\
        expired (Index.clock w) fields = Ok false /\
        Index.get_cached_transcript video_id w
        = (Ok (default Index.VNone (fields !! str_of "segments")), w)).
Proof.
  intros path.
  destruct (Index.files w !! path) as [[| | | m | m | fields |]|] eqn:Efile.
  - left. apply get_cached_transcript_miss. auto.
  - right; left. eexists. now apply get_cached_transcript_undecodable.
  - left. apply get_cached_transcript_miss. auto.
  - right; left. exists (RecursionError m). now apply get_cached_transcript_too_deep.
  - right; left. exists (ValueError m). now apply get_cached_transcript_too_many_digits.
  - pose proof (get_cached_transcript_object w video_id fields Efile) as H.
    destruct (expired (Index.clock w) fields) as [[|]|e] eqn:Eexp.
    + destruct (Index.removes w) eqn:Erm.
      * right; right; left. exists fields. auto.
      * now left.
    + do 3 right. exists fields. auto.
    + right; left. now exists e.
  - right; left. eexists. now apply get_cached_transcript_not_object.
  - left. apply get_cached_transcript_miss. auto.
Qed.

(** X10: reading the cache never writes and never calls the provider: the
    world is left as it was, except that the entry read may have been
    deleted; entries of other names, the directory, the clock and the log
    of provider calls are untouched. *)
Theorem get_cached_transcript_frame (w : Index.world) (video_id : str) :
  let path := Index.cache_file_of video_id in
  let w' := snd (Index.get_cached_transcript video_id w) in
  same_but_files w w' /\
  (forall other, other <> path -> Index.files w' !! other = Index.files w !! other) /\
  (Index.files w' !! path = Index.files w !! path \/ Index.files w' !! path = None).
Proof.
  intros path w'. subst w'.
  destruct (get_cached_transcript_cases w video_id)
    as [->|[[e ->]|[(fields & _ & _ & _ & ->)|(fields & _ & _ & ->)]]];
    simpl; unfold same_but_files; simpl;
    repeat split; auto.
  - intros other Hother. now apply lookup_delete_ne.
  - right. apply lookup_delete_eq.
Qed.

Lemma get_cached_transcript_frame_witness :
  Index.files (snd (Index.get_cached_transcript example_id world_without_cached_at))
    !! Index.cache_file_of (str_of "oHg5SJYRHA0")
  = Index.files world_without_cached_at !! Index.cache_file_of (str_of "oHg5SJYRHA0").
Proof.
  apply (proj1 (proj2 (get_cached_transcript_frame world_without_cached_at example_id))).
  vm_compute. discriminate.
Defined.

(** X11: a hit is fresh and leaves the world alone: when something other
    than [None] comes back, it is the ["segments"] value of an entry for
    which the expiry test [now - cached_at > 604800] is false, and nothing
    was changed; when ["cached_at"] is a finite float, the entry is less
    than 604801 seconds old in exact arithmetic. *)
Theorem get_cached_transcript_hit (w w' : Index.world) (video_id : str) (v : Index.value) :
  Index.get_cached_transcript video_id w = (Ok v, w') ->
  v <> Index.VNone ->
  w' = w /\
  exists fields,
    Index.files w !! Index.cache_file_of video_id = Some (Index.Object fields) /\
    fields !! str_of "segments" = Some v /\
    expired (Index.clock w) fields = Ok false /\
    (forall t,
       fields !! str_of "cached_at" = Some (Index.VFloat t) ->
       finite (Index.clock w) -> finite t ->
       (real (Index.clock w) - real t < 604801)%Q).
Proof.
  intros Hget Hv.
  destruct (get_cached_transcript_cases w video_id)
    as [H|[[e H]|[(fields & _ & _ & _ & H)|(fields & Hfile & Hfresh & H)]]];
    rewrite H in Hget; try discriminate;
    injection Hget as <- <-; try congruence.
  split; [reflexivity|]. exists fields. repeat split; try assumption.
  - destruct (fields !! str_of "segments"); simpl in *; congruence.
  - intros t Hat Hnow Ht. apply Qnot_le_lt. intros Hold.
    rewrite (proj2 (expired_float (Index.clock w) t fields Hat Hnow Ht) Hold) in Hfresh.
    discriminate.
Qed.

Lemma get_cached_transcript_hit_witness :
  let w := snd (Index.main example_argv (example_world ∅ Index.DirAbsent Index.WriteOk)) in
  exists fields,
    Index.files w !! Index.cache_file_of example_id = Some (Index.Object fields) /\
    fields !! str_of "segments" = Some (Index.VSegments example_segments) /\
    expired (Index.clock w) fields = Ok false /\
    (forall t,
       fields !! str_of "cached_at" = Some (Index.VFloat t) ->
       finite (Index.clock w) -> finite t ->
       (real (Index.clock w) - real t < 604801)%Q).
Proof.
  intros w.
  apply (get_cached_transcript_hit w w example_id (Index.VSegments example_segments)).
  - vm_compute. reflexivity.
  - discriminate.
Defined.

(** ** The cache: writing, round trip, expiry *)

(** Every way [save_to_cache] can end. *)
Lemma save_to_cache_cases (w : Index.world) video_id segments :
  let path := Index.cache_file_of video_id in
  Index.save_to_cache video_id segments w
  = match Index.cache_dir w, Index.writes w with
    | Index.DirBlocked, _ => (Raise OSError, w)
    | _, Index.WriteOk =>
        (Ok tt,
         Index.set_files
           (<[path := Index.Object (entry_of video_id (Index.clock w) segments)]>
              (Index.files w)) (after_makedirs w))
    | _, Index.WriteOpenFails => (Ok tt, after_makedirs w)
    | _, Index.WriteBreaks =>
        (Ok tt,
         Index.set_files (<[path := Index.Malformed]> (Index.files w))
           (after_makedirs w))
    end.
Proof.
  intros path.
  unfold Index.save_to_cache, Index.bind, Index.try_except, Index.os_makedirs,
    Index.time_time, Index.open_json_dump, after_makedirs.
  destruct (Index.cache_dir w) eqn:Edir; simpl; rewrite ?Edir;
    destruct (Index.writes w); reflexivity.
Qed.

(** X12: [save_to_cache] returns normally whatever happens to the write of
    the file, and raises ([OSError]) exactly when the cache directory is
    missing and cannot be created.  It changes no entry but the one of the
    video and makes no provider call. *)
Theorem save_to_cache_outcome (w : Index.world) (video_id : str)
    (segments : list Index.segment) :
  let path := Index.cache_file_of video_id in
  let saved := Index.save_to_cache video_id segments w in
  (Index.cache_dir w = Index.DirBlocked -> saved = (Raise OSError, w)) /\
  (Index.cache_dir w <> Index.DirBlocked ->
   fst saved = Ok tt /\ Index.cache_dir (snd saved) = Index.DirPresent) /\
  (forall other, other <> path ->
     Index.files (snd saved) !! other = Index.files w !! other) /\
  Index.calls (snd saved) = Index.calls w /\
  Index.clock (snd saved) = Index.clock w.
Proof.
  intros path saved. subst saved. rewrite save_to_cache_cases. fold path.
  unfold after_makedirs.
  destruct (Index.cache_dir w) eqn:Edir; destruct (Index.writes w); simpl;
    repeat split; try congruence; try assumption;
    intros other Hother; now rewrite ?lookup_insert_ne by congruence.
Qed.

Lemma save_to_cache_outcome_witness :
  fst (Index.save_to_cache example_id example_segments
         (example_world ∅ Index.DirAbsent Index.WriteBreaks)) = Ok tt /\
  Index.cache_dir (snd (Index.save_to_cache example_id example_segments
                          (example_world ∅ Index.DirAbsent Index.WriteBreaks)))
  = Index.DirPresent.
Proof.
  apply (save_to_cache_outcome (example_world ∅ Index.DirAbsent Index.WriteBreaks)
           example_id example_segments).
  discriminate.
Defined.

Lemma saved_entry_fields video_id now segments :
  entry_of video_id now segments !! str_of "cached_at" = Some (Index.VFloat now) /\
  entry_of video_id now segments !! str_of "segments" = Some (Index.VSegments segments).
Proof.
  unfold entry_of. split.
  - rewrite lookup_insert_ne by discriminate. now rewrite lookup_insert_eq.
  - rewrite lookup_insert_ne by discriminate.
    rewrite lookup_insert_ne by discriminate. now rewrite lookup_insert_eq.
Qed.

(** The entry that a successful [save_to_cache] leaves, seen at another
    time. *)
Lemma saved_entry_file (w : Index.world) video_id segments t :
  Index.cache_dir w <> Index.DirBlocked ->
  Index.writes w = Index.WriteOk ->
  let w' := set_clock t (snd (Index.save_to_cache video_id segments w)) in
  Index.files w' !! Index.cache_file_of video_id
  = Some (Index.Object (entry_of video_id (Index.clock w) segments))
  /\ Index.clock w' = t /\ Index.removes w' = Index.removes w.
Proof.
  intros Hdir Hwr w'. subst w'. rewrite save_to_cache_cases, Hwr.
  unfold after_makedirs.
  destruct (Index.cache_dir w); try congruence; simpl;
    (split; [apply lookup_insert_eq|split; reflexivity]).
Qed.

(** What was saved is read back while it is fresh. *)
Lemma cache_round_trip_entry (w : Index.world) video_id segments (t : float) :
  Index.cache_dir w <> Index.DirBlocked ->
  Index.writes w = Index.WriteOk ->
  finite (Index.clock w) -> finite t ->
  (real t - real (Index.clock w) <= 604800)%Q ->
  let w' := set_clock t (snd (Index.save_to_cache video_id segments w)) in
  Index.get_cached_transcript video_id w' = (Ok (Index.VSegments segments), w').
Proof.
  intros Hdir Hwr Hnow Ht Hfresh w'.
  destruct (saved_entry_fields video_id (Index.clock w) segments) as [Hat Hseg].
  destruct (saved_entry_file w video_id segments t Hdir Hwr) as (Hfile & Hclock & _).
  fold w' in Hfile, Hclock.
  rewrite (get_cached_transcript_object w' video_id _ Hfile), Hclock.
  rewrite (proj1 (expired_float t (Index.clock w) _ Hat Ht Hnow) Hfresh).
  now rewrite Hseg.
Qed.

(** X13: round trip.  After a successful [save_to_cache] at time [now],
    whatever the entry held before, [get_cached_transcript] at any time [t]
    with [t - now <= 604800] (in exact arithmetic, the bound included)
    returns the segments that were saved, and changes nothing. *)
Theorem cache_round_trip_fresh (w : Index.world) (video_id : str)
    (segments : list Index.segment) (t : float) :
  Index.cache_dir w <> Index.DirBlocked ->
  Index.writes w = Index.WriteOk ->
  finite (Index.clock w) -> finite t ->
  (real t - real (Index.clock w) <= 604800)%Q ->
  let w' := set_clock t (snd (Index.save_to_cache video_id segments w)) in
  Index.get_cached_transcript video_id w' = (Ok (Index.VSegments segments), w').
Proof. exact (cache_round_trip_entry w video_id segments t). Qed.

Lemma cache_round_trip_fresh_witness :
  let w := example_world ∅ Index.DirAbsent Index.WriteOk in
  let w' := set_clock (Finite 2000604800 0)
              (snd (Index.save_to_cache example_id example_segments w)) in
  Index.get_cached_transcript example_id w' = (Ok (Index.VSegments example_segments), w').
Proof.
  intros w.
  apply (cache_round_trip_fresh w example_id example_segments (Finite 2000604800 0)).
  - discriminate.
  - reflexivity.
  - exact I.
  - exact I.
  - vm_compute. discriminate.
Defined.

(** X14: expiry.  With clocks that are doubles and an entry saved at
    604801 or later (any time from 8 January 1970 on): read more than
    604800 seconds after it was saved (in exact arithmetic), the entry is
    answered with absent.  Where [os.remove] succeeds the file is deleted,
    and a second read finds no file and is a plain miss; where it fails the
    file stays as it was written, and the read changes nothing. *)
Theorem cache_entry_expires (w : Index.world) (video_id : str)
    (segments : list Index.segment) (t : float) :
  Index.cache_dir w <> Index.DirBlocked ->
  Index.writes w = Index.WriteOk ->
  double (Index.clock w) -> double t ->
  (604801 <= real (Index.clock w))%Q ->
  (604800 < real t - real (Index.clock w))%Q ->
  let path := Index.cache_file_of video_id in
  let w' := set_clock t (snd (Index.save_to_cache video_id segments w)) in
  let w'' := without_entry video_id w' in
  fst (Index.get_cached_transcript video_id w') = Ok Index.VNone /\
  (Index.removes w = Index.RemoveOk ->
   Index.get_cached_transcript video_id w' = (Ok Index.VNone, w'') /\
   Index.files w'' !! path = None /\
   Index.get_cached_transcript video_id w'' = (Ok Index.VNone, w'')) /\
  (Index.removes w = Index.RemoveFails ->
   Index.get_cached_transcript video_id w' = (Ok Index.VNone, w') /\
   Index.files w' !! path
   = Some (Index.Object (entry_of video_id (Index.clock w) segments))).
Proof.
  intros Hdir Hwr Hnow Ht Hpast Hold path w' w''.
  destruct (saved_entry_fields video_id (Index.clock w) segments) as [Hat Hseg].
  destruct (saved_entry_file w video_id segments t Hdir Hwr) as (Hfile & Hclock & Hrm).
  fold w' in Hfile, Hclock, Hrm.
  assert (Hgone : Index.files w'' !! path = None) by apply lookup_delete_eq.
  rewrite (get_cached_transcript_object w' video_id _ Hfile), Hclock, Hrm.
  rewrite (proj2 (expired_double t (Index.clock w) _ Hat Ht Hnow Hpast) Hold).
  split; [now destruct (Index.removes w)|]. split.
  - intros ->. split; [reflexivity|]. split; [exact Hgone|].
    apply get_cached_transcript_miss. now left.
  - intros ->. split; [reflexivity|exact Hfile].
Qed.

Lemma cache_entry_expires_witness :
  let w := example_world ∅ Index.DirAbsent Index.WriteOk in
  let w' := set_clock (Finite 2000604801 0)
              (snd (Index.save_to_cache example_id example_segments w)) in
  Index.get_cached_transcript example_id w'
  = (Ok Index.VNone, without_entry example_id w').
Proof.
  intros w.
  apply (cache_entry_expires w example_id example_segments (Finite 2000604801 0)).
  - discriminate.
  - reflexivity.
  - vm_compute. split; [reflexivity|]. split; discriminate.
  - vm_compute. split; [reflexivity|]. split; discriminate.
  - vm_compute. discriminate.
  - vm_compute. reflexivity.
  - reflexivity.
Defined.

(** X15: a write that breaks part-way leaves a file that is not valid
    JSON: the next read is a miss and leaves that file where it is. *)
Theorem broken_write_reads_as_miss (w : Index.world) (video_id : str)
    (segments : list Index.segment) :
  Index.cache_dir w <> Index.DirBlocked ->
  Index.writes w = Index.WriteBreaks ->
  let w' := snd (Index.save_to_cache video_id segments w) in
  fst (Index.save_to_cache video_id segments w) = Ok tt /\
  Index.files w' !! Index.cache_file_of video_id = Some Index.Malformed /\
  Index.get_cached_transcript video_id w' = (Ok Index.VNone, w').
Proof.
  intros Hdir Hwr w'.
  assert (Hfile : Index.files w' !! Index.cache_file_of video_id
                  = Some Index.Malformed).
  { subst w'. rewrite save_to_cache_cases, Hwr.
    destruct (Index.cache_dir w); try congruence; simpl; apply lookup_insert_eq. }
  split; [|split; [exact Hfile|]].
  - rewrite save_to_cache_cases, Hwr. now destruct (Index.cache_dir w).
  - apply get_cached_transcript_miss. auto.
Qed.

Lemma broken_write_reads_as_miss_witness :
  let w := example_world ∅ Index.DirPresent Index.WriteBreaks in
  let w' := snd (Index.save_to_cache example_id example_segments w) in
  fst (Index.save_to_cache example_id example_segments w) = Ok tt /\
  Index.files w' !! Index.cache_file_of example_id = Some Index.Malformed /\
  Index.get_cached_transcript example_id w' = (Ok Index.VNone, w').
Proof.
  intros w.
  apply (broken_write_reads_as_miss w example_id example_segments);
    [discriminate|reflexivity].
Defined.

Lemma get_cached_transcript_depends (w1 w2 : Index.world) video_id :
  Index.files w1 !! Index.cache_file_of video_id
  = Index.files w2 !! Index.cache_file_of video_id ->
  Index.clock w1 = Index.clock w2 ->
  fst (Index.get_cached_transcript video_id w1)
  = fst (Index.get_cached_transcript video_id w2).
Proof.
  intros Hfile Hclock.
  destruct (Index.files w2 !! Index.cache_file_of video_id)
    as [[| | | m | m | fields |]|] eqn:E2.
  - rewrite !get_cached_transcript_miss; auto.
  - rewrite !get_cached_transcript_undecodable; auto.
  - rewrite !get_cached_transcript_miss; auto.
  - rewrite (get_cached_transcript_too_deep w1 video_id m Hfile).
    now rewrite (get_cached_transcript_too_deep w2 video_id m E2).
  - rewrite (get_cached_transcript_too_many_digits w1 video_id m Hfile).
    now rewrite (get_cached_transcript_too_many_digits w2 video_id m E2).
  - rewrite (get_cached_transcript_object w1 video_id fields Hfile).
    rewrite (get_cached_transcript_object w2 video_id fields E2).
    rewrite Hclock. destruct (expired _ _) as [[|]|e]; try reflexivity.
    now destruct (Index.removes w1), (Index.removes w2).
  - rewrite !get_cached_transcript_not_object; auto.
  - rewrite !get_cached_transcript_miss; auto.
Qed.

(** X16: the entries of different videos do not interfere: saving the
    transcript of one video does not change what the cache answers for
    another. *)
Theorem cache_entries_independent (w : Index.world) (video_id other_id : str)
    (segments : list Index.segment) :
  video_id <> other_id ->
  fst (Index.get_cached_transcript other_id
         (snd (Index.save_to_cache video_id segments w)))
  = fst (Index.get_cached_transcript other_id w).
Proof.
  intros Hne.
  assert (Hpath : Index.cache_file_of other_id <> Index.cache_file_of video_id).
  { unfold Index.cache_file_of. intros H. apply app_inv_tail in H. congruence. }
  apply get_cached_transcript_depends; rewrite save_to_cache_cases;
    unfold after_makedirs;
    destruct (Index.cache_dir w); destruct (Index.writes w); simpl;
    rewrite ?lookup_insert_ne by congruence; reflexivity.
Qed.

Lemma cache_entries_independent_witness :
  fst (Index.get_cached_transcript (str_of "oHg5SJYRHA0")
         (snd (Index.save_to_cache example_id example_segments
                 (example_world ∅ Index.DirPresent Index.WriteOk))))
  = fst (Index.get_cached_transcript (str_of "oHg5SJYRHA0")
           (example_world ∅ Index.DirPresent Index.WriteOk)).
Proof.
  apply (cache_entries_independent (example_world ∅ Index.DirPresent Index.WriteOk)
           example_id (str_of "oHg5SJYRHA0") example_segments).
  discriminate.
Defined.

(** ** The fetcher *)

Lemma fetch_transcript_first_error (w : Index.world) video_id e :
  Index.fetch_result (Index.youtube w) video_id en = Raise e ->
  e <> NoTranscriptFound ->
  Index.fetch_transcript video_id w
  = (Raise (first_attempt_error video_id e),
     Index.log_call (Index.CallFetch video_id en) w).
Proof.
  intros Hfetch Hne.
  unfold Index.fetch_transcript, Index.bind, Index.try_except, Index.api_fetch.
  fold en. rewrite Hfetch. destruct e; try congruence; reflexivity.
Qed.

(** Every way [fetch_transcript] can end. *)
Lemma fetch_transcript_cases (w : Index.world) video_id :
  let w1 := Index.log_call (Index.CallFetch video_id en) w in
  let w2 := Index.log_call (Index.CallList video_id) w1 in
  let no_captions := RuntimeError (Index.no_captions_message video_id) in
  (exists segments,
     Index.fetch_result (Index.youtube w) video_id en = Ok segments /\
     Index.fetch_transcript video_id w = (Ok segments, w1))
  \/ (exists e,
        Index.fetch_result (Index.youtube w) video_id en = Raise e /\
        e <> NoTranscriptFound /\
        Index.fetch_transcript video_id w = (Raise (first_attempt_error video_id e), w1))
  \/ (Index.fetch_result (Index.youtube w) video_id en = Raise NoTranscriptFound /\
      ((exists t others segments,
          Index.list_result (Index.youtube w) video_id = Ok (t :: others) /\
          Index.transcript_fetch t = Ok segments /\
          Index.fetch_transcript video_id w
          = (Ok segments,
             Index.log_call (Index.CallTranscriptFetch (Index.language_code t)) w2))
       \/ (exists t others,
             Index.list_result (Index.youtube w) video_id = Ok (t :: others) /\
             Index.fetch_transcript video_id w
             = (Raise no_captions,
                Index.log_call (Index.CallTranscriptFetch (Index.language_code t)) w2))
       \/ Index.fetch_transcript video_id w = (Raise no_captions, w2))).
Proof.
  intros w1 w2 no_captions.
  destruct (Index.fetch_result (Index.youtube w) video_id en) as [segments|e] eqn:Hfetch.
  - left. exists segments. split; [reflexivity|]. now apply fetch_transcript_english.
  - assert (Hdec : e = NoTranscriptFound \/ e <> NoTranscriptFound)
      by (destruct e; (now left) || (right; discriminate)).
    destruct Hdec as [->|Hne].
    + right; right. split; [reflexivity|].
      unfold Index.fetch_transcript, Index.bind, Index.try_except, Index.api_fetch,
        Index.api_list, Index.fetch_of, Index.ret, Index.raise.
      fold en. rewrite Hfetch. simpl Index.youtube.
      destruct (Index.list_result (Index.youtube w) video_id) as [[|t others]|e'] eqn:Hlist.
      * right; right. reflexivity.
      * destruct (Index.transcript_fetch t) as [segments|e'] eqn:Ht.
        -- left. exists t, others, segments. auto.
        -- right; left. exists t, others. auto.
      * right; right. reflexivity.
    + right; left. exists e. split; [reflexivity|]. split; [assumption|].
      now apply fetch_transcript_first_error.
Qed.

(** X17: the errors of [fetch_transcript].  An exception of the English
    fetch that no handler names (a network error, an age restriction, ...)
    leaves [fetch_transcript] unchanged, with no fallback.  Whatever
    [fetch_transcript] raises is either such an exception, or a
    [RuntimeError] carrying one of its five messages. *)
Theorem fetch_transcript_errors (w : Index.world) (video_id : str) :
  (forall e,
     Index.fetch_result (Index.youtube w) video_id en = Raise e ->
     named_by_fetch e = false ->
     Index.fetch_transcript video_id w
     = (Raise e, Index.log_call (Index.CallFetch video_id en) w)) /\
  (forall e' w',
     Index.fetch_transcript video_id w = (Raise e', w') ->
     (exists message, e' = RuntimeError message /\ In message (fetch_messages video_id))
     \/ (Index.fetch_result (Index.youtube w) video_id en = Raise e' /\
         named_by_fetch e' = false)).
Proof.
  split.
  - intros e Hfetch Hnamed.
    rewrite (fetch_transcript_first_error w video_id e Hfetch)
      by (intros ->; discriminate).
    destruct e; try discriminate; reflexivity.
  - intros e' w' Hraise.
    destruct (fetch_transcript_cases w video_id)
      as [(segments & _ & H)|[(e & Hfetch & Hne & H)|(_ & [(t & o & s & _ & _ & H)
                                                        |[(t & o & _ & H)|H]])]];
      rewrite H in Hraise; try discriminate; injection Hraise as <- _.
    + destruct e; try congruence; simpl;
        try (right; split; [assumption|reflexivity]);
        left; eexists; (split; [reflexivity|]); simpl; auto 10.
    + left. eexists. split; [reflexivity|]. simpl. auto 10.
    + left. eexists. split; [reflexivity|]. simpl. auto 10.
Qed.

Lemma fetch_transcript_errors_witness :
  let w := Index.mkWorld ∅ Index.DirPresent Index.WriteOk Index.RemoveOk
             (Finite 2000000000 0)
             (Index.mkProvider (fun _ _ => Raise (OtherError (str_of "AgeRestricted")))
                (fun _ => Ok [french])) [] in
  Index.fetch_transcript example_id w
  = (Raise (OtherError (str_of "AgeRestricted")),
     Index.log_call (Index.CallFetch example_id en) w).
Proof.
  intros w.
  apply (proj1 (fetch_transcript_errors w example_id)); reflexivity.
Defined.

(** X18: the calls of [fetch_transcript].  It touches nothing but the log
    of provider calls; the first call is the English fetch; it is followed
    by nothing, by the listing, or by the listing and the fetch of one
    listed transcript, never more.  When the English fetch succeeds its
    segments are returned and no other call is made. *)
Theorem fetch_transcript_calls (w : Index.world) (video_id : str) :
  let w' := snd (Index.fetch_transcript video_id w) in
  Index.files w' = Index.files w /\
  Index.cache_dir w' = Index.cache_dir w /\
  Index.clock w' = Index.clock w /\
  (exists more,
     Index.calls w' = Index.calls w ++ Index.CallFetch video_id en :: more /\
     (more = [] \/ more = [Index.CallList video_id]
      \/ exists language,
           more = [Index.CallList video_id; Index.CallTranscriptFetch language])) /\
  (forall segments,
     Index.fetch_result (Index.youtube w) video_id en = Ok segments ->
     Index.fetch_transcript video_id w
     = (Ok segments, Index.log_call (Index.CallFetch video_id en) w)).
Proof.
  intros w'. subst w'. split; [|split; [|split; [|split]]].
  5: { intros segments H. now apply fetch_transcript_english. }
  all: destruct (fetch_transcript_cases w video_id)
      as [(segments & _ & H)|[(e & Hfetch & Hne & H)|(_ & [(t & o & s & _ & _ & H)
                                                        |[(t & o & _ & H)|H]])]];
    rewrite H; simpl; try reflexivity.
  - exists []. auto.
  - exists []. auto.
  - eexists. rewrite <- !app_assoc. simpl. split; [reflexivity|]. right; right. eauto.
  - eexists. rewrite <- !app_assoc. simpl. split; [reflexivity|]. right; right. eauto.
  - eexists. rewrite <- !app_assoc. simpl. split; [reflexivity|]. auto.
Qed.

Lemma fetch_transcript_calls_witness :
  Index.fetch_transcript example_id (example_world ∅ Index.DirPresent Index.WriteOk)
  = (Ok example_segments,
     Index.log_call (Index.CallFetch example_id en)
       (example_world ∅ Index.DirPresent Index.WriteOk)).
Proof.
  apply (proj2 (proj2 (proj2 (proj2
           (fetch_transcript_calls (example_world ∅ Index.DirPresent Index.WriteOk)
              example_id))))).
  reflexivity.
Defined.

(** ** The entry point *)

Lemma main_unfold prog raw_input video_id (w : Index.world) :
  Extractor.extract_video_id raw_input = Ok video_id ->
  Index.main [prog; raw_input] w
  = match Index.load_transcript video_id w with
    | (Raise e, w') => (Index.fail (report_of e), w')
    | (Ok transcript_segments, w') => (Index.emit video_id transcript_segments, w')
    end.
Proof.
  intros Hid. unfold Index.main. rewrite Hid.
  destruct (Index.load_transcript video_id w) as [[v|e] w']; [reflexivity|].
  unfold report_of. now destruct (Index.runtime_error e).
Qed.

Lemma load_transcript_hit video_id (w w' : Index.world) v :
  Index.get_cached_transcript video_id w = (Ok v, w') ->
  v <> Index.VNone ->
  Index.load_transcript video_id w = (Ok v, w').
Proof.
  intros Hget Hv. unfold Index.load_transcript, Index.bind. rewrite Hget.
  destruct v; try reflexivity. congruence.
Qed.

Lemma load_transcript_raise video_id (w w' : Index.world) e :
  Index.get_cached_transcript video_id w = (Raise e, w') ->
  Index.load_transcript video_id w = (Raise e, w').
Proof.
  intros Hget. unfold Index.load_transcript, Index.bind. now rewrite Hget.
Qed.

Lemma load_transcript_miss video_id (w : Index.world) :
  Index.get_cached_transcript video_id w = (Ok Index.VNone, w) ->
  Index.load_transcript video_id w
  = match Index.fetch_transcript video_id w with
    | (Ok segments, w1) =>
        match Index.save_to_cache video_id segments w1 with
        | (Ok _, w2) => (Ok (Index.VSegments segments), w2)
        | (Raise e, w2) => (Raise e, w2)
        end
    | (Raise e, w1) => (Raise e, w1)
    end.
Proof.
  intros Hget. unfold Index.load_transcript, Index.bind at 1. rewrite Hget.
  unfold Index.bind, Index.ret.
  destruct (Index.fetch_transcript video_id w) as [[segments|e] w1]; reflexivity.
Qed.

Lemma chunk_transcript_join (text : str) (max_chars : Z) :
  str_join nl (Chunker.chunk_transcript text max_chars) = text.
Proof.
  destruct text as [|c0 text0]; [reflexivity|].
  destruct (chunk_transcript_groups (c0 :: text0) max_chars) as (groups & -> & Hok & Hcat);
    [discriminate|].
  rewrite str_join_concat by (eapply group_ok_nonempty; eassumption).
  rewrite Hcat. apply str_join_split.
Qed.

(** Texts that the streams can encode. *)
Lemma encodable_app (a b : str) :
  Index.encodable (a ++ b) = Index.encodable a && Index.encodable b.
Proof. apply forallb_app. Qed.



Lemma encodable_spaces (ws : str) :
  forallb is_space ws = true -> Index.encodable ws = true.
Proof.
  unfold Index.encodable. rewrite !forallb_forall. intros H c Hc.
  specialize (H c Hc). apply orb_true_iff. left. apply N.ltb_lt.
  unfold is_space in H.
  repeat (apply orb_true_iff in H as [H|H]);
    repeat (apply andb_true_iff in H as [? H]);
    repeat match goal with
           | E : (_ <=? _)%N = true |- _ => apply N.leb_le in E
           | E : (_ =? _)%N = true |- _ => apply N.eqb_eq in E
           end; lia.
Qed.

Lemma encodable_strip (s : str) :
  Index.encodable (strip s) = Index.encodable s.
Proof.
  unfold strip.
  destruct (lstrip_split s) as (ws1 & Hs & Hws1).
  destruct (rstrip_split (lstrip s)) as (ws2 & Hl & Hws2).
  rewrite Hs at 2. rewrite Hl at 2.
  rewrite !encodable_app, (encodable_spaces ws1 Hws1), (encodable_spaces ws2 Hws2).
  now rewrite andb_true_r.
Qed.


(** What [main] prints for a list of segments: nothing but an error when
    they are all blank; otherwise the formatted transcript: when it is one
    chunk, plain if it can be encoded, with a [UnicodeEncodeError] that
    nobody catches if not; and as a bundle of at least two chunks when it
    is more than one. *)
Lemma emit_segments video_id (segments : list Index.segment) :
  let formatted := Formatter.format_transcript segments in
  let chunks := Chunker.chunk_transcript formatted 4000 in
  (formatted = [] ->
   Index.emit video_id (Index.VSegments segments) = Index.Failure Index.EmptyTranscript) /\
  (formatted <> [] ->
   str_join nl chunks = formatted /\
   (len formatted <= 4000 -> chunks = [formatted]) /\
   (length chunks = 1%nat ->
    chunks = [formatted] /\
    Index.emit video_id (Index.VSegments segments)
    = if Index.encodable formatted then Index.Success (Index.Plain formatted)
      else Index.Traceback UnicodeEncodeError) /\
   (length chunks <> 1%nat ->
    (2 <= length chunks)%nat /\
    Index.emit video_id (Index.VSegments segments)
    = Index.Success (Index.Bundle video_id (length chunks) Index.chunk_note chunks))).
Proof.
  intros formatted chunks. unfold Index.emit. simpl Index.format_value.
  fold formatted. split.
  - intros ->. reflexivity.
  - intros Hne.
    replace (is_nil formatted) with false by (destruct formatted; [congruence|reflexivity]).
    unfold Chunker.chunk_transcript_default. fold chunks.
    pose proof (chunk_transcript_join formatted 4000) as Hjoin. fold chunks in Hjoin.
    split; [exact Hjoin|]. split.
    { intros Hle. subst chunks. unfold Chunker.chunk_transcript.
      replace (is_nil formatted) with false
        by (destruct formatted; [congruence|reflexivity]).
      destruct (Z.leb_spec (len formatted) 4000); [reflexivity|lia]. }
    destruct chunks as [|c [|c' cs]].
    + simpl in Hjoin. congruence.
    + simpl in Hjoin. subst c. split; [|intros H; now elim H].
      intros _. now split.
    + split; [discriminate|]. intros _. split; [simpl; lia|reflexivity].
Qed.

(** X19: without an input [main] reports the missing argument, and an
    input without a slash that does not trim to a well-formed ID is
    reported with the extractor's message, which quotes the trimmed input;
    when the input holds a surrogate code point (an argument that was not
    valid UTF-8), that message cannot be printed and the run ends with the
    [UnicodeEncodeError] of [print].  In all these cases nothing else
    happens: no cache access, no provider call. *)
Theorem main_rejects_input (w : Index.world) :
  Index.main [] w = (Index.Failure Index.NoArgument, w) /\
  (forall prog, Index.main [prog] w = (Index.Failure Index.NoArgument, w)) /\
  (forall prog raw_input more,
     ~ In slash raw_input ->
     is_video_id (strip raw_input) = false ->
     Index.main (prog :: raw_input :: more) w
     = (if Index.encodable raw_input
        then Index.Failure
               (Index.Reported (Extractor.invalid_input_message (strip raw_input)))
        else Index.Traceback UnicodeEncodeError, w)).
Proof.
  split; [reflexivity|]. split; [reflexivity|].
  intros prog raw_input more Hslash Hbad. unfold Index.main.
  rewrite (proj2 (extract_video_id_no_slash raw_input Hslash) Hbad).
  unfold Index.fail, Index.printable, Extractor.invalid_input_message.
  rewrite !encodable_app, encodable_strip.
  now destruct (Index.encodable raw_input).
Qed.

Lemma main_rejects_input_witness :
  Index.main [str_of "index.py"; str_of "not a video"] blocking_world
  = (if Index.encodable (str_of "not a video")
     then Index.Failure
            (Index.Reported (Extractor.invalid_input_message (strip (str_of "not a video"))))
     else Index.Traceback UnicodeEncodeError,
     blocking_world).
Proof.
  apply (proj2 (proj2 (main_rejects_input blocking_world))).
  - vm_compute. intuition discriminate.
  - vm_compute. reflexivity.
Defined.

(** X20: a cache hit.  When the entry of the video holds segments and its
    expiry test [now - cached_at > 604800] is false (in particular when
    ["cached_at"] is a finite float and the entry is at most 604800 seconds
    old in exact arithmetic), [main] formats, chunks and prints these
    segments and leaves the world as it is: the provider is not called and
    nothing is written.  What is printed is the formatted transcript, plain
    when it has at most 4000 characters and can be encoded. *)
Theorem main_cache_hit (w : Index.world) prog raw_input video_id fields segments :
  Extractor.extract_video_id raw_input = Ok video_id ->
  Index.files w !! Index.cache_file_of video_id = Some (Index.Object fields) ->
  (expired (Index.clock w) fields = Ok false
   \/ exists t,
        fields !! str_of "cached_at" = Some (Index.VFloat t) /\
        finite (Index.clock w) /\ finite t /\
        (real (Index.clock w) - real t <= 604800)%Q) ->
  fields !! str_of "segments" = Some (Index.VSegments segments) ->
  let formatted := Formatter.format_transcript segments in
  Index.main [prog; raw_input] w
  = (Index.emit video_id (Index.VSegments segments), w) /\
  (formatted <> [] -> len formatted <= 4000 -> Index.encodable formatted = true ->
   Index.main [prog; raw_input] w = (Index.Success (Index.Plain formatted), w)).
Proof.
  intros Hid Hfile Hfresh Hseg formatted.
  assert (Hexp : expired (Index.clock w) fields = Ok false).
  { destruct Hfresh as [H|(t & Hat & Hnow & Ht & Hle)]; [exact H|].
    exact (proj1 (expired_float (Index.clock w) t fields Hat Hnow Ht) Hle). }
  assert (Hmain : Index.main [prog; raw_input] w
                  = (Index.emit video_id (Index.VSegments segments), w)).
  { rewrite (main_unfold prog raw_input video_id w Hid).
    rewrite (load_transcript_hit video_id w w (Index.VSegments segments));
      [reflexivity| |discriminate].
    rewrite (get_cached_transcript_object w video_id fields Hfile), Hexp.
    now rewrite Hseg. }
  split; [exact Hmain|].
  intros Hne Hlen Henc. rewrite Hmain.
  destruct (emit_segments video_id segments) as [_ Hfull].
  destruct (Hfull Hne) as (_ & Hfit & Hone & _).
  fold formatted in Hfit, Hone.
  rewrite (proj2 (Hone ltac:(now rewrite (Hfit Hlen)))), Henc. reflexivity.
Qed.

Lemma main_cache_hit_witness :
  let w := example_world
             {[ Index.cache_file_of example_id
                := Index.Object
                     (entry_of example_id (Finite 1999999000 0) example_segments) ]}
             Index.DirPresent Index.WriteOk in
  Index.main example_argv w
  = (Index.emit example_id (Index.VSegments example_segments), w).
Proof.
  intros w.
  refine (proj1 (main_cache_hit w (str_of "index.py") example_id example_id
                   (entry_of example_id (Finite 1999999000 0) example_segments)
                   example_segments _ _ _ _)).
  - vm_compute. reflexivity.
  - apply lookup_singleton_eq.
  - right. exists (Finite 1999999000 0). split; [apply saved_entry_fields|].
    split; [exact I|]. split; [exact I|]. vm_compute. discriminate.
  - apply saved_entry_fields.
Defined.

Lemma main_miss_fetched (w : Index.world) prog raw_input video_id segments :
  Extractor.extract_video_id raw_input = Ok video_id ->
  Index.files w !! Index.cache_file_of video_id = None ->
  Index.fetch_result (Index.youtube w) video_id en = Ok segments ->
  Index.cache_dir w <> Index.DirBlocked ->
  Index.main [prog; raw_input] w
  = (Index.emit video_id (Index.VSegments segments),
     snd (Index.save_to_cache video_id segments
            (Index.log_call (Index.CallFetch video_id en) w))).
Proof.
  intros Hid Hmiss Hfetch Hdir.
  rewrite (main_unfold prog raw_input video_id w Hid).
  rewrite load_transcript_miss by (apply get_cached_transcript_miss; now left).
  rewrite (fetch_transcript_english w video_id segments Hfetch).
  pose proof (save_to_cache_swallows_write
                (Index.log_call (Index.CallFetch video_id en) w) video_id segments Hdir)
    as Hsave.
  destruct (Index.save_to_cache _ _ _) as [[[]|e] w2]; simpl in *;
    [reflexivity|discriminate].
Qed.

(** X21: the cache at work.  After a run that missed the cache, fetched
    the English transcript and wrote the entry, a run with the same input
    at any time [t] with [t - now <= 604800] (in exact arithmetic, [now]
    being the time of the first run) ends the same way and changes nothing:
    it is served from the cache, and the provider has been called once in
    all. *)
Theorem main_second_run (w : Index.world) prog raw_input video_id segments (t : float) :
  Extractor.extract_video_id raw_input = Ok video_id ->
  Index.files w !! Index.cache_file_of video_id = None ->
  Index.fetch_result (Index.youtube w) video_id en = Ok segments ->
  Index.cache_dir w <> Index.DirBlocked ->
  Index.writes w = Index.WriteOk ->
  finite (Index.clock w) -> finite t ->
  (real t - real (Index.clock w) <= 604800)%Q ->
  let first := Index.main [prog; raw_input] w in
  let later := set_clock t (snd first) in
  Index.main [prog; raw_input] later = (fst first, later) /\
  Index.calls (snd first) = Index.calls w ++ [Index.CallFetch video_id en] /\
  Index.calls (snd (Index.main [prog; raw_input] later))
  = Index.calls w ++ [Index.CallFetch video_id en].
Proof.
  intros Hid Hmiss Hfetch Hdir Hwr Hnow Ht Hfresh first later.
  subst later first.
  rewrite (main_miss_fetched w prog raw_input video_id segments Hid Hmiss Hfetch Hdir).
  set (w1 := Index.log_call (Index.CallFetch video_id en) w).
  cbn [fst snd].
  set (later := set_clock t (snd (Index.save_to_cache video_id segments w1))).
  assert (Hcalls : Index.calls later = Index.calls w ++ [Index.CallFetch video_id en]).
  { subst later. rewrite save_to_cache_cases. unfold after_makedirs. subst w1. simpl.
    rewrite Hwr. destruct (Index.cache_dir w); try congruence; reflexivity. }
  assert (Hrun : Index.main [prog; raw_input] later
                 = (Index.emit video_id (Index.VSegments segments), later)).
  { rewrite (main_unfold prog raw_input video_id later Hid).
    rewrite (load_transcript_hit video_id later later (Index.VSegments segments));
      [reflexivity| |discriminate].
    apply (cache_round_trip_entry w1 video_id segments t); assumption. }
  split; [exact Hrun|]. split.
  - subst later. exact Hcalls.
  - rewrite Hrun. exact Hcalls.
Qed.

Lemma main_second_run_witness :
  let w := example_world ∅ Index.DirAbsent Index.WriteOk in
  let later := set_clock (Finite 2000086400 0) (snd (Index.main example_argv w)) in
  Index.main example_argv later = (fst (Index.main example_argv w), later) /\
  Index.calls (snd (Index.main example_argv w))
  = Index.calls w ++ [Index.CallFetch example_id en] /\
  Index.calls (snd (Index.main example_argv later))
  = Index.calls w ++ [Index.CallFetch example_id en].
Proof.
  intros w.
  apply (main_second_run w (str_of "index.py") example_id example_id example_segments
           (Finite 2000086400 0)).
  - vm_compute. reflexivity.
  - apply lookup_empty.
  - reflexivity.
  - discriminate.
  - reflexivity.
  - exact I.
  - exact I.
  - vm_compute. discriminate.
Defined.

(** X22: what is printed.  After a cache miss and a successful English
    fetch, with a cache directory that exists or can be created: if no
    segment has visible text the run ends with the "empty transcript"
    error.  Otherwise the chunks of the formatted transcript, joined by
    newlines, are that transcript, and there is one chunk when it has at
    most 4000 characters.  One chunk is printed plain, unless it holds a
    surrogate code point: then [print] fails and the run ends with its
    [UnicodeEncodeError].  Several chunks are printed as a bundle that
    names the video, counts its chunks, and has at least two of them. *)
Theorem main_prints_transcript (w : Index.world) prog raw_input video_id segments :
  Extractor.extract_video_id raw_input = Ok video_id ->
  Index.files w !! Index.cache_file_of video_id = None ->
  Index.fetch_result (Index.youtube w) video_id en = Ok segments ->
  Index.cache_dir w <> Index.DirBlocked ->
  let formatted := Formatter.format_transcript segments in
  let chunks := Chunker.chunk_transcript formatted 4000 in
  let outcome := fst (Index.main [prog; raw_input] w) in
  (formatted = [] -> outcome = Index.Failure Index.EmptyTranscript) /\
  (formatted <> [] ->
   str_join nl chunks = formatted /\
   (len formatted <= 4000 -> chunks = [formatted]) /\
   (length chunks = 1%nat ->
    chunks = [formatted] /\
    (Index.encodable formatted = true ->
     outcome = Index.Success (Index.Plain formatted)) /\
    (Index.encodable formatted = false ->
     outcome = Index.Traceback UnicodeEncodeError)) /\
   (length chunks <> 1%nat ->
    (2 <= length chunks)%nat /\
    outcome
    = Index.Success (Index.Bundle video_id (length chunks) Index.chunk_note chunks))).
Proof.
  intros Hid Hmiss Hfetch Hdir formatted chunks outcome. subst outcome.
  rewrite (main_miss_fetched w prog raw_input video_id segments Hid Hmiss Hfetch Hdir).
  cbn [fst].
  destruct (emit_segments video_id segments) as [Hempty Hfull].
  fold formatted in Hempty, Hfull. fold chunks in Hfull.
  split; [exact Hempty|].
  intros Hne. destruct (Hfull Hne) as (Hjoin & Hfit & Hone & Hmany).
  split; [exact Hjoin|]. split; [exact Hfit|]. split; [|exact Hmany].
  intros Hlen. destruct (Hone Hlen) as [Hchunks Hemit].
  split; [exact Hchunks|]. rewrite Hemit.
  split; intros ->; reflexivity.
Qed.

Lemma main_prints_transcript_witness :
  fst (Index.main example_argv (example_world ∅ Index.DirPresent Index.WriteBreaks))
  = Index.Success (Index.Plain (Formatter.format_transcript example_segments)).
Proof.
  assert (Hid : Extractor.extract_video_id example_id = Ok example_id)
    by (vm_compute; reflexivity).
  assert (Hdir : Index.DirPresent <> Index.DirBlocked) by discriminate.
  assert (Hmiss : Index.files (example_world ∅ Index.DirPresent Index.WriteBreaks)
                    !! Index.cache_file_of example_id = None)
    by apply lookup_empty.
  destruct (main_prints_transcript (example_world ∅ Index.DirPresent Index.WriteBreaks)
              (str_of "index.py") example_id example_id example_segments
              Hid Hmiss eq_refl Hdir) as [_ H].
  destruct H as (_ & _ & Hone & _); [vm_compute; discriminate|].
  destruct Hone as (_ & Hplain & _); [vm_compute; reflexivity|].
  apply Hplain. vm_compute. reflexivity.
Defined.





(** X24: a URL and its ID are interchangeable.  With a URL of a supported
    shape (as in X8) [main] does exactly what it does with the bare ID. *)
Theorem main_url_same_as_id (w : Index.world) (prog : str) (sh : shape)
    (pre v tail : str) :
  In pre (shape_prefixes sh) ->
  is_video_id v = true ->
  rstrip tail = tail ->
  ~ In slash tail ->
  (sh = Watch -> has_v_id (v ++ tail) = false) ->
  Index.main [prog; pre ++ shape_literal sh ++ v ++ tail] w = Index.main [prog; v] w.
Proof.
  intros Hpre Hv Htrim Hslash Hlater.
  pose proof (extract_video_id_url sh pre v tail Hpre Hv Htrim Hslash Hlater) as Hurl.
  pose proof (extract_with_bare Extractor.YOUTUBE_PATTERNS [] v [] eq_refl eq_refl Hv)
    as Hbare.
  simpl in Hbare. rewrite app_nil_r in Hbare.
  etransitivity; [exact (main_unfold prog _ v w Hurl)|].
  symmetry. exact (main_unfold prog v v w Hbare).
Qed.

Lemma main_url_same_as_id_witness :
  Index.main [str_of "index.py";
              str_of "https://" ++ shape_literal Short ++ example_id ++ str_of "?t=5"]
    (example_world ∅ Index.DirAbsent Index.WriteOk)
  = Index.main [str_of "index.py"; example_id]
      (example_world ∅ Index.DirAbsent Index.WriteOk).
Proof.
  apply (main_url_same_as_id (example_world ∅ Index.DirAbsent Index.WriteOk)
           (str_of "index.py") Short (str_of "https://") example_id (str_of "?t=5")).
  - simpl. auto.
  - vm_compute. reflexivity.
  - vm_compute. reflexivity.
  - vm_compute. intuition discriminate.
  - discriminate.
Defined.

(** X25: cache files that the reader does not expect.  A cache file that
    is not UTF-8, that [json.load] turns into something other than a
    [dict], that holds an integer literal longer than the interpreter
    converts, or whose ["cached_at"] is not a number or is an [int] too
    large for a float, ends the run with the "unexpected error" report
    ([UnicodeDecodeError], [AttributeError], [ValueError], [TypeError],
    [OverflowError]).  A file nested so deeply that [json.load] raises a
    [RecursionError], which is a [RuntimeError], ends it with the plain
    report of that error's message.  In every case the provider is not
    asked and the file is left in place, so every later run for that video
    ends the same way. *)
Theorem main_unexpected_cache_file (w : Index.world) prog raw_input video_id :
  Extractor.extract_video_id raw_input = Ok video_id ->
  let file := Index.files w !! Index.cache_file_of video_id in
  let run := Index.main [prog; raw_input] w in
  (file = Some Index.Undecodable ->
   run = (Index.Failure (Index.Unexpected UnicodeDecodeError), w)) /\
  (file = Some Index.NotAnObject ->
   run = (Index.Failure (Index.Unexpected AttributeError), w)) /\
  (forall message,
     file = Some (Index.TooManyDigits message) -> Index.encodable message = true ->
     run = (Index.Failure (Index.Unexpected (ValueError message)), w)) /\
  (forall message,
     file = Some (Index.TooDeep message) -> Index.encodable message = true ->
     run = (Index.Failure (Index.Reported message), w)) /\
  (forall fields,
     file = Some (Index.Object fields) ->
     (expired (Index.clock w) fields = Raise TypeError ->
      run = (Index.Failure (Index.Unexpected TypeError), w)) /\
     (expired (Index.clock w) fields = Raise OverflowError ->
      run = (Index.Failure (Index.Unexpected OverflowError), w)) /\
     (fields !! str_of "cached_at" = Some Index.VNone
      \/ (exists s, fields !! str_of "cached_at" = Some (Index.VStr s))
      \/ (exists l, fields !! str_of "cached_at" = Some (Index.VSegments l)) ->
      expired (Index.clock w) fields = Raise TypeError) /\
     (forall z, fields !! str_of "cached_at" = Some (Index.VInt z) ->
        2 ^ 1024 <= z -> expired (Index.clock w) fields = Raise OverflowError)).
Proof.
  intros Hid file run. subst file run.
  rewrite (main_unfold prog raw_input video_id w Hid).
  split; [|split; [|split; [|split]]].
  - intros H.
    now rewrite (load_transcript_raise video_id w w UnicodeDecodeError
                   (get_cached_transcript_undecodable w video_id H)).
  - intros H.
    now rewrite (load_transcript_raise video_id w w AttributeError
                   (get_cached_transcript_not_object w video_id H)).
  - intros message H Henc.
    rewrite (load_transcript_raise video_id w w (ValueError message)
               (get_cached_transcript_too_many_digits w video_id message H)).
    unfold Index.fail, report_of. simpl. now rewrite Henc.
  - intros message H Henc.
    rewrite (load_transcript_raise video_id w w (RecursionError message)
               (get_cached_transcript_too_deep w video_id message H)).
    unfold Index.fail, report_of. simpl. now rewrite Henc.
  - intros fields H. split; [|split; [|split]].
    + intros Hat.
      now rewrite (load_transcript_raise video_id w w TypeError
                     (get_cached_transcript_not_numeric w video_id fields _ H Hat)).
    + intros Hat.
      now rewrite (load_transcript_raise video_id w w OverflowError
                     (get_cached_transcript_not_numeric w video_id fields _ H Hat)).
    + apply expired_raises.
    + intros z Hat Hz. apply (proj2 (expired_raises (Index.clock w) fields) z Hat).
      now apply float_of_int_overflow.
Qed.

Lemma main_unexpected_cache_file_witness :
  let w := example_world {[ Index.cache_file_of example_id := Index.Undecodable ]}
             Index.DirPresent Index.WriteOk in
  Index.main example_argv w
  = (Index.Failure (Index.Unexpected UnicodeDecodeError), w).
Proof.
  intros w.
  assert (Hid : Extractor.extract_video_id example_id = Ok example_id)
    by (vm_compute; reflexivity).
  apply (proj1 (main_unexpected_cache_file w (str_of "index.py") example_id
                  example_id Hid)).
  apply lookup_singleton_eq.
Defined.

(** Three hand-made cache files at the entry point: an entry whose
    ["cached_at"] is the integer [10^400] (the subtraction raises an
    [OverflowError]); a file nested too deeply for [json.load]; and a fresh
    entry whose only caption holds the lone surrogate U+D800, which the
    output stream cannot encode. *)
Example main_example_overflow :
  let entry := <[str_of "cached_at" := Index.VInt (10 ^ 400)]>
                 {[ str_of "segments" := Index.VSegments example_segments ]} in
  let w := example_world {[ Index.cache_file_of example_id := Index.Object entry ]}
             Index.DirPresent Index.WriteOk in
  Index.main example_argv w = (Index.Failure (Index.Unexpected OverflowError), w).
Proof. vm_compute. reflexivity. Qed.

Example main_example_too_deep :
  let message := str_of "maximum recursion depth exceeded" in
  let w := example_world {[ Index.cache_file_of example_id := Index.TooDeep message ]}
             Index.DirPresent Index.WriteOk in
  Index.main example_argv w = (Index.Failure (Index.Reported message), w).
Proof. vm_compute. reflexivity. Qed.

Example main_example_surrogate :
  let caption := Formatter.mkSegment [55296%N] (0 # 1) (1 # 1) in
  let entry := entry_of example_id (Finite 1999999000 0) [caption] in
  let w := example_world {[ Index.cache_file_of example_id := Index.Object entry ]}
             Index.DirPresent Index.WriteOk in
  Index.main example_argv w = (Index.Traceback UnicodeEncodeError, w).
Proof. vm_compute. reflexivity. Qed.
